(** * Liveline engine: interpolation, spline evaluation, range control

    A shallow embedding of the numeric core of the chart engine
    ([useLivelineEngine] and the [draw/] helpers) together with the
    properties its specification states about it.

    Number model.  JavaScript numbers are read as real numbers: rounding is
    not modelled, so the results below are statements about the arithmetic
    law the code implements.  The non-finite values the code tests for or
    can produce ([NaN], the two infinities) are kept apart in [jsval]. *)

From Stdlib Require Import Reals Lra Lia List ZArith Bool Arith.
From Stdlib Require Import QArith Qreals Permutation Sorted.
From Equations Require Import Equations.
Import ListNotations.

Local Open Scope R_scope.

(* ===================================================================== *)
(** * Definitions *)
(* ===================================================================== *)

(** ** Numbers *)

Inductive jsval : Type :=
| Fin (r : R)
| PosInf
| NegInf
| NaN.

Definition isFinite (x : jsval) : bool :=
  match x with Fin _ => true | _ => false end.

(** [Math.min(max, Math.max(min, n))] *)
Definition clamp (n min max : R) : R := Rmin max (Rmax min n).

(** The same expression when [n] may be non-finite. *)
Definition js_clamp (n : jsval) (min max : R) : jsval :=
  match n with
  | Fin r => Fin (clamp r min max)
  | PosInf => Fin max
  | NegInf => Fin (Rmin max min)
  | NaN => NaN
  end.

Definition is_integer (e : R) : bool :=
  if Req_dec_T (IZR (Int_part e)) e then true else false.

(** [Math.pow] on finite arguments.  A negative base with a fractional
    exponent has no real power: JavaScript answers [NaN].  The base [0]
    is the positive zero (the only zero [1 - speed] can be). *)
Definition Math_pow (b e : R) : jsval :=
  if Req_dec_T e 0 then Fin 1
  else if Rlt_dec 0 b then Fin (Rpower b e)
  else if Req_dec_T b 0 then (if Rlt_dec 0 e then Fin 0 else PosInf)
  else if is_integer e
       then Fin ((if Z.even (Int_part e) then 1 else -1) * Rpower (- b) e)
       else NaN.

(** [1 - x] *)
Definition js_one_minus (x : jsval) : jsval :=
  match x with
  | Fin r => Fin (1 - r)
  | PosInf => NegInf
  | NegInf => PosInf
  | NaN => NaN
  end.

(** ** The exponential interpolation primitive *)

(** [[
function alphaLerp(from, to, speed, dtRatio) {
  const alpha = 1 - Math.pow(1 - speed, dtRatio);
  return from + (to - from) * clamp(alpha, 0, 1);
}
]] *)
Definition alphaLerp (from to speed dtRatio : R) : jsval :=
  let alpha := js_one_minus (Math_pow (1 - speed) dtRatio) in
  match js_clamp alpha 0 1 with
  | Fin a => Fin (from + (to - from) * a)
  | _ => NaN
  end.

(** Reference frame length in milliseconds: [ratio = dt / 16.6667]. *)
Definition REF_FRAME_MS : R := 166667 / 10000.

(** A scalar advanced by successive frames of the given durations toward a
    fixed target; a [NaN] step poisons the rest, as it does in the engine. *)
Fixpoint advanceTicks (cur target speed : R) (dts : list R) : jsval :=
  match dts with
  | [] => Fin cur
  | dt :: rest =>
      match alphaLerp cur target speed (dt / REF_FRAME_MS) with
      | Fin next => advanceTicks next target speed rest
      | _ => NaN
      end
  end.

Definition Rsum (l : list R) : R := fold_right Rplus 0 l.

(** ** Value convergence: adaptive speed (frame callback) *)

Definition VALUE_SNAP_THRESHOLD : R := 1 / 1000.

(** [const currentRange = Math.max(1e-6, curRangeMax - curRangeMin)] *)
Definition currentRange (curRangeMin curRangeMax : R) : R :=
  Rmax (1 / 1000000) (curRangeMax - curRangeMin).

(** [[
const valueGap = Math.abs(targetValue - curDisplay);
const gapRatio = clamp(valueGap / currentRange, 0, 1);
]] *)
Definition gapRatio (targetValue curDisplay curRangeMin curRangeMax : R) : R :=
  clamp (Rabs (targetValue - curDisplay) / currentRange curRangeMin curRangeMax)
        0 1.

(** [const adaptiveSpeed = clamp(lerpSpeed + (1 - gapRatio) * 0.2, 0.001, 0.8)] *)
Definition adaptiveSpeedAt (lerpSpeed g : R) : R :=
  clamp (lerpSpeed + (1 - g) * (2 / 10)) (1 / 1000) (8 / 10).

Definition adaptiveSpeed
  (lerpSpeed targetValue curDisplay curRangeMin curRangeMax : R) : R :=
  adaptiveSpeedAt lerpSpeed
    (gapRatio targetValue curDisplay curRangeMin curRangeMax).

(** [[
const pausedRatio = ratio * (1 - pauseProgress);
const alpha =
  pausedRatio <= 0 ? 0 : 1 - Math.pow(1 - adaptiveSpeed, pausedRatio);
]]
    as the script computes it ([frameAlpha_js]) and its value as a real
    ([frameAlpha]): the adaptive speed lies in [0.001, 0.8], so the base is
    positive and the power is the real power ([frameAlpha_js_real]). *)
Definition frameAlpha_js (speed pausedRatio : R) : jsval :=
  if Rle_dec pausedRatio 0 then Fin 0
  else js_one_minus (Math_pow (1 - speed) pausedRatio).

Definition frameAlpha (speed pausedRatio : R) : R :=
  if Rle_dec pausedRatio 0 then 0
  else 1 - Rpower (1 - speed) pausedRatio.

(** ** Packed sample buffers and the spline evaluator *)

(** The packed buffer [[t0, v0, t1, v1, ...]] of a [Float64Array].  A read
    past the end would be [undefined] in the script; every read below is
    at an index under [2 * count], and the properties assume the buffer
    holds that many numbers. *)
Definition ptT (buf : list R) (i : nat) : R := nth (2 * i) buf 0.
Definition ptV (buf : list R) (i : nat) : R := nth (2 * i + 1) buf 0.

(** [[
while (hi - lo > 1) {
  const mid = (lo + hi) >> 1;
  if (ptT(buf, mid) <= t) lo = mid;
  else hi = mid;
}
]] *)
Equations? findSegment (buf : list R) (t : R) (lo hi : nat) : nat * nat
  by wf (hi - lo)%nat lt :=
  findSegment buf t lo hi with le_lt_dec (hi - lo) 1 => {
    | left _ => (lo, hi)
    | right _ with Rle_dec (ptT buf (Nat.div2 (lo + hi))) t => {
        | left _ => findSegment buf t (Nat.div2 (lo + hi)) hi
        | right _ => findSegment buf t lo (Nat.div2 (lo + hi)) } }.
Proof.
  all: pose proof (Nat.div2_odd (lo + hi)) as E;
       destruct (Nat.odd (lo + hi)); cbn in E; lia.
Qed.

(** Secant slope of the segment to the left of [lo]. *)
Definition secantLeft (buf : list R) (lo : nat) (t0 v0 delta : R) : R :=
  if (0 <? lo)%nat then
    let hL := t0 - ptT buf (lo - 1) in
    if Rlt_dec 0 hL then (v0 - ptV buf (lo - 1)) / hL else delta
  else delta.

(** Secant slope of the segment to the right of [hi]. *)
Definition secantRight (buf : list R) (count hi : nat) (t1 v1 delta : R) : R :=
  if (hi <? count - 1)%nat then
    let hR := ptT buf (hi + 1) - t1 in
    if Rlt_dec 0 hR then (ptV buf (hi + 1) - v1) / hR else delta
  else delta.

(** Initial tangent: the segment's own secant at an end of the buffer,
    zero where the adjacent secants disagree in sign, their mean otherwise
    ([dOuter] is [deltaL] for the tangent at [lo], [deltaR] for the one at
    [hi]; product and sum are written in one order for both). *)
Definition initialTangent (atEnd : bool) (dOuter delta : R) : R :=
  if atEnd then delta
  else if Rle_dec (dOuter * delta) 0 then 0
  else (dOuter + delta) / 2.

(** Fritsch-Carlson constraint [alpha^2 + beta^2 <= 9]. *)
Definition fritschCarlson (delta m0 m1 : R) : R * R :=
  if Req_dec_T delta 0 then (0, 0)
  else
    let alpha := m0 / delta in
    let beta := m1 / delta in
    let s2 := alpha * alpha + beta * beta in
    if Rlt_dec 9 s2 then
      let s := 3 / sqrt s2 in
      (s * alpha * delta, s * beta * delta)
    else (m0, m1).

(** Hermite cubic basis evaluation. *)
Definition hermite (v0 v1 seg m0 m1 u : R) : R :=
  let u2 := u * u in
  let u3 := u2 * u in
  (2 * u3 - 3 * u2 + 1) * v0 +
  (u3 - 2 * u2 + u) * seg * m0 +
  (-2 * u3 + 3 * u2) * v1 +
  (u3 - u2) * seg * m1.

(** The body of [interpolateAtTime] once the segment [lo, hi] is known. *)
Definition evalSegment (buf : list R) (count lo hi : nat) (t : R) : R :=
  let t0 := ptT buf lo in
  let v0 := ptV buf lo in
  let t1 := ptT buf hi in
  let v1 := ptV buf hi in
  let seg := t1 - t0 in
  if Rle_dec seg 0 then v0
  else
    let delta := (v1 - v0) / seg in
    let deltaL := secantLeft buf lo t0 v0 delta in
    let deltaR := secantRight buf count hi t1 v1 delta in
    let m0 := initialTangent (lo =? 0)%nat deltaL delta in
    let m1 := initialTangent (hi =? count - 1)%nat deltaR delta in
    let m := fritschCarlson delta m0 m1 in
    hermite v0 v1 seg (fst m) (snd m) ((t - t0) / seg).

(** [interpolateAtTime(buf, count, t)] of [draw/crosshair.ts]. *)
Definition interpolateAtTime (buf : list R) (count : nat) (t : R) : R :=
  if (count =? 0)%nat then 0
  else if Rle_dec t (ptT buf 0) then ptV buf 0
  else if Rge_dec t (ptT buf (count - 1)) then ptV buf (count - 1)
  else
    let seg := findSegment buf t 0 (count - 1) in
    evalSegment buf count (fst seg) (snd seg) t.

(** Sample times strictly increase along the first [count] samples. *)
Definition strictlyIncreasing (buf : list R) (count : nat) : Prop :=
  forall i, (S i < count)%nat -> ptT buf i < ptT buf (S i).

(** ** Target range from the visible samples *)

Record RangeResult : Type := mkRange { range_min : R; range_max : R }.

(** [v < m] and [v > m] for a finite [v] against a running extreme that
    starts at an infinity. *)
Definition js_lt (v : R) (m : jsval) : bool :=
  match m with
  | Fin r => if Rlt_dec v r then true else false
  | PosInf => true
  | _ => false
  end.

Definition js_gt (v : R) (m : jsval) : bool :=
  match m with
  | Fin r => if Rlt_dec r v then true else false
  | NegInf => true
  | _ => false
  end.

(** Indices visited by [for (i = first; i <= safeEnd; i += 1)] with
    [safeEnd = Math.min(lastVisibleIndex, count - 1)].  The last index may
    be [-1] (nothing visible), so indices are integers. *)
Definition visibleIndices (count : nat) (first last : Z) : list Z :=
  let safeEnd := Z.min last (Z.of_nat count - 1) in
  map (fun k => (first + Z.of_nat k)%Z) (seq 0 (Z.to_nat (safeEnd - first + 1))).

Definition visibleValues (buf : list R) (count : nat) (first last : Z) : list R :=
  map (fun i => ptV buf (Z.to_nat i)) (visibleIndices count first last).

(** The scan [if (v < min) min = v; if (v > max) max = v;], started at
    [min = +Infinity], [max = -Infinity]. *)
Definition scanExtremes (vs : list R) : jsval * jsval :=
  fold_left
    (fun acc v =>
       (if js_lt v (fst acc) then Fin v else fst acc,
        if js_gt v (snd acc) then Fin v else snd acc))
    vs (PosInf, NegInf).

(** [min] and [max] as they stand when [rawRange] is taken: the extremes of
    the visible values (or [currentValue -+ 0.5] when the scan saw
    nothing), widened to hold [currentValue] and a finite
    [referenceValue]. *)
Definition dataExtent (buf : list R) (count : nat) (first last : Z)
    (currentValue : R) (referenceValue : jsval) : R * R :=
  let scanned := scanExtremes (visibleValues buf count first last) in
  let base :=
    match scanned with
    | (Fin mn, Fin mx) => (mn, mx)
    | _ => (currentValue - 5 / 10, currentValue + 5 / 10)
    end in
  let min1 := if Rlt_dec currentValue (fst base) then currentValue else fst base in
  let max1 := if Rlt_dec (snd base) currentValue then currentValue else snd base in
  match referenceValue with
  | Fin ref =>
      (if Rlt_dec ref min1 then ref else min1,
       if Rlt_dec max1 ref then ref else max1)
  | _ => (min1, max1)
  end.

(** Margin or minimum-span floor around [min, max]. *)
Definition widenRange (min max : R) (exaggerate : bool) : RangeResult :=
  let rawRange := max - min in
  let marginFactor := if exaggerate then 1 / 100 else 12 / 100 in
  let minRange :=
    Rmax (rawRange * (if exaggerate then 2 / 100 else 1 / 10))
         (if exaggerate then 4 / 100 else 4 / 10) in
  if Rlt_dec rawRange minRange then
    let mid := (min + max) / 2 in
    mkRange (mid - minRange / 2) (mid + minRange / 2)
  else
    mkRange (min - rawRange * marginFactor) (max + rawRange * marginFactor).

(** [computeRangeFromVisible]; the result record is returned instead of
    written into the [out] parameter. *)
Definition computeRangeFromVisible (buf : list R) (count : nat)
    (firstVisibleIndex lastVisibleIndex : Z)
    (currentValue : R) (referenceValue : jsval) (exaggerate : bool)
    : RangeResult :=
  let ext := dataExtent buf count firstVisibleIndex lastVisibleIndex
                        currentValue referenceValue in
  widenRange (fst ext) (snd ext) exaggerate.

(** Five samples of value 100 at times 0..4, and one sample of value 100. *)
Definition flatBuffer : list R := [0; 100; 1; 100; 2; 100; 3; 100; 4; 100].
Definition oneSampleBuffer : list R := [0; 100].

(** ** Value and range advance (frame callback, step 2) *)

(** [[
let nextDisplay = curDisplay + (targetValue - curDisplay) * alpha;
if (pauseProgress < 0.5 &&
    Math.abs(nextDisplay - targetValue) < currentRange * VALUE_SNAP_THRESHOLD) {
  nextDisplay = targetValue;
}
]] *)
Definition advanceDisplay
    (curDisplay targetValue alpha pauseProgress rng : R) : R :=
  let nextDisplay := curDisplay + (targetValue - curDisplay) * alpha in
  if Rlt_dec pauseProgress (5 / 10) then
    if Rlt_dec (Rabs (nextDisplay - targetValue)) (rng * VALUE_SNAP_THRESHOLD)
    then targetValue else nextDisplay
  else nextDisplay.

(** Outward snap of the lower bound, or the interpolation step:
    [[
rangeOut.min < curRangeMin && curRangeMin - rangeOut.min > snapThreshold
  ? rangeOut.min
  : curRangeMin + (rangeOut.min - curRangeMin) * alpha
    ]] *)
Definition snapOrLerpMin (curRangeMin targetMin snapThreshold alpha : R) : R :=
  if Rlt_dec targetMin curRangeMin then
    if Rlt_dec snapThreshold (curRangeMin - targetMin) then targetMin
    else curRangeMin + (targetMin - curRangeMin) * alpha
  else curRangeMin + (targetMin - curRangeMin) * alpha.

Definition snapOrLerpMax (curRangeMax targetMax snapThreshold alpha : R) : R :=
  if Rlt_dec curRangeMax targetMax then
    if Rlt_dec snapThreshold (targetMax - curRangeMax) then targetMax
    else curRangeMax + (targetMax - curRangeMax) * alpha
  else curRangeMax + (targetMax - curRangeMax) * alpha.

(** [[
const pxThreshold =
  innerHeight > 0 ? (0.5 * currentRange) / innerHeight : VALUE_SNAP_THRESHOLD;
const threshold =
  Number.isFinite(pxThreshold) && pxThreshold > 0
    ? pxThreshold : VALUE_SNAP_THRESHOLD;
]] *)
Definition settleThreshold (rng innerHeight : R) : R :=
  let pxThreshold :=
    if Rlt_dec 0 innerHeight then (5 / 10 * rng) / innerHeight
    else VALUE_SNAP_THRESHOLD in
  if Rlt_dec 0 pxThreshold then pxThreshold else VALUE_SNAP_THRESHOLD.

(** [if (Math.abs(next - target) < threshold) next = target;] *)
Definition settle (next target threshold : R) : R :=
  if Rlt_dec (Rabs (next - target)) threshold then target else next.

(** The single-series range advance; [inited] is [rangeInitedSV.value !== 0]. *)
Definition advanceRange (inited : bool) (curRangeMin curRangeMax : R)
    (rangeOut : RangeResult) (alpha innerHeight : R) : R * R :=
  if inited then
    let rng := currentRange curRangeMin curRangeMax in
    let snapThreshold := rng * (5 / 10) in
    let threshold := settleThreshold rng innerHeight in
    (settle (snapOrLerpMin curRangeMin (range_min rangeOut) snapThreshold alpha)
            (range_min rangeOut) threshold,
     settle (snapOrLerpMax curRangeMax (range_max rangeOut) snapThreshold alpha)
            (range_max rangeOut) threshold)
  else (range_min rangeOut, range_max rangeOut).

(** ** Candle width morph *)

Definition CANDLE_WIDTH_TRANS_MS : R := 300.

(** Cosine ease [(1 - Math.cos(t * Math.PI)) / 2]. *)
Definition cosineEase (t : R) : R := (1 - cos (t * PI)) / 2.

(** [Math.exp(Math.log(a) + (Math.log(b) - Math.log(a)) * t)]; candle widths
    are positive, where [Math.log] is the real logarithm. *)
Definition logLerp (a b t : R) : R := exp (ln a + (ln b - ln a) * t).

Record WidthMorph : Type := mkMorph {
  morphFrom : R;        (* candleWidthMorphFromSV *)
  morphTo : R;          (* candleWidthMorphToSV *)
  morphStart : R;       (* candleWidthMorphStartSV, 0 = no morph *)
  morphT : R;           (* candleWidthMorphTSV, -1 = no morph *)
  oldRangeMin : R;      (* candleWidthOldRangeMinSV *)
  oldRangeMax : R;
  newRangeMin : R;      (* candleWidthNewRangeMinSV *)
  newRangeMax : R
}.

(** A change of the requested width starts a morph from the width
    currently displayed and records the candle range as the old range. *)
Definition beginWidthMorph (m : WidthMorph)
    (cWidthSecs nowRawMs candleRangeMin candleRangeMax : R) : WidthMorph :=
  if Req_dec_T cWidthSecs (morphTo m) then m
  else
    mkMorph
      (if Rlt_dec 0 (morphStart m)
       then logLerp (morphFrom m) (morphTo m) (morphT m)
       else morphTo m)
      cWidthSecs nowRawMs 0 candleRangeMin candleRangeMax
      (newRangeMin m) (newRangeMax m).

(** One frame of the morph clock: the new state, the local [morphT] and
    the displayed candle width. *)
Definition stepWidthMorph (m : WidthMorph) (cWidthSecs nowRawMs : R)
    : WidthMorph * R * R :=
  if Rlt_dec 0 (morphStart m) then
    let elapsed := nowRawMs - morphStart m in
    let t := Rmin (elapsed / CANDLE_WIDTH_TRANS_MS) 1 in
    let eased := cosineEase t in
    if Rge_dec t 1 then
      (mkMorph (morphFrom m) (morphTo m) 0 (-1)
               (oldRangeMin m) (oldRangeMax m) (newRangeMin m) (newRangeMax m),
       -1, morphTo m)
    else
      (mkMorph (morphFrom m) (morphTo m) (morphStart m) eased
               (oldRangeMin m) (oldRangeMax m) (newRangeMin m) (newRangeMax m),
       eased, logLerp (morphFrom m) (morphTo m) eased)
  else (m, morphT m, cWidthSecs).

(** Range used for the candle paths: during a morph ([t >= 0]) the mix of
    the old-width range and the range [tr] computed for the new width
    ([None] when no candle is visible at the new width). *)
Definition morphCandleRange (m : WidthMorph) (t : R)
    (cRangeMin cRangeMax : R) (tr : option RangeResult)
    : WidthMorph * R * R :=
  if Rge_dec t 0 then
    let m' :=
      match tr with
      | Some r => mkMorph (morphFrom m) (morphTo m) (morphStart m) (morphT m)
                          (oldRangeMin m) (oldRangeMax m) (range_min r) (range_max r)
      | None => m
      end in
    (m',
     oldRangeMin m' + (newRangeMin m' - oldRangeMin m') * t,
     oldRangeMax m' + (newRangeMax m' - oldRangeMax m') * t)
  else (m, cRangeMin, cRangeMax).

(** ** Ingestion: [packPoints] *)

(** Numbers as they arrive from the caller.  A finite double is a rational;
    [JUndefined] is what [data[i]?.time] gives for a missing entry or
    field. *)
Inductive jsnumber : Type :=
| JFin (q : Q)
| JNaN
| JPosInf
| JNegInf
| JUndefined.


Record LivelinePoint : Type := mkPoint { time : jsnumber; value : jsnumber }.

(** [data[i]?.time] and [data[i]?.value]; [None] is a [null] or
    [undefined] array entry. *)
Definition entryTime (e : option LivelinePoint) : jsnumber :=
  match e with Some p => time p | None => JUndefined end.

Definition entryValue (e : option LivelinePoint) : jsnumber :=
  match e with Some p => value p | None => JUndefined end.

(** [[
for (let i = 0; i < data.length; i += 1) {
  const t = data[i]?.time;
  const v = data[i]?.value;
  if (!Number.isFinite(t) || !Number.isFinite(v)) continue;
  clean.push({ t, v });
}
]]
    The entries pushed hold two finite numbers. *)
Fixpoint cleanPoints (data : list (option LivelinePoint)) : list (Q * Q) :=
  match data with
  | [] => []
  | e :: rest =>
      match entryTime e, entryValue e with
      | JFin t, JFin v => (t, v) :: cleanPoints rest
      | _, _ => cleanPoints rest
      end
  end.

(** [clean.sort((a, b) => a.t - b.t)]: the sort is stable and the sign of
    the difference of two finite doubles is the sign of their exact
    difference.  [comparesAfter a b] is [a.t - b.t > 0]. *)
Definition comparesAfter (a b : Q * Q) : bool := negb (Qle_bool (fst a) (fst b)).

Fixpoint insertByTime (x : Q * Q) (l : list (Q * Q)) : list (Q * Q) :=
  match l with
  | [] => [x]
  | y :: rest =>
      if comparesAfter x y then y :: insertByTime x rest else x :: y :: rest
  end.

Fixpoint sortByTime (l : list (Q * Q)) : list (Q * Q) :=
  match l with
  | [] => []
  | x :: rest => insertByTime x (sortByTime rest)
  end.

Definition MAX_POINTS : nat := 1200.

(** [clean.length > 1200 ? clean.slice(clean.length - 1200) : clean] *)
Definition capPoints (clean : list (Q * Q)) : list (Q * Q) :=
  if (MAX_POINTS <? length clean)%nat
  then skipn (length clean - MAX_POINTS) clean
  else clean.

Fixpoint flattenPoints (l : list (Q * Q)) : list Q :=
  match l with
  | [] => []
  | (t, v) :: rest => t :: v :: flattenPoints rest
  end.

Record PackedPoints : Type := mkPacked { packed_buf : list Q; packed_count : nat }.

Definition cappedPoints (data : list (option LivelinePoint)) : list (Q * Q) :=
  capPoints (sortByTime (cleanPoints data)).

Definition packPoints (data : list (option LivelinePoint)) : PackedPoints :=
  let capped := cappedPoints data in
  mkPacked (flattenPoints capped) (length capped).

(** Order of two packed samples by time. *)
Definition timeLe (a b : Q * Q) : Prop := (fst a <= fst b)%Q.


(** ** The frame callback *)

(** The slice of [useFrameCallback] that reads or writes the displayed
    value and the Y-range, in source order.  What the callback computes
    before the snapshot from the clock, the layout and the gesture state
    (window, domain, visible indices, reveal and pause progress) enters as
    [FrameInput]; the path builders of [draw/] are recorded as effects
    carrying the value and range arguments they are called with. *)

Definition MAX_SERIES : nat := 8.
Definition SERIES_TOGGLE_SPEED : R := 1 / 10.
Definition CANDLE_RANGE_LERP_SPEED : R := 15 / 100.
Definition CANDLE_RANGE_ADAPTIVE_BOOST : R := 2 / 10.

(** [alphaLerp] where the engine passes a speed in (0,1): the result is
    finite ([lerpStep_finite]). *)
Definition lerpStep (from to speed dtRatio : R) : R :=
  match alphaLerp from to speed dtRatio with
  | Fin x => x
  | _ => from
  end.

Inductive valueSV : Type := DisplayValueSV | RangeMinSV | RangeMaxSV.

Inductive effect : Type :=
| RewindPaths                                   (* every path rewound *)
| ClearOverlays                                 (* empty state: opacities, shake *)
| WriteSV (sv : valueSV) (v : R)                (* [displayValueSV.value = ...] etc. *)
| SetDot (dotX dotY : R)
| GridSlots (rangeMin rangeMax rangeSpan : R)   (* updateGridSlots *)
| CrosshairState (rangeMin rangeSpan : R)       (* updateCrosshairState *)
| OrderbookLabels (swingMagnitude : R)          (* updateOrderbookLabels *)
| Particles (dotX dotY swingMagnitude : R)      (* updateParticlesAndShake *)
| CandlePaths (width cRangeMin cRangeSpan : R)  (* buildCandlePaths *)
| OldCandlePaths (oldWidth cRangeMin cRangeSpan : R)
| CandleHoverY (hoverY : R)
| SeriesPath (i : nat) (rangeMin rangeSpan liveX liveY : R)
| SeriesDot (i : nat) (dotX dotY : R)
| MultiCrosshair (rangeMin rangeSpan : R)       (* updateMultiCrosshairState *)
| LinePath (rangeMin rangeSpan liveX liveY : R) (* buildSmoothPathFromVisiblePoints *)
| FillPath (rangeMin rangeSpan liveX liveY : R)
| CurrentLine (y : R)
| ReferencePath (refY : R)
| ReferenceLabelY (y : R)
| Chevrons (baseX dotY : R)
| BadgePath (centerY : R).

Record SeriesInput : Type := mkSeries {
  ser_visible : list R;   (* values at the visible indices of the series *)
  ser_count : nat;        (* sCounts[i] *)
  ser_live : R;           (* live value of the series *)
  ser_hidden : bool       (* isHidden(i) *)
}.

Record SeriesSlot : Type := mkSlot {
  slot_active : bool;
  slot_alpha : R;
  slot_displayValue : R
}.

Record FrameInput : Type := mkInput {
  fi_width : R;  fi_height : R;
  fi_padLeft : R;  fi_padTop : R;  fi_padRight : R;  fi_padBottom : R;
  fi_labelReserve : R;
  fi_ratio : R;  fi_pauseProgress : R;  fi_chartReveal : R;  fi_nowRawMs : R;
  fi_pts : list R;                   (* pointsBufSV.value *)
  fi_firstVisible : Z;  fi_lastVisible : Z;
  fi_visStart : Z;  fi_visEnd : Z;
  fi_start : R;  fi_rightEdge : R;  fi_domainTarget : R;
  fi_isLiveNow : bool;  fi_lastClamped : Z;
  fi_lerpSpeed : R;  fi_exaggerate : bool;
  fi_reference : jsval;              (* referenceLine.value, NaN when absent *)
  fi_loadingY : R -> R;              (* loadingY(tipT, centerY, amplitude, scroll) *)
  fi_yLerp : R;
  fi_showGrid : bool;  fi_showFill : bool;  fi_showMomentum : bool;
  fi_showBadge : bool;  fi_crosshairActive : bool;
  fi_hasOrderbook : bool;  fi_degenEnabled : bool;
  fi_recentDelta : R;
  fi_isCandle : bool;
  fi_candleWidthSecs : R;
  fi_candleTarget : option RangeResult;     (* computeCandleRange(visibleCandles) *)
  fi_candleNewTarget : option RangeResult;  (* computeCandleRange(targetVis) *)
  fi_lineModeProg : R;
  fi_hoveredClose : option R;               (* candleAtX(...)?.close *)
  fi_hoverTime : R;
  fi_isMulti : bool;
  fi_series : list SeriesInput
}.

Record EngineState : Type := mkState {
  displayValueSV : R;
  rangeMinSV : R;
  rangeMaxSV : R;
  rangeInitedSV : bool;
  badgeYSV : R;
  candleRangeMinSV : R;
  candleRangeMaxSV : R;
  candleRangeInitedSV : bool;
  candleWidthMorph : WidthMorph;
  multiSeriesRangeInitedSV : bool;
  seriesSlotsSV : list SeriesSlot
}.

(** [[
const ptsCount = pts.length > 0 ? (pts.length - 1) / 2 : 0;
const liveValue = pts.length > 0 ? pts[ptsCount * 2] : 0;
]]
    (the buffer has an odd length whenever it is not empty). *)
Definition ptsCountOf (pts : list R) : nat := (length pts - 1) / 2.
Definition liveValueOf (pts : list R) : R := nth (2 * ptsCountOf pts) pts 0.

Definition innerWidthOf (inp : FrameInput) : R :=
  Rmax 1 (fi_width inp - fi_padLeft inp - fi_padRight inp - fi_labelReserve inp).
Definition innerHeightOf (inp : FrameInput) : R :=
  Rmax 1 (fi_height inp - fi_padTop inp - fi_padBottom inp).

(** [[
const targetValue = isLiveNow ? liveValue
  : lastClamped >= 0 ? ptV(pts, lastClamped) : liveValue;
]] *)
Definition targetValueOf (inp : FrameInput) : R :=
  if fi_isLiveNow inp then liveValueOf (fi_pts inp)
  else if (0 <=? fi_lastClamped inp)%Z
       then ptV (fi_pts inp) (Z.to_nat (fi_lastClamped inp))
       else liveValueOf (fi_pts inp).

Definition pausedRatioOf (inp : FrameInput) : R :=
  fi_ratio inp * (1 - fi_pauseProgress inp).

(** The next-frame values computed by step 2 (ADVANCE). *)
Record Advance : Type := mkAdvance {
  nextDisplay : R;
  nextRangeMin : R;
  nextRangeMax : R
}.

(** Steps 1 and 2: snapshot of the three shared values, then the
    next-frame values into locals. *)
Definition advanceValueRange (inp : FrameInput) (s : EngineState) : Advance :=
  let curDisplay := displayValueSV s in
  let curRangeMin := rangeMinSV s in
  let curRangeMax := rangeMaxSV s in
  let rng := currentRange curRangeMin curRangeMax in
  let targetValue := targetValueOf inp in
  let speed := adaptiveSpeed (fi_lerpSpeed inp) targetValue curDisplay
                             curRangeMin curRangeMax in
  let alpha := frameAlpha speed (pausedRatioOf inp) in
  let rangeOut :=
    computeRangeFromVisible (fi_pts inp) (ptsCountOf (fi_pts inp))
      (fi_firstVisible inp) (fi_lastVisible inp)
      curDisplay (fi_reference inp) (fi_exaggerate inp) in
  let next := advanceRange (rangeInitedSV s) curRangeMin curRangeMax rangeOut
                           alpha (innerHeightOf inp) in
  mkAdvance
    (advanceDisplay curDisplay targetValue alpha (fi_pauseProgress inp) rng)
    (fst next) (snd next).

(** *** Candle pipeline *)

(** Candle range, advanced in place before the candle paths are built. *)
Definition advanceCandleRange (inited : bool) (curMin curMax : R)
    (target : option RangeResult) (ratio : R) : R * R * bool :=
  match target with
  | None => (curMin, curMax, inited)
  | Some candleRange =>
      if inited then
        let curRange := curMax - curMin in
        let gapMin := Rabs (range_min candleRange - curMin) in
        let gapMax := Rabs (range_max candleRange - curMax) in
        let maxGap := Rmax gapMin gapMax in
        let gapRat := if Rlt_dec 0 curRange then maxGap / curRange else 1 in
        let speed := CANDLE_RANGE_LERP_SPEED
                     + (1 - Rmin gapRat 1) * CANDLE_RANGE_ADAPTIVE_BOOST in
        (lerpStep curMin (range_min candleRange) speed ratio,
         lerpStep curMax (range_max candleRange) speed ratio, true)
      else (range_min candleRange, range_max candleRange, true)
  end.

Record CandleResult : Type := mkCandleResult {
  cr_effects : list effect;
  cr_rangeMin : R;  cr_rangeMax : R;  cr_inited : bool;
  cr_morph : WidthMorph
}.

Definition candlePipeline (inp : FrameInput) (s : EngineState)
    (rangeMin rangeSpan : R) : CandleResult :=
  if fi_isCandle inp then
    let m0 := beginWidthMorph (candleWidthMorph s) (fi_candleWidthSecs inp)
                (fi_nowRawMs inp) (candleRangeMinSV s) (candleRangeMaxSV s) in
    let step := stepWidthMorph m0 (fi_candleWidthSecs inp) (fi_nowRawMs inp) in
    let m1 := fst (fst step) in
    let morphT := snd (fst step) in
    let displayCandleWidth := snd step in
    let adv := advanceCandleRange (candleRangeInitedSV s) (candleRangeMinSV s)
                 (candleRangeMaxSV s) (fi_candleTarget inp) (fi_ratio inp) in
    let candleMin := fst (fst adv) in
    let candleMax := snd (fst adv) in
    let shown := morphCandleRange m1 morphT candleMin candleMax
                   (fi_candleNewTarget inp) in
    let m2 := fst (fst shown) in
    let cRangeMin := snd (fst shown) in
    let cRangeMax := snd shown in
    let cRangeSpan := Rmax (1 / 1000000) (cRangeMax - cRangeMin) in
    let hover :=
      if fi_crosshairActive inp then
        match fi_candleTarget inp, fi_hoveredClose inp with
        | Some _, Some close =>
            let isLineModeCrosshair :=
              if Rlt_dec (5 / 10) (fi_lineModeProg inp) then true else false in
            let lineModeValue :=
              interpolateAtTime (fi_pts inp) (ptsCountOf (fi_pts inp))
                                (fi_hoverTime inp) in
            let crosshairValue := if isLineModeCrosshair then lineModeValue else close in
            let crosshairMin := if isLineModeCrosshair then rangeMin else cRangeMin in
            let crosshairSpan :=
              if isLineModeCrosshair then Rmax rangeSpan (1 / 1000000) else cRangeSpan in
            [CandleHoverY (fi_padTop inp
               + (1 - (crosshairValue - crosshairMin) / crosshairSpan)
                 * innerHeightOf inp)]
        | _, _ => []
        end
      else [] in
    mkCandleResult
      ([CandlePaths displayCandleWidth cRangeMin cRangeSpan]
       ++ (if Rge_dec morphT 0
           then [OldCandlePaths (morphFrom m2) cRangeMin cRangeSpan] else [])
       ++ hover)
      candleMin candleMax (snd adv) m2
  else
    mkCandleResult [] (candleRangeMinSV s) (candleRangeMaxSV s) false
                   (candleWidthMorph s).

(** *** Multi-series pipeline *)

(** Visibility and displayed value of each slot, advanced in place; the
    series list is already cut to [MAX_SERIES]. *)
Fixpoint advanceSlots (slots : list SeriesSlot) (series : list SeriesInput)
    (speed pausedRatio ratio : R) : list SeriesSlot :=
  match slots with
  | [] => []
  | slot :: restSlots =>
      match series with
      | [] =>
          let a := lerpStep (slot_alpha slot) 0 SERIES_TOGGLE_SPEED ratio in
          mkSlot false (if Rlt_dec a (1 / 100) then 0 else a) (slot_displayValue slot)
          :: advanceSlots restSlots [] speed pausedRatio ratio
      | ser :: restSeries =>
          let targetAlpha := if ser_hidden ser then 0 else 1 in
          let a := lerpStep (slot_alpha slot) targetAlpha SERIES_TOGGLE_SPEED ratio in
          let a1 := if Rlt_dec a (1 / 100) then 0 else a in
          let a2 := if Rlt_dec (99 / 100) a1 then 1 else a1 in
          let liveVal := ser_live ser in
          let display :=
            if Req_dec_T (slot_displayValue slot) 0 then
              if Req_dec_T liveVal 0
              then lerpStep (slot_displayValue slot) liveVal speed pausedRatio
              else liveVal
            else lerpStep (slot_displayValue slot) liveVal speed pausedRatio in
          mkSlot true a2 display
          :: advanceSlots restSlots restSeries speed pausedRatio ratio
      end
  end.

(** Values scanned for the shared range: the visible values and the
    displayed value of every series that is shown and not empty. *)
Fixpoint multiScanValues (slots : list SeriesSlot) (series : list SeriesInput)
    : list R :=
  match slots, series with
  | slot :: restSlots, ser :: restSeries =>
      (if Rlt_dec (slot_alpha slot) (1 / 100) then []
       else if (ser_count ser =? 0)%nat then []
       else ser_visible ser ++ [slot_displayValue slot])
      ++ multiScanValues restSlots restSeries
  | _, _ => []
  end.

Definition multiTargetRange (slots : list SeriesSlot) (series : list SeriesInput)
    (exaggerate : bool) : RangeResult :=
  match scanExtremes (multiScanValues slots series) with
  | (Fin mn, Fin mx) => widenRange mn mx exaggerate
  | _ => widenRange 0 1 exaggerate
  end.

(** Per-series path and dot, for slots [i, i+1, ...]. *)
Fixpoint seriesEffects (i : nat) (slots : list SeriesSlot)
    (series : list SeriesInput) (inp : FrameInput)
    (rangeMin rangeSpan seriesLiveX : R) : list effect :=
  match slots, series with
  | slot :: restSlots, ser :: restSeries =>
      (if Rlt_dec (slot_alpha slot) (1 / 100) then []
       else if (ser_count ser =? 0)%nat then []
       else
         let seriesLiveY :=
           fi_padTop inp
           + (1 - (slot_displayValue slot - rangeMin) / Rmax rangeSpan (1 / 1000000))
             * innerHeightOf inp in
         let dotX :=
           if Rlt_dec (fi_chartReveal inp) 1
           then seriesLiveX
                + (fi_padLeft inp + innerWidthOf inp - seriesLiveX)
                  * (1 - fi_chartReveal inp)
           else seriesLiveX in
         let clampedSeriesY :=
           clamp seriesLiveY (fi_padTop inp) (fi_padTop inp + innerHeightOf inp) in
         let dotY :=
           if Rge_dec (fi_chartReveal inp) 1 then clampedSeriesY
           else
             let tipT := clamp ((dotX - fi_padLeft inp)
                                / Rmax (innerWidthOf inp) (1 / 1000000)) 0 1 in
             let baseY := fi_loadingY inp tipT in
             baseY + (clampedSeriesY - baseY) * fi_chartReveal inp in
         [SeriesPath i rangeMin rangeSpan seriesLiveX seriesLiveY;
          SeriesDot i dotX dotY])
      ++ seriesEffects (S i) restSlots restSeries inp rangeMin rangeSpan seriesLiveX
  | _, _ => []
  end.

Record MultiResult : Type := mkMultiResult {
  mr_effects : list effect;
  mr_next : Advance;
  mr_inited : bool;
  mr_slots : list SeriesSlot
}.

Definition multiPipeline (inp : FrameInput) (s : EngineState) (adv : Advance)
    (curRangeMin curRangeMax rangeMin rangeSpan liveX : R) : MultiResult :=
  if fi_isMulti inp then
    let series := firstn MAX_SERIES (fi_series inp) in
    let speed := adaptiveSpeed (fi_lerpSpeed inp) (targetValueOf inp)
                   (displayValueSV s) curRangeMin curRangeMax in
    let alpha := frameAlpha speed (pausedRatioOf inp) in
    let slots := advanceSlots (seriesSlotsSV s) series speed
                   (pausedRatioOf inp) (fi_ratio inp) in
    let target := multiTargetRange slots series (fi_exaggerate inp) in
    let next :=
      if multiSeriesRangeInitedSV s then
        let snapTh := Rmax (1 / 1000000) (curRangeMax - curRangeMin) * (5 / 10) in
        (snapOrLerpMin curRangeMin (range_min target) snapTh alpha,
         snapOrLerpMax curRangeMax (range_max target) snapTh alpha)
      else (range_min target, range_max target) in
    mkMultiResult
      (seriesEffects 0 slots series inp rangeMin rangeSpan liveX
       ++ (if fi_crosshairActive inp then [MultiCrosshair rangeMin rangeSpan] else []))
      (mkAdvance (nextDisplay adv) (fst next) (snd next))
      true slots
  else
    mkMultiResult [] adv false (seriesSlotsSV s).

(** *** Render and commit *)

(** Locals of step 3, all taken from the snapshot. *)
Definition rangeSpanOf (s : EngineState) : R :=
  Rmax (1 / 1000000) (rangeMaxSV s - rangeMinSV s).

Definition liveXOf (inp : FrameInput) : R :=
  let spanX := Rmax (1 / 1000000) (fi_rightEdge inp - fi_start inp) in
  fi_padLeft inp
  + ((fi_domainTarget inp - fi_start inp) / spanX) * innerWidthOf inp.

Definition liveYOf (inp : FrameInput) (s : EngineState) : R :=
  fi_padTop inp
  + (1 - (displayValueSV s - rangeMinSV s) / Rmax (rangeSpanOf s) (1 / 1000000))
    * innerHeightOf inp.

Definition clampedLiveYOf (inp : FrameInput) (s : EngineState) : R :=
  clamp (liveYOf inp s) (fi_padTop inp) (fi_padTop inp + innerHeightOf inp).

Definition dotXOf (inp : FrameInput) : R :=
  if Rlt_dec (fi_chartReveal inp) 1
  then liveXOf inp
       + (fi_padLeft inp + innerWidthOf inp - liveXOf inp) * (1 - fi_chartReveal inp)
  else liveXOf inp.

Definition dotYOf (inp : FrameInput) (s : EngineState) : R :=
  if Rge_dec (fi_chartReveal inp) 1 then clampedLiveYOf inp s
  else
    let tipT := clamp ((dotXOf inp - fi_padLeft inp)
                       / Rmax (innerWidthOf inp) (1 / 1000000)) 0 1 in
    let baseY := fi_loadingY inp tipT in
    baseY + (clampedLiveYOf inp s - baseY) * fi_chartReveal inp.

(** Steps 3 and 4 (RENDER, COMMIT).  The next-frame values [adv] of step 2
    are in scope throughout, as the locals [nextDisplay], [nextRangeMin]
    and [nextRangeMax] are in the script. *)
Definition renderAndCommit (inp : FrameInput) (s : EngineState)
    (adv : Advance) (rangeInited : bool) : list effect * EngineState :=
  let curDisplay := displayValueSV s in
  let curRangeMin := rangeMinSV s in
  let curRangeMax := rangeMaxSV s in
  let rangeMin := curRangeMin in
  let rangeMax := curRangeMax in
  let rangeSpan := Rmax (1 / 1000000) (rangeMax - rangeMin) in
  let innerWidth := innerWidthOf inp in
  let innerHeight := innerHeightOf inp in
  let liveX := liveXOf inp in
  let liveY := liveYOf inp s in
  let clampedLiveY := clampedLiveYOf inp s in
  let dotX := dotXOf inp in
  let dotY := dotYOf inp s in
  let targetBadgeY :=
    clamp dotY (fi_padTop inp) (fi_height inp - fi_padBottom inp) in
  let badgeY :=
    if Rlt_dec (badgeYSV s) 0 then targetBadgeY
    else badgeYSV s
         + (targetBadgeY - badgeYSV s) * clamp (fi_yLerp inp * fi_ratio inp) 0 1 in
  let swingMagnitude :=
    if Rlt_dec 0 rangeSpan then clamp (fi_recentDelta inp / rangeSpan) 0 1 else 0 in
  let candle := candlePipeline inp s rangeMin rangeSpan in
  let multi := multiPipeline inp s adv curRangeMin curRangeMax
                             rangeMin rangeSpan liveX in
  let next := mr_next multi in
  let render :=
    [SetDot dotX dotY]
    ++ (if fi_showGrid inp then [GridSlots rangeMin rangeMax rangeSpan] else [])
    ++ (if negb (fi_isCandle inp) && fi_crosshairActive inp
        then [CrosshairState rangeMin rangeSpan] else [])
    ++ (if fi_hasOrderbook inp then [OrderbookLabels swingMagnitude] else [])
    ++ (if fi_degenEnabled inp
        then if Rlt_dec (9 / 10) (fi_chartReveal inp)
             then [Particles dotX dotY swingMagnitude] else []
        else [])
    ++ cr_effects candle
    ++ mr_effects multi
    ++ [LinePath rangeMin rangeSpan liveX liveY]
    ++ (if fi_showFill inp then [FillPath rangeMin rangeSpan liveX liveY] else [])
    ++ (if Rlt_dec 0 innerWidth
        then if Rlt_dec 0 innerHeight then [CurrentLine clampedLiveY] else []
        else [])
    ++ (match fi_reference inp with
        | Fin ref =>
            let refY := fi_padTop inp
                        + (1 - (ref - rangeMin) / rangeSpan) * innerHeight in
            [ReferencePath refY; ReferenceLabelY (refY + 4)]
        | _ => [ReferenceLabelY (-1000)]
        end)
    ++ (if fi_showMomentum inp && negb (fi_isCandle inp)
        then [Chevrons (dotX + 19) dotY] else [])
    ++ (if fi_showBadge inp
        then [BadgePath (if Rlt_dec 0 badgeY then badgeY else dotY)] else []) in
  (render
   ++ [WriteSV DisplayValueSV (nextDisplay next);
       WriteSV RangeMinSV (nextRangeMin next);
       WriteSV RangeMaxSV (nextRangeMax next)],
   mkState (nextDisplay next) (nextRangeMin next) (nextRangeMax next)
           rangeInited badgeY
           (cr_rangeMin candle) (cr_rangeMax candle) (cr_inited candle)
           (cr_morph candle)
           (mr_inited multi) (mr_slots multi)).

(** One invocation of the frame callback. *)
Definition frameCallback (inp : FrameInput) (s : EngineState)
    : list effect * EngineState :=
  if Rle_dec (fi_width inp) 0 then ([RewindPaths], s)
  else if Rle_dec (fi_height inp) 0 then ([RewindPaths], s)
  else if (ptsCountOf (fi_pts inp) =? 0)%nat then ([ClearOverlays; RewindPaths], s)
  else renderAndCommit inp s (advanceValueRange inp s) true.

(** Effects other than the commit of the three shared values. *)
Definition isCommit (e : effect) : bool :=
  match e with WriteSV _ _ => true | _ => false end.

(** The effects of a tick up to its commit. *)
Definition renderPart (effects : list effect) : list effect :=
  filter (fun e => negb (isCommit e)) effects.

(** The Y-range (minimum and span) an effect of the line, grid,
    crosshair or series layers is built with. *)
Definition rangeArgs (e : effect) : option (R * R) :=
  match e with
  | GridSlots lo _ span => Some (lo, span)
  | CrosshairState lo span => Some (lo, span)
  | SeriesPath _ lo span _ _ => Some (lo, span)
  | MultiCrosshair lo span => Some (lo, span)
  | LinePath lo span _ _ => Some (lo, span)
  | FillPath lo span _ _ => Some (lo, span)
  | _ => None
  end.

Definition builtWithRange (lo span : R) (e : effect) : Prop :=
  match rangeArgs e with
  | Some (lo', span') => lo' = lo /\ span' = span
  | None => True
  end.

(** A frame input over the three-sample buffer with live value 2 on a
    300 x 200 layout, and the state after engine creation with value 2. *)
Definition sampleInput : FrameInput :=
  mkInput 300 200 10 10 10 10 0
          1 0 1 1000
          [0; 1; 1; 3; 2; 2; 2]
          0 2 0 2
          0 3 2
          true 2
          (8 / 100) false NaN
          (fun _ => 100) (35 / 100)
          true true false false false false false
          0
          false 60 None None 0 None 0
          false [].


(** Input with two unusable entries around three finite samples given out
    of order, and an input with no usable entry. *)
Definition mixedData : list (option LivelinePoint) :=
  [Some (mkPoint (JFin 2) (JFin 5)); Some (mkPoint JNaN (JFin 1)); None;
   Some (mkPoint (JFin 1) (JFin 4)); Some (mkPoint (JFin 3) JPosInf);
   Some (mkPoint (JFin 0) (JFin 7))]%Q.

Definition unusableData : list (option LivelinePoint) :=
  [Some (mkPoint JNaN (JFin 1)); None; Some (mkPoint (JFin 3) JNegInf)]%Q.



(** Three samples [(0,1), (1,3), (2,2)], packed. *)
Definition sampleBuffer : list R := [0; 1; 1; 3; 2; 2].

(** ** Index searches over the packed buffer *)

(** [[
while (lo <= hi) {
  const mid = (lo + hi) >> 1;
  if (ptT(buf, mid) >= t) { ans = mid; hi = mid - 1; }
  else { lo = mid + 1; }
}
]]
    [hi] can reach [-1], so the indices are integers. *)
Equations? firstAtOrAfterLoop (buf : list R) (t : R) (lo hi ans : Z) : Z
  by wf (Z.to_nat (hi - lo + 1)) lt :=
  firstAtOrAfterLoop buf t lo hi ans with Z_le_gt_dec lo hi => {
    | right _ => ans
    | left _ with Rge_dec (ptT buf (Z.to_nat (Z.shiftr (lo + hi) 1))) t => {
        | left _ =>
            firstAtOrAfterLoop buf t lo (Z.shiftr (lo + hi) 1 - 1)
                               (Z.shiftr (lo + hi) 1)
        | right _ =>
            firstAtOrAfterLoop buf t (Z.shiftr (lo + hi) 1 + 1) hi ans } }.
Proof.
  all: rewrite Z.shiftr_div_pow2 by lia; change (2 ^ 1)%Z with 2%Z;
       pose proof (Z.div_mod (lo + hi) 2 ltac:(lia));
       pose proof (Z.mod_pos_bound (lo + hi) 2 ltac:(lia)); lia.
Qed.

(** [findFirstPointIndexAtOrAfter(buf, count, t)] *)
Definition findFirstPointIndexAtOrAfter (buf : list R) (count : nat) (t : R) : Z :=
  if (count =? 0)%nat then 0%Z
  else
    let ans := firstAtOrAfterLoop buf t 0 (Z.of_nat count - 1) (Z.of_nat count) in
    if (ans =? Z.of_nat count)%Z then (Z.of_nat count - 1)%Z else ans.

(** [[
while (lo <= hi) {
  const mid = (lo + hi) >> 1;
  if (ptT(buf, mid) <= t) { ans = mid; lo = mid + 1; }
  else { hi = mid - 1; }
}
]] *)
Equations? lastAtOrBeforeLoop (buf : list R) (t : R) (lo hi ans : Z) : Z
  by wf (Z.to_nat (hi - lo + 1)) lt :=
  lastAtOrBeforeLoop buf t lo hi ans with Z_le_gt_dec lo hi => {
    | right _ => ans
    | left _ with Rle_dec (ptT buf (Z.to_nat (Z.shiftr (lo + hi) 1))) t => {
        | left _ =>
            lastAtOrBeforeLoop buf t (Z.shiftr (lo + hi) 1 + 1) hi
                               (Z.shiftr (lo + hi) 1)
        | right _ =>
            lastAtOrBeforeLoop buf t lo (Z.shiftr (lo + hi) 1 - 1) ans } }.
Proof.
  all: rewrite Z.shiftr_div_pow2 by lia; change (2 ^ 1)%Z with 2%Z;
       pose proof (Z.div_mod (lo + hi) 2 ltac:(lia));
       pose proof (Z.mod_pos_bound (lo + hi) 2 ltac:(lia)); lia.
Qed.

(** [findLastPointIndexAtOrBefore(buf, count, t)] *)
Definition findLastPointIndexAtOrBefore (buf : list R) (count : nat) (t : R) : Z :=
  if (count =? 0)%nat then (-1)%Z
  else lastAtOrBeforeLoop buf t 0 (Z.of_nat count - 1) (-1).

(** [clampIndex(n, min, max)] is [Math.min(max, Math.max(min, n))]. *)
Definition clampIndex (n min max : Z) : Z := Z.min max (Z.max min n).

(** Sample times do not decrease along the first [count] samples, as
    [packPoints] leaves them. *)
Definition sortedTimes (buf : list R) (count : nat) : Prop :=
  forall i j, (i <= j)%nat -> (j < count)%nat -> ptT buf i <= ptT buf j.

(** [[
function estimateStepSecs(buf, count) {
  if (count < 2) return 0;
  for (let i = count - 1; i >= 1; i -= 1) {
    const dt = ptT(buf, i) - ptT(buf, i - 1);
    if (dt > 0) return dt;
  }
  return 0;
}
]]
    [lastPositiveGap buf i] is the loop entered with index [i]. *)
Fixpoint lastPositiveGap (buf : list R) (i : nat) : R :=
  match i with
  | O => 0
  | S k =>
      let dt := ptT buf (S k) - ptT buf k in
      if Rlt_dec 0 dt then dt else lastPositiveGap buf k
  end.

Definition estimateStepSecs (buf : list R) (count : nat) : R :=
  if (count <? 2)%nat then 0 else lastPositiveGap buf (count - 1).

(** ** Momentum, window buffer, time interval *)

Inductive Momentum : Type := MomentumUp | MomentumDown | MomentumFlat.

(** Values of the samples [start, start+1, ..., start+n-1]. *)
Definition valuesFrom (buf : list R) (start n : nat) : list R :=
  map (fun k => ptV buf (start + k)) (seq 0 n).

(** [detectMomentumFromPoints(buf, count, lookback)].  When the scan loop
    sees no sample ([lookback] is 0, so [start = count]) [min] and [max]
    keep their infinities: [range] and [threshold] are [-Infinity],
    [tailStart] is [count] and [first] is [buf[2 * count + 1]].  If the
    buffer reaches that far [delta] is a number and [delta > threshold]
    answers "up"; otherwise [first] is [undefined], [delta] is [NaN], no
    comparison holds and the answer is "flat". *)
Definition detectMomentumFromPoints (buf : list R) (count lookback : nat)
    : Momentum :=
  if (count <? 5)%nat then MomentumFlat
  else
    let start := (count - lookback)%nat in       (* Math.max(0, count - lookback) *)
    let tailStart := Nat.max start (count - 5) in
    match scanExtremes (valuesFrom buf start (count - start)) with
    | (Fin mn, Fin mx) =>
        let range := mx - mn in
        if Req_dec_T range 0 then MomentumFlat
        else
          let first := ptV buf tailStart in
          let last := ptV buf (count - 1) in
          let delta := last - first in
          let threshold := range * (12 / 100) in
          if Rlt_dec threshold delta then MomentumUp
          else if Rlt_dec delta (- threshold) then MomentumDown
          else MomentumFlat
    | _ =>
        if (2 * tailStart + 1 <? length buf)%nat then MomentumUp
        else MomentumFlat
    end.

Definition WINDOW_BUFFER : R := 5 / 100.
Definition ARROW_BUFFER_PX : R := 37.

(** [resolveWindowBuffer(chartWidth, needsArrowRoom)] *)
Definition resolveWindowBuffer (chartWidth : R) (needsArrowRoom : bool) : R :=
  if needsArrowRoom
  then Rmax WINDOW_BUFFER (ARROW_BUFFER_PX / Rmax chartWidth 1)
  else WINDOW_BUFFER.

(** [niceTimeInterval(windowSecs)] *)
Definition niceTimeInterval (windowSecs : R) : R :=
  if Rle_dec windowSecs 15 then 2
  else if Rle_dec windowSecs 30 then 5
  else if Rle_dec windowSecs 60 then 10
  else if Rle_dec windowSecs 120 then 15
  else if Rle_dec windowSecs 300 then 30
  else if Rle_dec windowSecs 600 then 60
  else if Rle_dec windowSecs 1800 then 300
  else if Rle_dec windowSecs 3600 then 600
  else if Rle_dec windowSecs 14400 then 1800
  else if Rle_dec windowSecs 43200 then 3600
  else if Rle_dec windowSecs 86400 then 7200
  else if Rle_dec windowSecs 604800 then 86400
  else 604800.

(** A retained sample as the caller would hand it in again. *)
Definition asInputPoint (p : Q * Q) : option LivelinePoint :=
  Some (mkPoint (JFin (fst p)) (JFin (snd p))).

(** A two-series input: the second series is hidden. *)
Definition multiInput : FrameInput :=
  mkInput 300 200 10 10 10 10 0
          1 0 1 1000
          [0; 1; 1; 3; 2; 2; 2]
          0 2 0 2
          0 3 2
          true 2
          (8 / 100) false NaN
          (fun _ => 100) (35 / 100)
          true true false false false false false
          0
          false 60 None None 0 None 0
          true [mkSeries [1; 3; 2] 3 2 false; mkSeries [5; 4] 2 4 true].

Definition multiState : EngineState :=
  mkState 2 (2 - 5 / 10) (2 + 5 / 10) true (-1)
          0 0 false (mkMorph 60 60 0 (-1) 0 0 0 0)
          true [mkSlot true 1 2; mkSlot true (5 / 1000) 4; mkSlot false 0 0].

(** ** Crosshair ([draw/crosshair.ts]) *)

(** [interpolateSeriesAtTime(buf, count, t)]: linear interpolation between
    the two samples around [t]; the search loop is the one of
    [interpolateAtTime]. *)
Definition interpolateSeriesAtTime (buf : list R) (count : nat) (t : R) : R :=
  if (count =? 0)%nat then 0
  else
    let firstT := ptT buf 0 in
    let firstV := ptV buf 0 in
    let lastT := ptT buf (count - 1) in
    let lastV := ptV buf (count - 1) in
    if Rle_dec t firstT then firstV
    else if Rge_dec t lastT then lastV
    else
      let seg := findSegment buf t 0 (count - 1) in
      let t0 := ptT buf (fst seg) in
      let v0 := ptV buf (fst seg) in
      let t1 := ptT buf (snd seg) in
      let v1 := ptV buf (snd seg) in
      let segLen := t1 - t0 in
      if Rle_dec segLen 0 then v0
      else
        let u := (t - t0) / segLen in
        v0 + (v1 - v0) * u.

Definition CROSSHAIR_FADE_MIN_PX : R := 5.

(** The numbers [updateCrosshairState] writes into [out]; the cached
    texts are left out. *)
Record CrosshairResult : Type := mkCrosshair {
  ch_hx : R;  ch_hy : R;  ch_ht : R;  ch_hv : R;  ch_opacity : R
}.

Definition updateCrosshairState (hoverX : R) (buf : list R) (count : nat)
    (start windowSecsNow rangeMin rangeSpan paddingLeft paddingTop
     innerWidth innerHeight dotX scrubAmount : R) : CrosshairResult :=
  let hx := clamp hoverX paddingLeft (paddingLeft + innerWidth) in
  let ht := start + ((hx - paddingLeft) / innerWidth) * windowSecsNow in
  let hv := interpolateAtTime buf count ht in
  let hy := paddingTop
            + (1 - (hv - rangeMin) / Rmax rangeSpan (1 / 1000000)) * innerHeight in
  let distToLive := dotX - hx in
  let fadeStart := Rmin 80 (innerWidth * (3 / 10)) in
  let scrubOpacity :=
    if Rlt_dec distToLive CROSSHAIR_FADE_MIN_PX then 0
    else if Rge_dec distToLive fadeStart then scrubAmount
    else ((distToLive - CROSSHAIR_FADE_MIN_PX)
          / Rmax (1 / 1000000) (fadeStart - CROSSHAIR_FADE_MIN_PX))
         * scrubAmount in
  mkCrosshair hx hy ht hv (clamp scrubOpacity 0 1).

(** ** Loading shape ([draw/loadingShape.ts]) *)

Definition loadingY (t centerY amplitude scroll : R) : R :=
  centerY
  + amplitude
    * (sin (t * (94 / 10) + scroll) * (55 / 100)
       + sin (t * (157 / 10) + scroll * (13 / 10)) * (3 / 10)
       + sin (t * (42 / 10) + scroll * (7 / 10)) * (15 / 100)).

Definition loadingBreath (nowMs : R) : R :=
  22 / 100 + 8 / 100 * sin (nowMs / 1200 * PI).

(** ** Line path ([draw/line.ts]) *)

Definition EPS : R := 1 / 1000000.

(** The calls made on the [SkPath]. *)
Inductive pathCmd : Type :=
| MoveTo (x y : R)
| LineTo (x y : R)
| CubicTo (c1x c1y c2x c2y x y : R).

(** Arguments of [buildSmoothPathFromVisiblePoints], the path and the
    scratch buffer apart. *)
Record LineInput : Type := mkLineInput {
  li_pointsBuf : list R;  li_pointsCount : nat;
  li_firstVisibleIndex : Z;  li_lastVisibleIndex : Z;
  li_start : R;  li_span : R;
  li_chartWidth : R;  li_chartHeight : R;
  li_rangeMin : R;  li_rangeSpan : R;
  li_paddingLeft : R;  li_paddingTop : R;
  li_liveX : R;  li_liveY : R;
  li_chartReveal : R;
  li_centerY : R;  li_loadingAmplitude : R;  li_loadingScroll : R;
  li_continuePath : bool
}.

Definition maxIndexOf (a : LineInput) : Z := Z.of_nat (li_pointsCount a) - 1.
Definition safeFirstOf (a : LineInput) : Z :=
  clampIndex (li_firstVisibleIndex a) 0 (maxIndexOf a).
Definition safeLastOf (a : LineInput) : Z :=
  clampIndex (li_lastVisibleIndex a) (-1) (maxIndexOf a).

(** [safeFirst <= safeLast ? safeLast - safeFirst + 1 : 0] *)
Definition visibleCountOf (a : LineInput) : Z :=
  if (safeFirstOf a <=? safeLastOf a)%Z
  then (safeLastOf a - safeFirstOf a + 1)%Z else 0%Z.

Definition tipXOf (a : LineInput) : R :=
  let chartRight := li_paddingLeft a + li_chartWidth a in
  if Rlt_dec (li_chartReveal a) 1
  then li_liveX a + (chartRight - li_liveX a) * (1 - li_chartReveal a)
  else li_liveX a.

Definition morphY (a : LineInput) (rawY x : R) : R :=
  let clampedY :=
    clamp rawY (li_paddingTop a) (li_paddingTop a + li_chartHeight a) in
  if Rge_dec (li_chartReveal a) 1 then clampedY
  else
    let t := clamp ((x - li_paddingLeft a) / Rmax (li_chartWidth a) EPS) 0 1 in
    let baseY := loadingY t (li_centerY a) (li_loadingAmplitude a)
                          (li_loadingScroll a) in
    baseY + (clampedY - baseY) * li_chartReveal a.

Definition pointX (a : LineInput) (logicalIndex : Z) : R :=
  if (visibleCountOf a <=? logicalIndex)%Z then tipXOf a
  else
    let idx := (safeFirstOf a + logicalIndex)%Z in
    if ((idx <? 0) || (maxIndexOf a <? idx))%Z then tipXOf a
    else
      li_paddingLeft a
      + ((ptT (li_pointsBuf a) (Z.to_nat idx) - li_start a)
         / Rmax (li_span a) EPS) * li_chartWidth a.

Definition pointY (a : LineInput) (logicalIndex : Z) : R :=
  let x := pointX a logicalIndex in
  if (visibleCountOf a <=? logicalIndex)%Z then morphY a (li_liveY a) x
  else
    let idx := (safeFirstOf a + logicalIndex)%Z in
    if ((idx <? 0) || (maxIndexOf a <? idx))%Z then morphY a (li_liveY a) x
    else if (logicalIndex =? visibleCountOf a - 1)%Z then morphY a (li_liveY a) x
    else
      let realY :=
        li_paddingTop a
        + (1 - (ptV (li_pointsBuf a) (Z.to_nat idx) - li_rangeMin a)
               / Rmax (li_rangeSpan a) EPS) * li_chartHeight a in
      morphY a realY x.

(** Pass 1: [h[i]] and [delta[i]] for [i < n - 1]. *)
Fixpoint secants (xs ys : list R) : list (R * R) :=
  match xs, ys with
  | x0 :: ((x1 :: _) as xs'), y0 :: ((y1 :: _) as ys') =>
      let h := x1 - x0 in
      (h, if Rlt_dec (Rabs h) EPS then 0 else (y1 - y0) / h) :: secants xs' ys'
  | _, _ => []
  end.

(** Pass 2: [m[0] = delta[0]], [m[n-1] = delta[n-2]] and, in between, zero
    where the adjacent secants disagree in sign, their mean otherwise.
    [interiorTangents] gives [m[1], ..., m[n-1]]. *)
Fixpoint interiorTangents (delta : list R) : list R :=
  match delta with
  | [] => []
  | d0 :: rest =>
      match rest with
      | [] => [d0]
      | d1 :: _ =>
          (if Rle_dec (d0 * d1) 0 then 0 else (d0 + d1) / 2)
          :: interiorTangents rest
      end
  end.

Definition initialTangents (delta : list R) : list R :=
  match delta with
  | [] => []
  | d0 :: _ => d0 :: interiorTangents delta
  end.

(** Pass 3, in place from left to right: step [i] rewrites [m[i]] and
    [m[i+1]], and step [i+1] reads the [m[i+1]] it left. *)
Fixpoint constrainTangents (delta m : list R) : list R :=
  match delta, m with
  | d :: ds, m0 :: m1 :: rest =>
      let r := fritschCarlson d m0 m1 in
      fst r :: constrainTangents ds (snd r :: rest)
  | _, _ => m
  end.

(** Pass 4: one [lineTo] or [cubicTo] per segment. *)
Fixpoint bezierSegments (xs ys h m : list R) : list pathCmd :=
  match xs, ys, h, m with
  | x0 :: ((x1 :: _) as xs'), y0 :: ((y1 :: _) as ys'), hi :: h',
    m0 :: ((m1 :: _) as m') =>
      (if Rlt_dec (Rabs hi) EPS then LineTo x1 y1
       else CubicTo (x0 + hi / 3) (y0 + (m0 * hi) / 3)
                    (x1 - hi / 3) (y1 - (m1 * hi) / 3) x1 y1)
      :: bezierSegments xs' ys' h' m'
  | _, _, _, _ => []
  end.

Definition startAt (a : LineInput) (x y : R) : pathCmd :=
  if li_continuePath a then LineTo x y else MoveTo x y.

Definition splinePath (a : LineInput) (xs ys : list R) : list pathCmd :=
  let sec := secants xs ys in
  let h := map fst sec in
  let delta := map snd sec in
  let m := constrainTangents delta (initialTangents delta) in
  startAt a (hd 0 xs) (hd 0 ys) :: bezierSegments xs ys h m.

Definition buildSmoothPathFromVisiblePoints (a : LineInput) : list pathCmd :=
  if (maxIndexOf a <? 0)%Z then []
  else
    let totalCount := Z.to_nat (visibleCountOf a + 1) in
    let xs := map (fun i => pointX a (Z.of_nat i)) (seq 0 totalCount) in
    let ys := map (fun i => pointY a (Z.of_nat i)) (seq 0 totalCount) in
    match totalCount with
    | 1%nat =>
        [startAt a (li_paddingLeft a) (hd 0 ys);
         LineTo (li_paddingLeft a + li_chartWidth a) (hd 0 ys)]
    | 2%nat =>
        [startAt a (hd 0 xs) (hd 0 ys); LineTo (nth 1 xs 0) (nth 1 ys 0)]
    | _ => splinePath a xs ys
    end.

(** End point of a path call, and the Y coordinates it mentions. *)
Definition vertex (c : pathCmd) : R * R :=
  match c with
  | MoveTo x y | LineTo x y => (x, y)
  | CubicTo _ _ _ _ x y => (x, y)
  end.

Definition cmdYs (c : pathCmd) : list R :=
  match c with
  | MoveTo _ y | LineTo _ y => [y]
  | CubicTo _ c1y _ c2y _ y => [c1y; c2y; y]
  end.

(** Every control point of a cubic lies in the box spanned by the point
    the cubic starts from and the point it ends at. *)
Fixpoint controlsInBox (x0 y0 : R) (cmds : list pathCmd) : Prop :=
  match cmds with
  | [] => True
  | CubicTo c1x c1y c2x c2y x y :: rest =>
      (Rmin x0 x <= c1x <= Rmax x0 x /\ Rmin y0 y <= c1y <= Rmax y0 y /\
       Rmin x0 x <= c2x <= Rmax x0 x /\ Rmin y0 y <= c2y <= Rmax y0 y) /\
      controlsInBox x y rest
  | c :: rest => controlsInBox (fst (vertex c)) (snd (vertex c)) rest
  end.

(** A tangent agrees in sign with the secant and is at most three times
    as steep. *)
Definition tangentOk (d m : R) : Prop := 0 <= m * d /\ m * m <= 9 * (d * d).

Fixpoint tangentsOk (delta m : list R) : Prop :=
  match delta, m with
  | [], _ => True
  | d :: ds, m0 :: ((m1 :: _) as m') =>
      tangentOk d m0 /\ tangentOk d m1 /\ tangentsOk ds m'
  | _, _ => False
  end.

Fixpoint signsOk (delta m : list R) : Prop :=
  match delta, m with
  | [], _ => True
  | d :: ds, m0 :: ((m1 :: _) as m') =>
      0 <= m0 * d /\ 0 <= m1 * d /\ signsOk ds m'
  | _, _ => False
  end.

(** A line input with four samples, all visible. *)
Definition sampleLine : LineInput :=
  mkLineInput [0; 1; 1; 3; 2; 2; 3; 5; 5] 4 0 3 0 4 280 180 0 6 10 10
              220 70 1 100 12 0 false.

(** ** Candles ([draw/candlestick.ts]) *)

Record CandlePoint : Type := mkCandle {
  c_time : R;  c_open : R;  c_high : R;  c_low : R;  c_close : R
}.

Record CandleDims : Type := mkDims { bodyW : R;  wickW : R;  radius : R }.

Definition candleDims (chartW leftEdge rightEdge candleWidthSecs : R) : CandleDims :=
  let span := rightEdge - leftEdge in
  if Rle_dec span 0 then mkDims 1 (8 / 10) 0
  else
    let pxPerSec := chartW / span in
    let candlePxW := candleWidthSecs * pxPerSec in
    let bodyW := Rmax 1 (candlePxW * (7 / 10)) in
    let wickW := Rmax (8 / 10) (Rmin 2 (bodyW * (15 / 100))) in
    let radius := if Rlt_dec 6 bodyW then 15 / 10 else 0 in
    mkDims bodyW wickW radius.

(** [candles[i]], read inside the bounds of the array. *)
Definition candleAt (candles : list CandlePoint) (i : Z) : CandlePoint :=
  nth (Z.to_nat i) candles (mkCandle 0 0 0 0 0).

(** The search loop of [candleAtX]:
    [[
while (lo <= hi) {
  const mid = (lo + hi) >> 1;
  const ct = candles[mid].time;
  if (ct + candleWidthSecs <= time) lo = mid + 1;
  else if (ct > time) hi = mid - 1;
  else return candles[mid];
}
return null;
    ]] *)
Equations? candleAtXLoop (candles : list CandlePoint) (candleWidthSecs time : R)
    (lo hi : Z) : option CandlePoint
  by wf (Z.to_nat (hi - lo + 1)) lt :=
  candleAtXLoop candles candleWidthSecs time lo hi with Z_le_gt_dec lo hi => {
    | right _ => None
    | left _ with Rle_dec (c_time (candleAt candles (Z.shiftr (lo + hi) 1))
                           + candleWidthSecs) time => {
        | left _ =>
            candleAtXLoop candles candleWidthSecs time
                          (Z.shiftr (lo + hi) 1 + 1) hi
        | right _ with Rgt_dec (c_time (candleAt candles (Z.shiftr (lo + hi) 1)))
                               time => {
            | left _ =>
                candleAtXLoop candles candleWidthSecs time
                              lo (Z.shiftr (lo + hi) 1 - 1)
            | right _ => Some (candleAt candles (Z.shiftr (lo + hi) 1)) } } }.
Proof.
  all: rewrite Z.shiftr_div_pow2 by lia; change (2 ^ 1)%Z with 2%Z;
       pose proof (Z.div_mod (lo + hi) 2 ltac:(lia));
       pose proof (Z.mod_pos_bound (lo + hi) 2 ltac:(lia)); lia.
Qed.

(** The time under the pointer. *)
Definition hoverTimeOf (hoverX chartW paddingLeft leftEdge rightEdge : R) : R :=
  leftEdge + ((hoverX - paddingLeft) / chartW) * (rightEdge - leftEdge).

Definition candleAtX (candles : list CandlePoint)
    (hoverX candleWidthSecs chartW paddingLeft leftEdge rightEdge : R)
    : option CandlePoint :=
  let span := rightEdge - leftEdge in
  if Rle_dec span 0 then None
  else if (length candles =? 0)%nat then None
  else
    let time := leftEdge + ((hoverX - paddingLeft) / chartW) * span in
    candleAtXLoop candles candleWidthSecs time 0 (Z.of_nat (length candles) - 1).

(** The scan of [computeCandleRange] over lows and highs. *)
Definition scanCandles (candles : list CandlePoint) : jsval * jsval :=
  fold_left
    (fun acc c =>
       (if js_lt (c_low c) (fst acc) then Fin (c_low c) else fst acc,
        if js_gt (c_high c) (snd acc) then Fin (c_high c) else snd acc))
    candles (PosInf, NegInf).

(** [computeCandleRange]; [range * 0.1 || 0.4] is 0.4 exactly when the
    product is zero. *)
Definition computeCandleRange (candles : list CandlePoint) : RangeResult :=
  match scanCandles candles with
  | (Fin min, Fin max) =>
      let range := max - min in
      let margin := range * (12 / 100) in
      let minRange :=
        if Req_dec_T (range * (1 / 10)) 0 then 4 / 10 else range * (1 / 10) in
      if Rlt_dec range minRange then
        let mid := (min + max) / 2 in
        mkRange (mid - minRange / 2) (mid + minRange / 2)
      else mkRange (min - margin) (max + margin)
  | _ => mkRange 99 101
  end.

(** Candle times do not decrease along the array. *)
Definition sortedCandles (candles : list CandlePoint) : Prop :=
  forall i j, (i <= j)%nat -> (j < length candles)%nat ->
    c_time (nth i candles (mkCandle 0 0 0 0 0))
    <= c_time (nth j candles (mkCandle 0 0 0 0 0)).

(** Three one-minute candles. *)
Definition sampleCandles : list CandlePoint :=
  [mkCandle 0 10 12 9 11; mkCandle 60 11 15 11 14; mkCandle 120 14 14 8 9].

(** ** Frame clock, animation progress and time window (frame callback,
    before the snapshot) *)

Definition CHART_REVEAL_SPEED : R := 14 / 100.
Definition PAUSE_PROGRESS_SPEED : R := 12 / 100.
Definition PAUSE_CATCHUP_SPEED : R := 8 / 100.
Definition PAUSE_CATCHUP_SPEED_FAST : R := 22 / 100.
Definition SCRUB_LERP_SPEED : R := 12 / 100.
Definition MOMENTUM_DECAY_PER_MS : R := 994 / 1000.
Definition MOMENTUM_STOP_THRESHOLD : R := 5 / 100000.
Definition SNAP_BACK_THRESHOLD_SECS : R := 5 / 10.

(** [const dt = Math.min(frame.timeSincePreviousFrame ?? 16.6667, 50)] *)
Definition frameDt (timeSincePreviousFrame : option R) : R :=
  Rmin (match timeSincePreviousFrame with Some t => t | None => REF_FRAME_MS end) 50.

(** [const ratio = dt / 16.6667] *)
Definition frameRatio (dt : R) : R := dt / REF_FRAME_MS.

(** [[
const clockDelta = nowRawMs - prevClockMs;
const cappedNowMs = clockDelta < 0 || clockDelta > 1000
  ? nowRawMs : prevClockMs + Math.min(clockDelta, 50);
]] *)
Definition cappedNowMs (nowRawMs prevClockMs : R) : R :=
  let clockDelta := nowRawMs - prevClockMs in
  if Rlt_dec clockDelta 0 then nowRawMs
  else if Rlt_dec 1000 clockDelta then nowRawMs
  else prevClockMs + Rmin clockDelta 50.

(** [[
pauseProgressSV.value = alphaLerp(pauseProgressSV.value, paused ? 1 : 0,
                                  PAUSE_PROGRESS_SPEED, ratio);
if (pauseProgressSV.value < 0.005) pauseProgressSV.value = 0;
if (pauseProgressSV.value > 0.995) pauseProgressSV.value = 1;
]] *)
Definition advancePauseProgress (pauseProgress : R) (paused : bool) (ratio : R) : R :=
  let p := lerpStep pauseProgress (if paused then 1 else 0)
                    PAUSE_PROGRESS_SPEED ratio in
  let p1 := if Rlt_dec p (5 / 1000) then 0 else p in
  if Rlt_dec (995 / 1000) p1 then 1 else p1.

(** [[
timeDebtMsSV.value += dt * pauseProgress;
if (!paused && timeDebtMsSV.value > 0.001) {
  const catchUpSpeed = timeDebtMsSV.value > 10_000
    ? PAUSE_CATCHUP_SPEED_FAST : PAUSE_CATCHUP_SPEED;
  timeDebtMsSV.value = alphaLerp(timeDebtMsSV.value, 0, catchUpSpeed, ratio);
  if (timeDebtMsSV.value < 10) timeDebtMsSV.value = 0;
}
]] *)
Definition advanceTimeDebt (timeDebtMs dt pauseProgress : R) (paused : bool)
    (ratio : R) : R :=
  let debt := timeDebtMs + dt * pauseProgress in
  if paused then debt
  else if Rlt_dec (1 / 1000) debt then
    let catchUpSpeed :=
      if Rlt_dec 10000 debt then PAUSE_CATCHUP_SPEED_FAST
      else PAUSE_CATCHUP_SPEED in
    let d := lerpStep debt 0 catchUpSpeed ratio in
    if Rlt_dec d 10 then 0 else d
  else debt.

(** [[
chartRevealSV.value = alphaLerp(chartRevealSV.value, revealTarget,
                                CHART_REVEAL_SPEED, ratio);
if (Math.abs(chartRevealSV.value - revealTarget) < 0.005)
  chartRevealSV.value = revealTarget;
]]
    [revealTarget] is 1 when [reveal] holds, 0 otherwise. *)
Definition advanceChartReveal (chartReveal : R) (reveal : bool) (ratio : R) : R :=
  let revealTarget := if reveal then 1 else 0 in
  let r := lerpStep chartReveal revealTarget CHART_REVEAL_SPEED ratio in
  if Rlt_dec (Rabs (r - revealTarget)) (5 / 1000) then revealTarget else r.

(** [[
scrubAmountSV.value = alphaLerp(scrubAmountSV.value, hoverActive ? 1 : 0,
                                SCRUB_LERP_SPEED, ratio);
if (scrubAmountSV.value < 0.01) scrubAmountSV.value = 0;
if (scrubAmountSV.value > 0.99) scrubAmountSV.value = 1;
]] *)
Definition advanceScrubAmount (scrubAmount : R) (hoverActive : bool) (ratio : R) : R :=
  let a := lerpStep scrubAmount (if hoverActive then 1 else 0)
                    SCRUB_LERP_SPEED ratio in
  let a1 := if Rlt_dec a (1 / 100) then 0 else a in
  if Rlt_dec (99 / 100) a1 then 1 else a1.

(** The displayed window length, interpolated in log space; [gestureWindow]
    is 0 when there is no pinch gesture.
    [[
const targetWindow = Math.max(1, gestureWindow > 0 ? gestureWindow : windowSecsSV.value);
const displayWindow = Math.max(1, displayWindowSecsSV.value);
const nextLogWindow = alphaLerp(Math.log(displayWindow), Math.log(targetWindow),
                                0.12, ratio * (1 - pauseProgress));
displayWindowSecsSV.value = Math.exp(nextLogWindow);
if (Math.abs(displayWindowSecsSV.value - targetWindow) < 0.01)
  displayWindowSecsSV.value = targetWindow;
const windowSecsNow = Math.max(1, displayWindowSecsSV.value);
    ]] *)
Definition targetWindowOf (gestureWindow windowSecs : R) : R :=
  Rmax 1 (if Rlt_dec 0 gestureWindow then gestureWindow else windowSecs).

Definition advanceDisplayWindow
    (displayWindowSecs gestureWindow windowSecs ratio pauseProgress : R) : R :=
  let targetWindow := targetWindowOf gestureWindow windowSecs in
  let displayWindow := Rmax 1 displayWindowSecs in
  let nextLogWindow :=
    lerpStep (ln displayWindow) (ln targetWindow) (12 / 100)
             (ratio * (1 - pauseProgress)) in
  let next := exp nextLogWindow in
  if Rlt_dec (Rabs (next - targetWindow)) (1 / 100) then targetWindow else next.

Definition windowSecsNowOf
    (displayWindowSecs gestureWindow windowSecs ratio pauseProgress : R) : R :=
  Rmax 1 (advanceDisplayWindow displayWindowSecs gestureWindow windowSecs
                               ratio pauseProgress).

(** [Math.pow(MOMENTUM_DECAY_PER_MS, dt)]: the base is positive. *)
Definition momentumDecay (dt : R) : R :=
  if Req_dec_T dt 0 then 1 else Rpower MOMENTUM_DECAY_PER_MS dt.

(** Pan momentum: velocity decay and offset integration, then the
    snap back to live.  The state is (velocity, offset, isLive).
    [[
if (Math.abs(panVelocity) > MOMENTUM_STOP_THRESHOLD) {
  panVelocity *= Math.pow(MOMENTUM_DECAY_PER_MS, dt);
  domainOffset += panVelocity * dt;
  if (domainOffset > 0) domainOffset = 0;
  if (Math.abs(panVelocity) < MOMENTUM_STOP_THRESHOLD) panVelocity = 0;
}
if (domainOffset > -SNAP_BACK_THRESHOLD_SECS && Math.abs(vel) < MOMENTUM_STOP_THRESHOLD) {
  domainOffset = 0; isLive = 1;
} else if (domainOffset < -SNAP_BACK_THRESHOLD_SECS) {
  isLive = 0;
}
    ]] *)
Definition decayMomentum (panVelocity domainOffset dt : R) : R * R :=
  if Rlt_dec MOMENTUM_STOP_THRESHOLD (Rabs panVelocity) then
    let v := panVelocity * momentumDecay dt in
    let off := domainOffset + v * dt in
    let off1 := if Rlt_dec 0 off then 0 else off in
    let v1 := if Rlt_dec (Rabs v) MOMENTUM_STOP_THRESHOLD then 0 else v in
    (v1, off1)
  else (panVelocity, domainOffset).

Definition snapBackToLive (vel domainOffset : R) (isLive : bool) : R * bool :=
  if Rlt_dec (- SNAP_BACK_THRESHOLD_SECS) domainOffset then
    if Rlt_dec (Rabs vel) MOMENTUM_STOP_THRESHOLD then (0, true)
    else (domainOffset, isLive)
  else if Rlt_dec domainOffset (- SNAP_BACK_THRESHOLD_SECS) then (domainOffset, false)
  else (domainOffset, isLive).

Definition panStep (panVelocity domainOffset : R) (isLive : bool) (dt : R)
    : R * R * bool :=
  let m := decayMomentum panVelocity domainOffset dt in
  let s := snapBackToLive (fst m) (snd m) isLive in
  (fst m, fst s, snd s).

(** The time window of the frame.
    [[
const bufferRatio = resolveWindowBuffer(innerWidth, showMomentum && showBadge);
const liveDomainTarget = Math.max(nowSec, ptsCount > 0 ? ptT(pts, ptsCount - 1) : nowSec);
const domainTarget = liveDomainTarget + domainOffset;
const rightEdge = domainTarget + windowSecsNow * bufferRatio;
const start = rightEdge - windowSecsNow;
const filterRight = rightEdge - (rightEdge - domainTarget) * pauseProgress;
    ]] *)
Record FrameWindow : Type := mkWindow {
  fw_domainTarget : R;  fw_rightEdge : R;  fw_start : R;  fw_filterRight : R
}.

Definition frameWindow (nowSec : R) (pts : list R) (ptsCount : nat)
    (domainOffset windowSecsNow innerWidth : R) (needsArrowRoom : bool)
    (pauseProgress : R) : FrameWindow :=
  let bufferRatio := resolveWindowBuffer innerWidth needsArrowRoom in
  let liveDomainTarget :=
    Rmax nowSec (if (0 <? ptsCount)%nat then ptT pts (ptsCount - 1) else nowSec) in
  let domainTarget := liveDomainTarget + domainOffset in
  let rightEdge := domainTarget + windowSecsNow * bufferRatio in
  let start := rightEdge - windowSecsNow in
  let filterRight := rightEdge - (rightEdge - domainTarget) * pauseProgress in
  mkWindow domainTarget rightEdge start filterRight.

(** ** The candle and series layers of a tick *)

(** Candle and series state is advanced in place before the layer's paths
    are built; these name the values the layer is then built with. *)

Definition isCandleEffect (e : effect) : bool :=
  match e with
  | CandlePaths _ _ _ | OldCandlePaths _ _ _ | CandleHoverY _ => true
  | _ => false
  end.

Definition isSeriesEffect (e : effect) : bool :=
  match e with
  | SeriesPath _ _ _ _ _ | SeriesDot _ _ _ => true
  | _ => false
  end.

(** The morph step of the tick: (morph state, local [morphT], displayed
    candle width). *)
Definition candleMorphOf (inp : FrameInput) (s : EngineState)
    : WidthMorph * R * R :=
  stepWidthMorph
    (beginWidthMorph (candleWidthMorph s) (fi_candleWidthSecs inp)
       (fi_nowRawMs inp) (candleRangeMinSV s) (candleRangeMaxSV s))
    (fi_candleWidthSecs inp) (fi_nowRawMs inp).

Definition candleMorphTOf (inp : FrameInput) (s : EngineState) : R :=
  snd (fst (candleMorphOf inp s)).

(** The candle range as advanced by the tick. *)
Definition candleAdvanceOf (inp : FrameInput) (s : EngineState) : R * R * bool :=
  advanceCandleRange (candleRangeInitedSV s) (candleRangeMinSV s)
    (candleRangeMaxSV s) (fi_candleTarget inp) (fi_ratio inp).

(** [cRangeMin] and [cRangeMax], the range handed to [buildCandlePaths]. *)
Definition shownCandleRange (inp : FrameInput) (s : EngineState) : R * R :=
  let step := candleMorphOf inp s in
  let adv := candleAdvanceOf inp s in
  let shown := morphCandleRange (fst (fst step)) (snd (fst step))
                 (fst (fst adv)) (snd (fst adv)) (fi_candleNewTarget inp) in
  (snd (fst shown), snd shown).

(** The slots as advanced by the tick, and [seriesLiveY] of a slot. *)
Definition advancedSlotsOf (inp : FrameInput) (s : EngineState) : list SeriesSlot :=
  advanceSlots (seriesSlotsSV s) (firstn MAX_SERIES (fi_series inp))
    (adaptiveSpeed (fi_lerpSpeed inp) (targetValueOf inp) (displayValueSV s)
                   (rangeMinSV s) (rangeMaxSV s))
    (pausedRatioOf inp) (fi_ratio inp).

Definition seriesLiveYOf (inp : FrameInput) (s : EngineState) (slot : SeriesSlot) : R :=
  fi_padTop inp
  + (1 - (slot_displayValue slot - rangeMinSV s) / Rmax (rangeSpanOf s) (1 / 1000000))
    * innerHeightOf inp.

(** A candle-mode tick: the committed candle range is [0, 10], the range
    of the visible candles is [5, 20], no width morph is running. *)
Definition candleInput : FrameInput :=
  mkInput 300 200 10 10 10 10 0
          1 0 1 1000
          [0; 1; 1; 3; 2; 2; 2]
          0 2 0 2
          0 3 2
          true 2
          (8 / 100) false NaN
          (fun _ => 100) (35 / 100)
          true true false false false false false
          0
          true 60 (Some (mkRange 5 20)) None 0 None 0
          false [].

Definition candleState : EngineState :=
  mkState 2 (2 - 5 / 10) (2 + 5 / 10) true (-1)
          0 10 true (mkMorph 60 60 0 (-1) 0 0 0 0)
          false [].

(** A multi-series tick: one visible series with live value 4 whose slot
    still shows the displayed value 0. *)
Definition seriesTipInput : FrameInput :=
  mkInput 300 200 10 10 10 10 0
          1 0 1 1000
          [0; 1; 1; 3; 2; 2; 2]
          0 2 0 2
          0 3 2
          true 2
          (8 / 100) false NaN
          (fun _ => 100) (35 / 100)
          true true false false false false false
          0
          false 60 None None 0 None 0
          true [mkSeries [1; 3; 2] 3 4 false].

Definition seriesTipState : EngineState :=
  mkState 2 (2 - 5 / 10) (2 + 5 / 10) true (-1)
          0 0 false (mkMorph 60 60 0 (-1) 0 0 0 0)
          true [mkSlot true 1 0].

(* ===================================================================== *)
(** * Properties *)
(* ===================================================================== *)

(** ** Powers of a base in [0,1] *)

Lemma Math_pow_zero_exp b : Math_pow b 0 = Fin 1.
Proof. unfold Math_pow. destruct (Req_dec_T 0 0); [reflexivity | lra]. Qed.

Lemma Math_pow_unit_base b e :
  0 <= b <= 1 -> 0 <= e ->
  exists p, Math_pow b e = Fin p /\ 0 <= p <= 1.
Proof.
  intros Hb He. unfold Math_pow.
  destruct (Req_dec_T e 0) as [-> | Hne].
  - exists 1. split; [reflexivity | lra].
  - destruct (Rlt_dec 0 b) as [Hpos | Hnpos].
    + exists (Rpower b e). split; [reflexivity |]. split.
      * left. apply exp_pos.
      * unfold Rpower. rewrite <- exp_0.
        destruct (Req_dec_T b 1) as [-> | Hb1].
        -- rewrite ln_1, Rmult_0_r. lra.
        -- left. apply exp_increasing.
           assert (ln b < 0) by (rewrite <- ln_1; apply ln_increasing; lra).
           nra.
    + destruct (Req_dec_T b 0) as [_ | Hb0]; [| lra].
      destruct (Rlt_dec 0 e) as [_ | Hn]; [| lra].
      exists 0. split; [reflexivity | lra].
Qed.

Lemma Math_pow_add b e1 e2 p1 p2 :
  0 <= b -> 0 <= e1 -> 0 <= e2 ->
  Math_pow b e1 = Fin p1 -> Math_pow b e2 = Fin p2 ->
  Math_pow b (e1 + e2) = Fin (p1 * p2).
Proof.
  intros Hb H1 H2. unfold Math_pow.
  destruct (Req_dec_T e1 0) as [-> | N1].
  - intros [= <-]. rewrite Rplus_0_l, Rmult_1_l. tauto.
  - destruct (Req_dec_T e2 0) as [-> | N2].
    + intros E1 [= <-]. rewrite Rplus_0_r, Rmult_1_r.
      destruct (Req_dec_T e1 0); [lra | exact E1].
    + destruct (Req_dec_T (e1 + e2) 0) as [E | _]; [lra |].
      destruct (Rlt_dec 0 b) as [Hpos | Hnpos].
      * intros [= <-] [= <-]. rewrite Rpower_plus. reflexivity.
      * destruct (Req_dec_T b 0) as [_ | Hb0]; [| lra].
        destruct (Rlt_dec 0 e1); [| lra].
        destruct (Rlt_dec 0 e2); [| lra].
        destruct (Rlt_dec 0 (e1 + e2)); [| lra].
        intros [= <-] [= <-]. rewrite Rmult_0_l. reflexivity.
Qed.

(** With a base in [0,1] the blend factor needs no clamping, and a step
    leaves the fraction [p] of the gap. *)
Lemma alphaLerp_unit_speed from to speed r :
  0 <= speed <= 1 -> 0 <= r ->
  exists p, Math_pow (1 - speed) r = Fin p /\ 0 <= p <= 1 /\
            alphaLerp from to speed r = Fin (from + (to - from) * (1 - p)).
Proof.
  intros Hs Hr.
  destruct (Math_pow_unit_base (1 - speed) r) as (p & Hp & Hb); [lra | lra |].
  exists p. split; [exact Hp |]. split; [exact Hb |].
  unfold alphaLerp. rewrite Hp. cbn. unfold clamp.
  rewrite Rmax_right by lra. rewrite Rmin_right by lra. reflexivity.
Qed.

Lemma alphaLerp_compose cur tgt s r1 r2 :
  0 <= s <= 1 -> 0 <= r1 -> 0 <= r2 ->
  exists a b,
    alphaLerp cur tgt s r1 = Fin a /\
    alphaLerp a tgt s r2 = Fin b /\
    alphaLerp cur tgt s (r1 + r2) = Fin b.
Proof.
  intros Hs H1 H2.
  destruct (alphaLerp_unit_speed cur tgt s r1 Hs H1) as (p1 & P1 & B1 & E1).
  exists (cur + (tgt - cur) * (1 - p1)).
  destruct (alphaLerp_unit_speed (cur + (tgt - cur) * (1 - p1)) tgt s r2 Hs H2)
    as (p2 & P2 & B2 & E2).
  exists (cur + (tgt - cur) * (1 - p1 * p2)).
  split; [exact E1 |]. split.
  - rewrite E2. f_equal. ring.
  - assert (P12 : Math_pow (1 - s) (r1 + r2) = Fin (p1 * p2))
      by (apply Math_pow_add; solve [lra | assumption]).
    destruct (alphaLerp_unit_speed cur tgt s (r1 + r2) Hs) as (p & P & _ & E);
      [lra |].
    rewrite P12 in P. injection P as <-. exact E.
Qed.

Lemma Rsum_nonneg ds : Forall (fun d => 0 <= d) ds -> 0 <= Rsum ds.
Proof. induction 1; unfold Rsum in *; simpl; lra. Qed.

Lemma advanceTicks_single cur tgt s ds :
  0 <= s <= 1 -> Forall (fun d => 0 <= d) ds ->
  exists x, advanceTicks cur tgt s ds = Fin x /\
            alphaLerp cur tgt s (Rsum ds / REF_FRAME_MS) = Fin x.
Proof.
  intros Hs Hds. revert cur.
  assert (Href : 0 < REF_FRAME_MS) by (unfold REF_FRAME_MS; lra).
  induction Hds as [| d ds Hd Hds IH]; intros cur.
  - exists cur. split; [reflexivity |].
    change (Rsum []) with 0. unfold Rdiv. rewrite Rmult_0_l.
    unfold alphaLerp. rewrite Math_pow_zero_exp. cbn. unfold clamp.
    rewrite Rmax_left by lra. rewrite Rmin_right by lra. f_equal. ring.
  - assert (Hr : 0 <= d / REF_FRAME_MS)
      by (apply Rmult_le_pos; [lra | left; apply Rinv_0_lt_compat; lra]).
    assert (Hrs : 0 <= Rsum ds / REF_FRAME_MS).
    { apply Rmult_le_pos; [apply Rsum_nonneg; assumption |].
      left. apply Rinv_0_lt_compat. lra. }
    destruct (alphaLerp_compose cur tgt s _ _ Hs Hr Hrs) as (a & b & Ea & Eb & Eab).
    destruct (IH a) as (x & Ex & Ex').
    exists x. split.
    + simpl advanceTicks. rewrite Ea. exact Ex.
    + change (Rsum (d :: ds)) with (d + Rsum ds).
      replace ((d + Rsum ds) / REF_FRAME_MS)
        with (d / REF_FRAME_MS + Rsum ds / REF_FRAME_MS) by (field; lra).
      rewrite Eab. congruence.
Qed.

(** C3. Frame-rate independence of [alphaLerp]: for a speed in [0,1] and
    non-negative frame ratios, stepping with ratio [r1] and then with
    ratio [r2] toward the same target gives the result of one step with
    ratio [r1 + r2] (equal, hence within every positive tolerance); and
    frames of non-negative durations [dts] land where a single frame of
    their total duration lands. *)
Theorem alphaLerp_frame_rate_independent :
  forall cur tgt s eps r1 r2 dts,
    0 <= s <= 1 -> 0 < eps ->
    0 <= r1 -> 0 <= r2 -> Forall (fun d => 0 <= d) dts ->
    (exists a b c,
       alphaLerp cur tgt s r1 = Fin a /\
       alphaLerp a tgt s r2 = Fin b /\
       alphaLerp cur tgt s (r1 + r2) = Fin c /\
       b = c /\ Rabs (b - c) < eps) /\
    (exists small one,
       advanceTicks cur tgt s dts = Fin small /\
       alphaLerp cur tgt s (Rsum dts / REF_FRAME_MS) = Fin one /\
       small = one /\ Rabs (small - one) < eps).
Proof.
  intros cur tgt s eps r1 r2 dts Hs Heps H1 H2 Hd. split.
  - destruct (alphaLerp_compose cur tgt s r1 r2 Hs H1 H2) as (a & b & Ea & Eb & Ec).
    exists a, b, b. repeat split; try assumption.
    rewrite Rminus_diag, Rabs_R0. exact Heps.
  - destruct (advanceTicks_single cur tgt s dts Hs Hd) as (x & E1 & E2).
    exists x, x. repeat split; try assumption.
    rewrite Rminus_diag, Rabs_R0. exact Heps.
Qed.

Lemma alphaLerp_frame_rate_independent_witness :
  (exists a b c,
     alphaLerp 0 100 (8 / 100) 1 = Fin a /\
     alphaLerp a 100 (8 / 100) 2 = Fin b /\
     alphaLerp 0 100 (8 / 100) (1 + 2) = Fin c /\
     b = c /\ Rabs (b - c) < 1 / 1000) /\
  (exists small one,
     advanceTicks 0 100 (8 / 100) [5; 10; 35] = Fin small /\
     alphaLerp 0 100 (8 / 100) (Rsum [5; 10; 35] / REF_FRAME_MS) = Fin one /\
     small = one /\ Rabs (small - one) < 1 / 1000).
Proof.
  apply (alphaLerp_frame_rate_independent 0 100 (8 / 100) (1 / 1000) 1 2 [5; 10; 35]);
    try lra.
  repeat constructor; lra.
Defined.

(** ** One step stays between its end points *)

Lemma clamp_unit a : 0 <= clamp a 0 1 <= 1.
Proof.
  unfold clamp. split.
  - apply Rmin_glb; [lra | apply Rmax_l].
  - apply Rmin_l.
Qed.

Lemma blend_between from to a :
  0 <= a <= 1 ->
  Rmin from to <= from + (to - from) * a <= Rmax from to.
Proof.
  intros Ha. unfold Rmin, Rmax. destruct (Rle_dec from to); split; nra.
Qed.

Lemma Int_part_half : Int_part (1 / 2) = 0%Z.
Proof.
  unfold Int_part.
  rewrite <- (tech_up (1 / 2) 1); [reflexivity | simpl; lra | simpl; lra].
Qed.

Lemma is_integer_half : is_integer (1 / 2) = false.
Proof.
  unfold is_integer. rewrite Int_part_half.
  destruct (Req_dec_T (IZR 0) (1 / 2)) as [E | _]; [simpl in E; lra | reflexivity].
Qed.

Lemma Math_pow_NaN_inv b e :
  Math_pow b e = NaN -> b < 0 /\ is_integer e = false.
Proof.
  unfold Math_pow.
  destruct (Req_dec_T e 0); [discriminate |].
  destruct (Rlt_dec 0 b); [discriminate |].
  destruct (Req_dec_T b 0).
  - destruct (Rlt_dec 0 e); discriminate.
  - destruct (is_integer e); [discriminate |]. intros _. split; [lra | reflexivity].
Qed.

Lemma Math_pow_negative_fractional b e :
  b < 0 -> is_integer e = false -> Math_pow b e = NaN.
Proof.
  intros Hb He. unfold Math_pow.
  destruct (Req_dec_T e 0) as [-> | _].
  - unfold is_integer in He.
    replace (Int_part 0) with 0%Z in He.
    + destruct (Req_dec_T (IZR 0) 0) as [_ | N]; [discriminate | lra].
    + unfold Int_part. rewrite <- (tech_up 0 1); [reflexivity | simpl; lra | simpl; lra].
  - destruct (Rlt_dec 0 b); [lra |].
    destruct (Req_dec_T b 0); [lra |].
    rewrite He. reflexivity.
Qed.

Lemma alphaLerp_cases from to speed r :
  (alphaLerp from to speed r = NaN /\ Math_pow (1 - speed) r = NaN) \/
  (exists a, 0 <= a <= 1 /\ alphaLerp from to speed r = Fin (from + (to - from) * a)).
Proof.
  unfold alphaLerp.
  destruct (Math_pow (1 - speed) r) as [p | | |] eqn:E; cbn.
  - right. exists (clamp (1 - p) 0 1). split; [apply clamp_unit | reflexivity].
  - right. exists (Rmin 1 0). split; [| reflexivity].
    rewrite Rmin_right by lra. lra.
  - right. exists 1. split; [lra | reflexivity].
  - left. split; reflexivity.
Qed.

(** The step is [NaN] for a speed above 1 and a fractional ratio. *)
Lemma alphaLerp_NaN from to speed r :
  1 < speed -> is_integer r = false -> alphaLerp from to speed r = NaN.
Proof.
  intros Hs Hi. unfold alphaLerp.
  rewrite Math_pow_negative_fractional by (lra || assumption). reflexivity.
Qed.

(** C10 (amended). One step of [alphaLerp] with a non-negative frame ratio
    returns a value in the closed interval between [from] and [to] whenever
    the speed is at most 1 (or the ratio is a whole number), and returns
    [from] itself when the ratio is 0. *)
Theorem alphaLerp_between :
  forall from to speed dtRatio,
    0 <= dtRatio ->
    speed <= 1 \/ is_integer dtRatio = true ->
    exists x, alphaLerp from to speed dtRatio = Fin x /\
              Rmin from to <= x <= Rmax from to /\
              (dtRatio = 0 -> x = from).
Proof.
  intros from to speed r Hr Hdom.
  destruct (alphaLerp_cases from to speed r) as [[_ HN] | (a & Ha & E)].
  - apply Math_pow_NaN_inv in HN. destruct HN as [Hb Hi].
    destruct Hdom as [Hs | Hint]; [lra | congruence].
  - exists (from + (to - from) * a). split; [exact E |]. split.
    + apply blend_between; exact Ha.
    + intros ->. unfold alphaLerp in E. rewrite Math_pow_zero_exp in E.
      cbn in E. unfold clamp in E.
      rewrite Rminus_diag in E.
      rewrite Rmax_left in E by lra. rewrite Rmin_right in E by lra.
      injection E as E. lra.
Qed.

Lemma alphaLerp_between_witness :
  exists x, alphaLerp 0 10 (1 / 2) 1 = Fin x /\
            Rmin 0 10 <= x <= Rmax 0 10 /\ (1 = 0 -> x = 0).
Proof. apply (alphaLerp_between 0 10 (1 / 2) 1); [lra | left; lra]. Defined.

(** C10, as stated, fails: with speed 2 and frame ratio 1/2 the script
    computes [Math.pow(-1, 0.5)], which is [NaN], and the step is [NaN],
    not a value between 0 and 1. *)
Lemma alphaLerp_between_counterexample :
  alphaLerp 0 1 2 (1 / 2) = NaN /\
  ~ (exists x, alphaLerp 0 1 2 (1 / 2) = Fin x /\ Rmin 0 1 <= x <= Rmax 0 1).
Proof.
  assert (E : alphaLerp 0 1 2 (1 / 2) = NaN).
  { unfold alphaLerp.
    rewrite Math_pow_negative_fractional; [reflexivity | lra | apply is_integer_half]. }
  split; [exact E |]. intros (x & Hx & _). congruence.
Qed.


(** ** Adaptive speed *)

(** Case analysis on the comparisons hidden in [Rmin], [Rmax] and [Rabs]. *)
Ltac split_cmp :=
  unfold clamp, Rmin, Rmax, Rabs in *;
  repeat match goal with
    | |- context [Rle_dec ?a ?b] => destruct (Rle_dec a b)
    | |- context [Rlt_dec ?a ?b] => destruct (Rlt_dec a b)
    | |- context [Rcase_abs ?a] => destruct (Rcase_abs a)
    | H : context [Rle_dec ?a ?b] |- _ => destruct (Rle_dec a b)
    | H : context [Rlt_dec ?a ?b] |- _ => destruct (Rlt_dec a b)
    | H : context [Rcase_abs ?a] |- _ => destruct (Rcase_abs a)
    end.

Lemma clamp_monotone a b lo hi : a <= b -> clamp a lo hi <= clamp b lo hi.
Proof. intros H. split_cmp; lra. Qed.

Lemma clamp_bounds a lo hi : lo <= hi -> lo <= clamp a lo hi <= hi.
Proof. intros H. split_cmp; lra. Qed.

Lemma adaptiveSpeedAt_antitone lerpSpeed g1 g2 :
  g1 <= g2 -> adaptiveSpeedAt lerpSpeed g2 <= adaptiveSpeedAt lerpSpeed g1.
Proof. intros H. unfold adaptiveSpeedAt. apply clamp_monotone. lra. Qed.

Lemma adaptiveSpeed_range lerpSpeed t c lo hi :
  1 / 1000 <= adaptiveSpeed lerpSpeed t c lo hi <= 8 / 10.
Proof. unfold adaptiveSpeed, adaptiveSpeedAt. apply clamp_bounds. lra. Qed.

(** The script's [alpha] is the real [frameAlpha] for every speed the
    clamp can produce. *)
Lemma frameAlpha_js_real speed pausedRatio :
  1 / 1000 <= speed <= 8 / 10 ->
  frameAlpha_js speed pausedRatio = Fin (frameAlpha speed pausedRatio).
Proof.
  intros Hs. unfold frameAlpha_js, frameAlpha.
  destruct (Rle_dec pausedRatio 0) as [_ | Hp]; [reflexivity |].
  unfold Math_pow.
  destruct (Req_dec_T pausedRatio 0); [lra |].
  destruct (Rlt_dec 0 (1 - speed)); [reflexivity | lra].
Qed.

Lemma frameAlpha_unit speed pausedRatio :
  1 / 1000 <= speed <= 8 / 10 -> 0 <= frameAlpha speed pausedRatio <= 1.
Proof.
  intros Hs. unfold frameAlpha.
  destruct (Rle_dec pausedRatio 0) as [_ | Hp]; [lra |].
  assert (0 < Rpower (1 - speed) pausedRatio) by apply exp_pos.
  assert (Rpower (1 - speed) pausedRatio <= Rpower 1 pausedRatio)
    by (apply Rle_Rpower_l; lra).
  assert (Rpower 1 pausedRatio = 1)
    by (unfold Rpower; rewrite ln_1, Rmult_0_r; apply exp_0).
  lra.
Qed.

Lemma frameAlpha_monotone s1 s2 pausedRatio :
  1 / 1000 <= s1 -> s1 <= s2 -> s2 <= 8 / 10 ->
  frameAlpha s1 pausedRatio <= frameAlpha s2 pausedRatio.
Proof.
  intros H1 H12 H2. unfold frameAlpha.
  destruct (Rle_dec pausedRatio 0) as [_ | Hp]; [lra |].
  assert (Rpower (1 - s2) pausedRatio <= Rpower (1 - s1) pausedRatio)
    by (apply Rle_Rpower_l; lra).
  lra.
Qed.

Lemma currentRange_pos lo hi : 0 < currentRange lo hi.
Proof. unfold currentRange. split_cmp; lra. Qed.

Lemma gapRatio_unit t c lo hi : 0 <= gapRatio t c lo hi <= 1.
Proof. unfold gapRatio. apply clamp_bounds. lra. Qed.

(** C2 (amended). The adaptive speed is monotonically non-increasing in the
    gap ratio [|targetValue - curDisplay| / currentRange]: for two states
    with the same base speed and gap ratios [g1 <= g2], the speed (and the
    per-tick blend factor) applied at [g2] is at most the one applied at
    [g1]; it always lies in [0.001, 0.8]. *)
Theorem adaptiveSpeed_antitone :
  forall lerpSpeed t1 c1 lo1 hi1 t2 c2 lo2 hi2 pausedRatio,
    Rabs (t1 - c1) / currentRange lo1 hi1 <= Rabs (t2 - c2) / currentRange lo2 hi2 ->
    adaptiveSpeed lerpSpeed t2 c2 lo2 hi2 <= adaptiveSpeed lerpSpeed t1 c1 lo1 hi1 /\
    frameAlpha (adaptiveSpeed lerpSpeed t2 c2 lo2 hi2) pausedRatio <=
      frameAlpha (adaptiveSpeed lerpSpeed t1 c1 lo1 hi1) pausedRatio /\
    1 / 1000 <= adaptiveSpeed lerpSpeed t2 c2 lo2 hi2 /\
    adaptiveSpeed lerpSpeed t1 c1 lo1 hi1 <= 8 / 10.
Proof.
  intros lerpSpeed t1 c1 lo1 hi1 t2 c2 lo2 hi2 pr Hg.
  assert (Hs : adaptiveSpeed lerpSpeed t2 c2 lo2 hi2
               <= adaptiveSpeed lerpSpeed t1 c1 lo1 hi1).
  { unfold adaptiveSpeed. apply adaptiveSpeedAt_antitone.
    unfold gapRatio. apply clamp_monotone. exact Hg. }
  pose proof (adaptiveSpeed_range lerpSpeed t1 c1 lo1 hi1) as R1.
  pose proof (adaptiveSpeed_range lerpSpeed t2 c2 lo2 hi2) as R2.
  repeat split; try lra.
  apply frameAlpha_monotone; lra.
Qed.

(** The two extremes: at zero gap the speed is the base speed plus 0.2, at
    a gap of one range or more it is the base speed (both clamped). *)
Lemma adaptiveSpeed_extremes lerpSpeed :
  adaptiveSpeedAt lerpSpeed 0 = clamp (lerpSpeed + 2 / 10) (1 / 1000) (8 / 10) /\
  adaptiveSpeedAt lerpSpeed 1 = clamp lerpSpeed (1 / 1000) (8 / 10).
Proof. unfold adaptiveSpeedAt. split; f_equal; lra. Qed.

Lemma gapRatio_at_target c lo hi : gapRatio c c lo hi = 0.
Proof.
  unfold gapRatio. rewrite Rminus_diag, Rabs_R0.
  replace (0 / currentRange lo hi) with 0 by (unfold Rdiv; ring).
  split_cmp; lra.
Qed.

Lemma gapRatio_full_range : gapRatio 1 0 0 1 = 1.
Proof.
  unfold gapRatio, currentRange.
  replace (1 - 0) with 1 by lra. rewrite Rabs_R1.
  replace (Rmax (1 / 1000000) 1) with 1 by (split_cmp; lra).
  replace (1 / 1) with 1 by lra.
  split_cmp; lra.
Qed.

Lemma adaptiveSpeed_small_gap :
  adaptiveSpeed (8 / 100) 0 0 0 1 = 28 / 100.
Proof.
  unfold adaptiveSpeed. rewrite gapRatio_at_target.
  unfold adaptiveSpeedAt. split_cmp; lra.
Qed.

Lemma adaptiveSpeed_large_gap :
  adaptiveSpeed (8 / 100) 1 0 0 1 = 8 / 100.
Proof.
  unfold adaptiveSpeed. rewrite gapRatio_full_range.
  unfold adaptiveSpeedAt. split_cmp; lra.
Qed.

Lemma raw_gap_zero_le t c lo hi :
  Rabs (0 - 0) / currentRange 0 1 <= Rabs (t - c) / currentRange lo hi.
Proof.
  rewrite Rminus_diag, Rabs_R0.
  replace (0 / currentRange 0 1) with 0 by (unfold Rdiv; ring).
  apply Rmult_le_pos; [apply Rabs_pos |].
  left. apply Rinv_0_lt_compat. apply currentRange_pos.
Qed.

Lemma adaptiveSpeed_antitone_witness :
  adaptiveSpeed (8 / 100) 1 0 0 1 <= adaptiveSpeed (8 / 100) 0 0 0 1 /\
  frameAlpha (adaptiveSpeed (8 / 100) 1 0 0 1) 1 <=
    frameAlpha (adaptiveSpeed (8 / 100) 0 0 0 1) 1 /\
  1 / 1000 <= adaptiveSpeed (8 / 100) 1 0 0 1 /\
  adaptiveSpeed (8 / 100) 0 0 0 1 <= 8 / 10.
Proof.
  apply (adaptiveSpeed_antitone (8 / 100) 0 0 0 1 1 0 0 1 1).
  apply raw_gap_zero_le.
Defined.

(** C2, as stated, fails: with base speed 0.08 and range [0,1], a display
    value resting on its target (gap ratio 0) is advanced with speed 0.28,
    a display value a full range away (gap ratio 1) with speed 0.08. *)
Lemma adaptiveSpeed_counterexample :
  Rabs (0 - 0) / currentRange 0 1 <= Rabs (1 - 0) / currentRange 0 1 /\
  ~ (adaptiveSpeed (8 / 100) 0 0 0 1 <= adaptiveSpeed (8 / 100) 1 0 0 1).
Proof.
  split.
  - apply raw_gap_zero_le.
  - rewrite adaptiveSpeed_small_gap, adaptiveSpeed_large_gap. lra.
Qed.

(** ** The spline evaluator *)

Lemma strictlyIncreasing_lt buf count i j :
  strictlyIncreasing buf count -> (i < j)%nat -> (j < count)%nat ->
  ptT buf i < ptT buf j.
Proof.
  intros Hinc Hij Hj. induction j as [| j IH]; [lia |].
  destruct (Nat.eq_dec i j) as [-> | Hne].
  - apply Hinc. lia.
  - apply Rlt_trans with (ptT buf j); [apply IH; lia | apply Hinc; lia].
Qed.

Lemma strictlyIncreasing_le buf count i j :
  strictlyIncreasing buf count -> (i <= j)%nat -> (j < count)%nat ->
  ptT buf i <= ptT buf j.
Proof.
  intros Hinc Hij Hj. destruct (Nat.eq_dec i j) as [-> | Hne]; [lra |].
  left. apply (strictlyIncreasing_lt buf count); [assumption | lia | lia].
Qed.

(** The loop ends on two adjacent indices that bracket [t]. *)
Lemma findSegment_bracket buf t lo hi :
  (lo < hi)%nat -> ptT buf lo <= t -> t < ptT buf hi ->
  exists l, findSegment buf t lo hi = (l, S l) /\
            (lo <= l)%nat /\ (S l <= hi)%nat /\
            ptT buf l <= t /\ t < ptT buf (S l).
Proof.
  funelim (findSegment buf t lo hi); intros Hlt Hlo Hhi.
  - exists lo. replace hi with (S lo) in * by lia. repeat split; auto; lia.
  - assert (Hmid : (lo < Nat.div2 (lo + hi) < hi)%nat).
    { pose proof (Nat.div2_odd (lo + hi)) as E.
      destruct (Nat.odd (lo + hi)); cbn in E; lia. }
    destruct (H ltac:(lia) ltac:(assumption) Hhi) as (x & E & B1 & B2 & B3 & B4).
    exists x. repeat split; auto; lia.
  - assert (Hmid : (lo < Nat.div2 (lo + hi) < hi)%nat).
    { pose proof (Nat.div2_odd (lo + hi)) as E.
      destruct (Nat.odd (lo + hi)); cbn in E; lia. }
    destruct (H ltac:(lia) Hlo ltac:(lra)) as (x & E & B1 & B2 & B3 & B4).
    exists x. repeat split; auto; lia.
Qed.

(** The initial tangent is a non-negative multiple of the secant. *)
Lemma initialTangent_ratio atEnd dOuter delta :
  exists a, 0 <= a /\ initialTangent atEnd dOuter delta = a * delta.
Proof.
  unfold initialTangent. destruct atEnd.
  - exists 1. split; [lra | ring].
  - destruct (Rle_dec (dOuter * delta) 0) as [_ | Hpos].
    + exists 0. split; [lra | ring].
    + assert (Hd : delta <> 0) by (intros ->; apply Hpos; lra).
      exists ((dOuter / delta + 1) / 2). split.
      * assert (0 < dOuter / delta).
        { replace (dOuter / delta) with (dOuter * delta * (/ delta * / delta))
            by (field; exact Hd).
          apply Rmult_lt_0_compat; [lra |].
          replace (/ delta * / delta) with (Rsqr (/ delta)) by reflexivity.
          apply Rsqr_pos_lt. apply Rinv_neq_0_compat. exact Hd. }
        lra.
      * field. exact Hd.
Qed.

(** After the constraint both tangents are multiples of the secant by
    factors in [0,3]. *)
Lemma fritschCarlson_ratio delta a b :
  0 <= a -> 0 <= b ->
  exists a' b', 0 <= a' <= 3 /\ 0 <= b' <= 3 /\
    fritschCarlson delta (a * delta) (b * delta) = (a' * delta, b' * delta).
Proof.
  intros Ha Hb. unfold fritschCarlson.
  destruct (Req_dec_T delta 0) as [-> | Hd].
  - exists 0, 0. repeat split; try lra. f_equal; ring.
  - replace (a * delta / delta) with a by (field; exact Hd).
    replace (b * delta / delta) with b by (field; exact Hd).
    destruct (Rlt_dec 9 (a * a + b * b)) as [Hbig | Hsmall].
    + set (s2 := a * a + b * b) in *.
      assert (Hs2 : 0 < s2) by lra.
      assert (Hq : 0 < sqrt s2) by (apply sqrt_lt_R0; exact Hs2).
      assert (Hqa : a <= sqrt s2).
      { rewrite <- (sqrt_square a) at 1 by exact Ha.
        apply sqrt_le_1_alt. unfold s2. nra. }
      assert (Hqb : b <= sqrt s2).
      { rewrite <- (sqrt_square b) at 1 by exact Hb.
        apply sqrt_le_1_alt. unfold s2. nra. }
      assert (Hinv : 0 < / sqrt s2) by (apply Rinv_0_lt_compat; exact Hq).
      exists (3 / sqrt s2 * a), (3 / sqrt s2 * b).
      assert (Ba : a * / sqrt s2 <= 1).
      { apply Rmult_le_reg_r with (sqrt s2); [exact Hq |].
        rewrite Rmult_assoc, Rinv_l by lra. lra. }
      assert (Bb : b * / sqrt s2 <= 1).
      { apply Rmult_le_reg_r with (sqrt s2); [exact Hq |].
        rewrite Rmult_assoc, Rinv_l by lra. lra. }
      assert (0 <= a * / sqrt s2) by (apply Rmult_le_pos; lra).
      assert (0 <= b * / sqrt s2) by (apply Rmult_le_pos; lra).
      unfold Rdiv. repeat split; try nra.
    + exists a, b. repeat split; try nra.
Qed.

(** Between its end points the constrained Hermite cubic stays between
    the two end values. *)
Lemma hermite_between v0 v1 seg a b u :
  0 < seg -> 0 <= a <= 3 -> 0 <= b <= 3 -> 0 <= u <= 1 ->
  Rmin v0 v1 <=
    hermite v0 v1 seg (a * ((v1 - v0) / seg)) (b * ((v1 - v0) / seg)) u
  <= Rmax v0 v1.
Proof.
  intros Hseg Ha Hb Hu.
  set (q := 3 * u * u - 2 * u * u * u
            + a * (u * (1 - u) * (1 - u)) - b * (u * u * (1 - u))).
  assert (E : hermite v0 v1 seg (a * ((v1 - v0) / seg)) (b * ((v1 - v0) / seg)) u
              = v0 + (v1 - v0) * q).
  { unfold hermite, q. field. lra. }
  rewrite E.
  assert (Hw : 0 <= 1 - u) by lra.
  assert (P1 : 0 <= u * (1 - u)) by (apply Rmult_le_pos; lra).
  assert (P2 : 0 <= u * (1 - u) * (1 - u)) by (apply Rmult_le_pos; lra).
  assert (P3 : 0 <= u * u * (1 - u)) by (apply Rmult_le_pos; [nra | lra]).
  assert (P4 : 0 <= u * u * u) by (apply Rmult_le_pos; [nra | lra]).
  assert (P5 : 0 <= (1 - u) * (1 - u) * (1 - u)) by (apply Rmult_le_pos; [nra | lra]).
  assert (Q0 : 0 <= q).
  { assert (q = u * u * u + a * (u * (1 - u) * (1 - u)) + (3 - b) * (u * u * (1 - u)))
      as -> by (unfold q; ring).
    assert (0 <= a * (u * (1 - u) * (1 - u))) by (apply Rmult_le_pos; lra).
    assert (0 <= (3 - b) * (u * u * (1 - u))) by (apply Rmult_le_pos; lra).
    lra. }
  assert (Q1 : q <= 1).
  { assert (1 - q = (1 - u) * (1 - u) * (1 - u)
                    + (3 - a) * (u * (1 - u) * (1 - u)) + b * (u * u * (1 - u)))
      as Eq by (unfold q; ring).
    assert (0 <= (3 - a) * (u * (1 - u) * (1 - u))) by (apply Rmult_le_pos; lra).
    assert (0 <= b * (u * u * (1 - u))) by (apply Rmult_le_pos; lra).
    lra. }
  apply blend_between. lra.
Qed.

Lemma hermite_at_knot v0 v1 seg m0 m1 : hermite v0 v1 seg m0 m1 0 = v0.
Proof. unfold hermite. ring. Qed.

Lemma evalSegment_between buf count l t :
  ptT buf l < ptT buf (S l) ->
  ptT buf l <= t <= ptT buf (S l) ->
  Rmin (ptV buf l) (ptV buf (S l)) <= evalSegment buf count l (S l) t
    <= Rmax (ptV buf l) (ptV buf (S l)).
Proof.
  intros Hseg Ht. unfold evalSegment.
  destruct (Rle_dec (ptT buf (S l) - ptT buf l) 0) as [Hneg | _]; [lra |].
  set (seg := ptT buf (S l) - ptT buf l).
  assert (Hpos : 0 < seg) by (unfold seg; lra).
  set (delta := (ptV buf (S l) - ptV buf l) / seg).
  destruct (initialTangent_ratio (l =? 0)%nat
              (secantLeft buf l (ptT buf l) (ptV buf l) delta) delta)
    as (a & Ha & ->).
  destruct (initialTangent_ratio (S l =? count - 1)%nat
              (secantRight buf count (S l) (ptT buf (S l)) (ptV buf (S l)) delta) delta)
    as (b & Hb & ->).
  destruct (fritschCarlson_ratio delta a b Ha Hb) as (a' & b' & Ha' & Hb' & ->).
  cbn [fst snd]. unfold delta.
  apply hermite_between; try assumption.
  split.
  - apply Rmult_le_pos; [lra | left; apply Rinv_0_lt_compat; exact Hpos].
  - apply Rmult_le_reg_r with seg; [exact Hpos |].
    unfold Rdiv. rewrite Rmult_assoc, Rinv_l by lra. unfold seg. lra.
Qed.

Lemma evalSegment_at_knot buf count l :
  ptT buf l < ptT buf (S l) ->
  evalSegment buf count l (S l) (ptT buf l) = ptV buf l.
Proof.
  intros Hseg. unfold evalSegment.
  destruct (Rle_dec (ptT buf (S l) - ptT buf l) 0) as [Hneg | _]; [lra |].
  replace ((ptT buf l - ptT buf l) / (ptT buf (S l) - ptT buf l)) with 0
    by (unfold Rdiv; ring).
  apply hermite_at_knot.
Qed.

(** Where [interpolateAtTime] reaches the cubic, the segment found is the
    one bracketing [t]. *)
Lemma interpolateAtTime_inner buf count t :
  (0 < count)%nat -> ptT buf 0 < t -> t < ptT buf (count - 1) ->
  exists l, (S l < count)%nat /\ ptT buf l <= t /\ t < ptT buf (S l) /\
            interpolateAtTime buf count t = evalSegment buf count l (S l) t.
Proof.
  intros Hc H0 H1. unfold interpolateAtTime.
  destruct (Nat.eqb_spec count 0) as [-> | _]; [lia |].
  destruct (Rle_dec t (ptT buf 0)) as [Hle | _]; [lra |].
  destruct (Rge_dec t (ptT buf (count - 1))) as [Hge | _]; [lra |].
  assert (Hlt : (0 < count - 1)%nat).
  { destruct (Nat.eq_dec (count - 1) 0) as [E | E]; [rewrite E in H1; lra | lia]. }
  destruct (findSegment_bracket buf t 0 (count - 1) Hlt) as (l & E & _ & B & Tl & Th);
    [lra | exact H1 |].
  exists l. rewrite E. cbn [fst snd]. repeat split; try assumption. lia.
Qed.

(** C4. On a buffer with strictly increasing times, for a query time [t]
    between two adjacent samples [i] and [i+1], [interpolateAtTime] returns
    a value within [min(v_i, v_{i+1}) - eps, max(v_i, v_{i+1}) + eps]: the
    monotone cubic does not overshoot its two neighbouring points. *)
Theorem interpolateAtTime_no_overshoot :
  forall buf count i t eps,
    (2 * count <= length buf)%nat ->
    strictlyIncreasing buf count ->
    (S i < count)%nat ->
    ptT buf i <= t <= ptT buf (S i) ->
    0 <= eps ->
    Rmin (ptV buf i) (ptV buf (S i)) - eps
      <= interpolateAtTime buf count t
      <= Rmax (ptV buf i) (ptV buf (S i)) + eps.
Proof.
  intros buf count i t eps _ Hinc Hi Ht Heps.
  assert (Hin : Rmin (ptV buf i) (ptV buf (S i))
                <= interpolateAtTime buf count t
                <= Rmax (ptV buf i) (ptV buf (S i))).
  { destruct (Rle_dec t (ptT buf 0)) as [Hle | Hgt].
    - (* at or before the first sample: [i] is the first sample *)
      assert (i = 0)%nat as ->.
      { destruct (Nat.eq_dec i 0) as [E | E]; [exact E |].
        assert (ptT buf 0 < ptT buf i)
          by (apply (strictlyIncreasing_lt buf count); [assumption | lia | lia]).
        lra. }
      unfold interpolateAtTime.
      destruct (Nat.eqb_spec count 0); [lia |].
      destruct (Rle_dec t (ptT buf 0)); [| lra].
      split; [apply Rmin_l | apply Rmax_l].
    - destruct (Rge_dec t (ptT buf (count - 1))) as [Hge | Hlt].
      + (* at or after the last sample: [i+1] is the last sample *)
        assert (S i = count - 1)%nat as E.
        { destruct (Nat.eq_dec (S i) (count - 1)) as [E | E]; [exact E |].
          assert (ptT buf (S i) < ptT buf (count - 1))
            by (apply (strictlyIncreasing_lt buf count); [assumption | lia | lia]).
          lra. }
        unfold interpolateAtTime.
        destruct (Nat.eqb_spec count 0); [lia |].
        destruct (Rle_dec t (ptT buf 0)); [lra |].
        destruct (Rge_dec t (ptT buf (count - 1))); [| lra].
        rewrite <- E. split; [apply Rmin_r | apply Rmax_r].
      + destruct (interpolateAtTime_inner buf count t) as (l & Hl & Tl & Th & ->);
          [lia | lra | lra |].
        assert (Lge : (i <= l)%nat).
        { destruct (le_lt_dec i l) as [L | L]; [exact L |].
          assert (ptT buf (S l) <= ptT buf i)
            by (apply (strictlyIncreasing_le buf count); [assumption | lia | lia]).
          lra. }
        assert (Lle : (l <= S i)%nat).
        { destruct (le_lt_dec l (S i)) as [L | L]; [exact L |].
          assert (ptT buf (S i) < ptT buf l)
            by (apply (strictlyIncreasing_lt buf count); [assumption | lia | lia]).
          lra. }
        destruct (Nat.eq_dec l i) as [-> | Hne].
        * apply evalSegment_between; [apply Hinc; lia | lra].
        * assert (l = S i) as -> by lia.
          assert (t = ptT buf (S i)) as -> by lra.
          rewrite evalSegment_at_knot by lra.
          split; [apply Rmin_r | apply Rmax_r]. }
  lra.
Qed.

Lemma sampleBuffer_increasing : strictlyIncreasing sampleBuffer 3.
Proof.
  intros i Hi. unfold sampleBuffer, ptT.
  destruct i as [| [| i]]; simpl; try lra; lia.
Qed.

Lemma interpolateAtTime_no_overshoot_witness :
  Rmin (ptV sampleBuffer 0) (ptV sampleBuffer 1) - 0
    <= interpolateAtTime sampleBuffer 3 (1 / 2)
    <= Rmax (ptV sampleBuffer 0) (ptV sampleBuffer 1) + 0.
Proof.
  apply (interpolateAtTime_no_overshoot sampleBuffer 3 0 (1 / 2) 0).
  - simpl. lia.
  - apply sampleBuffer_increasing.
  - lia.
  - unfold sampleBuffer, ptT. simpl. lra.
  - lra.
Defined.

(** C5. On a buffer with strictly increasing times, [interpolateAtTime]
    evaluated at the time of sample [i] returns the value of sample [i];
    a time at or before the first sample returns the first value and a
    time at or after the last sample returns the last value. *)
Theorem interpolateAtTime_knots :
  forall buf count i tBefore tAfter,
    (2 * count <= length buf)%nat ->
    strictlyIncreasing buf count ->
    (i < count)%nat ->
    tBefore <= ptT buf 0 ->
    ptT buf (count - 1) <= tAfter ->
    interpolateAtTime buf count (ptT buf i) = ptV buf i /\
    interpolateAtTime buf count tBefore = ptV buf 0 /\
    interpolateAtTime buf count tAfter = ptV buf (count - 1).
Proof.
  intros buf count i tb ta _ Hinc Hi Hb Ha.
  assert (Hfirst : forall t, t <= ptT buf 0 -> interpolateAtTime buf count t = ptV buf 0).
  { intros t Ht. unfold interpolateAtTime.
    destruct (Nat.eqb_spec count 0); [lia |].
    destruct (Rle_dec t (ptT buf 0)); [reflexivity | lra]. }
  assert (Hlast : forall t, ptT buf (count - 1) <= t ->
                            interpolateAtTime buf count t = ptV buf (count - 1)).
  { intros t Ht. unfold interpolateAtTime.
    destruct (Nat.eqb_spec count 0); [lia |].
    destruct (Rle_dec t (ptT buf 0)) as [Hle | _].
    - destruct (Nat.eq_dec (count - 1) 0) as [-> | E]; [reflexivity |].
      assert (ptT buf 0 < ptT buf (count - 1))
        by (apply (strictlyIncreasing_lt buf count); [assumption | lia | lia]).
      lra.
    - destruct (Rge_dec t (ptT buf (count - 1))); [reflexivity | lra]. }
  split; [| split; [apply Hfirst; exact Hb | apply Hlast; exact Ha]].
  destruct (Nat.eq_dec i 0) as [-> | Hi0]; [apply Hfirst; lra |].
  destruct (Nat.eq_dec i (count - 1)) as [-> | Hil]; [apply Hlast; lra |].
  destruct (interpolateAtTime_inner buf count (ptT buf i)) as (l & Hl & Tl & Th & ->).
  - lia.
  - apply (strictlyIncreasing_lt buf count); [assumption | lia | lia].
  - apply (strictlyIncreasing_lt buf count); [assumption | lia | lia].
  - assert (l = i) as ->.
    { destruct (lt_eq_lt_dec l i) as [[L | E] | L]; [| exact E |].
      - assert (ptT buf (S l) <= ptT buf i)
          by (apply (strictlyIncreasing_le buf count); [assumption | lia | lia]).
        lra.
      - assert (ptT buf i < ptT buf l)
          by (apply (strictlyIncreasing_lt buf count); [assumption | lia | lia]).
        lra. }
    apply evalSegment_at_knot. lra.
Qed.

Lemma interpolateAtTime_knots_witness :
  interpolateAtTime sampleBuffer 3 (ptT sampleBuffer 1) = ptV sampleBuffer 1 /\
  interpolateAtTime sampleBuffer 3 (-1) = ptV sampleBuffer 0 /\
  interpolateAtTime sampleBuffer 3 5 = ptV sampleBuffer (3 - 1).
Proof.
  apply (interpolateAtTime_knots sampleBuffer 3 1 (-1) 5).
  - simpl. lia.
  - apply sampleBuffer_increasing.
  - lia.
  - unfold sampleBuffer, ptT. simpl. lra.
  - unfold sampleBuffer, ptT. simpl. lra.
Defined.

(** ** The target range *)

Lemma scanExtremes_fold vs mn mx :
  mn <= mx ->
  exists lo hi,
    fold_left
      (fun acc v =>
         (if js_lt v (fst acc) then Fin v else fst acc,
          if js_gt v (snd acc) then Fin v else snd acc))
      vs (Fin mn, Fin mx) = (Fin lo, Fin hi) /\
    lo <= mn /\ mx <= hi /\ lo <= hi /\
    Forall (fun v => lo <= v <= hi) vs /\
    (lo = mn \/ In lo vs) /\ (hi = mx \/ In hi vs).
Proof.
  revert mn mx. induction vs as [| v vs IH]; intros mn mx Hle.
  - exists mn, mx. cbn. repeat split; auto; lra.
  - cbn [fold_left fst snd js_lt js_gt].
    destruct (Rlt_dec v mn) as [L | L]; destruct (Rlt_dec mx v) as [G | G].
    + lra.
    + destruct (IH v mx) as (lo & hi & E & B1 & B2 & B3 & B4 & B5 & B6); [lra |].
      exists lo, hi. rewrite E. repeat split; try lra.
      * constructor; [lra | exact B4].
      * right. destruct B5 as [-> | I]; [left; reflexivity | right; exact I].
      * destruct B6 as [-> | I]; [left; reflexivity | right; right; exact I].
    + destruct (IH mn v) as (lo & hi & E & B1 & B2 & B3 & B4 & B5 & B6); [lra |].
      exists lo, hi. rewrite E. repeat split; try lra.
      * constructor; [lra | exact B4].
      * destruct B5 as [-> | I]; [left; reflexivity | right; right; exact I].
      * right. destruct B6 as [-> | I]; [left; reflexivity | right; exact I].
    + destruct (IH mn mx) as (lo & hi & E & B1 & B2 & B3 & B4 & B5 & B6); [lra |].
      exists lo, hi. rewrite E. repeat split; try lra.
      * constructor; [lra | exact B4].
      * destruct B5 as [-> | I]; [left; reflexivity | right; right; exact I].
      * destruct B6 as [-> | I]; [left; reflexivity | right; right; exact I].
Qed.

(** A scan over at least one value ends on the least and greatest value. *)
Lemma scanExtremes_nonempty vs :
  vs <> [] ->
  exists lo hi, scanExtremes vs = (Fin lo, Fin hi) /\ lo <= hi /\
                Forall (fun v => lo <= v <= hi) vs /\ In lo vs /\ In hi vs.
Proof.
  destruct vs as [| v vs]; [congruence | intros _].
  unfold scanExtremes. cbn [fold_left fst snd js_lt js_gt].
  destruct (scanExtremes_fold vs v v) as (lo & hi & E & B1 & B2 & B3 & B4 & B5 & B6);
    [lra |].
  exists lo, hi. rewrite E. repeat split; try assumption.
  - constructor; [lra | exact B4].
  - destruct B5 as [-> | I]; [left; reflexivity | right; exact I].
  - destruct B6 as [-> | I]; [left; reflexivity | right; exact I].
Qed.

(** The extent holds every visible value and the current value. *)
Lemma dataExtent_contains buf count first last cur ref :
  visibleValues buf count first last <> [] ->
  let ext := dataExtent buf count first last cur ref in
  fst ext <= snd ext /\
  fst ext <= cur <= snd ext /\
  Forall (fun v => fst ext <= v <= snd ext) (visibleValues buf count first last).
Proof.
  intros Hne. unfold dataExtent.
  destruct (scanExtremes_nonempty _ Hne) as (lo & hi & -> & Hle & Hall & _ & _).
  cbn [fst snd].
  assert (W : forall a b, a <= lo -> hi <= b ->
            Forall (fun v => a <= v <= b) (visibleValues buf count first last)).
  { intros a b Ha Hb. eapply Forall_impl; [| exact Hall].
    cbn. intros v Hv. lra. }
  destruct ref as [r | | |]; cbn [fst snd];
    destruct (Rlt_dec cur lo); destruct (Rlt_dec hi cur);
    repeat match goal with
      | |- context [Rlt_dec ?a ?b] => destruct (Rlt_dec a b)
      end;
    (split; [lra | split; [lra | apply W; lra]]).
Qed.

Lemma widenRange_covers min max exaggerate :
  min <= max ->
  let out := widenRange min max exaggerate in
  range_min out <= min /\ max <= range_max out /\
  (range_min out + range_max out) / 2 = (min + max) / 2 /\
  (exaggerate = false ->
   Rmax ((max - min) * (1 / 10)) (4 / 10) <= range_max out - range_min out).
Proof.
  intros Hle. unfold widenRange.
  destruct exaggerate; split_cmp; cbn [range_min range_max];
    repeat split; try lra; intros; try discriminate; lra.
Qed.

Lemma visibleValues_nonempty buf count first last :
  (0 <= first <= last)%Z -> (first < Z.of_nat count)%Z ->
  visibleValues buf count first last <> [].
Proof.
  intros Hfl Hfc. unfold visibleValues, visibleIndices.
  remember (Z.to_nat (Z.min last (Z.of_nat count - 1) - first + 1)) as n eqn:En.
  destruct n as [| n]; [lia | cbn; discriminate].
Qed.

Lemma Forall_eq_bounds (v lo hi : R) (vs : list R) :
  Forall (eq v) vs -> In lo vs -> In hi vs -> lo = v /\ hi = v.
Proof.
  intros Hall Hlo Hhi. rewrite Forall_forall in Hall.
  split; symmetry; apply Hall; assumption.
Qed.

(** A flat window whose displayed value and reference agree with it has
    the extent [v, v]. *)
Lemma dataExtent_flat buf count first last v ref :
  visibleValues buf count first last <> [] ->
  Forall (eq v) (visibleValues buf count first last) ->
  ref = Fin v \/ isFinite ref = false ->
  dataExtent buf count first last v ref = (v, v).
Proof.
  intros Hne Hflat Href. unfold dataExtent.
  destruct (scanExtremes_nonempty _ Hne) as (lo & hi & -> & _ & _ & Ilo & Ihi).
  destruct (Forall_eq_bounds v lo hi _ Hflat Ilo Ihi) as [-> ->].
  cbn [fst snd].
  destruct (Rlt_dec v v); [lra |].
  destruct Href as [-> | Hnf].
  - destruct (Rlt_dec v v); [lra | reflexivity].
  - destruct ref; [discriminate | reflexivity ..].
Qed.

(** C7 (amended). With at least one visible sample, the target range holds
    every visible value and the current displayed value; in normal mode its
    span is at least [max(rawRange * 0.1, 0.4)], hence at least 0.4; it is
    centred on the midpoint of the data extent, which for flat data whose
    displayed value (and reference value, if finite) equals the flat value
    [v] makes it exactly [v - 0.2, v + 0.2]. *)
Theorem computeRangeFromVisible_target :
  forall buf count first last cur ref exaggerate v,
    (2 * count <= length buf)%nat ->
    (0 <= first <= last)%Z -> (first < Z.of_nat count)%Z ->
    let out := computeRangeFromVisible buf count first last cur ref exaggerate in
    let ext := dataExtent buf count first last cur ref in
    let rawRange := snd ext - fst ext in
    Forall (fun x => range_min out <= x <= range_max out)
           (visibleValues buf count first last) /\
    range_min out <= cur <= range_max out /\
    (range_min out + range_max out) / 2 = (fst ext + snd ext) / 2 /\
    (exaggerate = false ->
       Rmax (rawRange * (1 / 10)) (4 / 10) <= range_max out - range_min out /\
       4 / 10 <= range_max out - range_min out) /\
    (exaggerate = false ->
     Forall (eq v) (visibleValues buf count first last) ->
     cur = v -> ref = Fin v \/ isFinite ref = false ->
       out = mkRange (v - 2 / 10) (v + 2 / 10)).
Proof.
  intros buf count first last cur ref exaggerate v _ Hfl Hfc out ext rawRange.
  pose proof (visibleValues_nonempty buf count first last Hfl Hfc) as Hne.
  destruct (dataExtent_contains buf count first last cur ref Hne) as (Hle & Hcur & Hall).
  fold ext in Hle, Hcur, Hall.
  destruct (widenRange_covers (fst ext) (snd ext) exaggerate Hle) as (Wlo & Whi & Wmid & Wspan).
  change (widenRange (fst ext) (snd ext) exaggerate) with out in *.
  repeat split.
  - eapply Forall_impl; [| exact Hall]. cbn. intros x Hx. lra.
  - lra.
  - lra.
  - exact Wmid.
  - apply Wspan. assumption.
  - match goal with H : exaggerate = false |- _ => specialize (Wspan H) end.
    eapply Rle_trans; [apply Rmax_r | exact Wspan].
  - intros -> Hflat -> Href. unfold out, computeRangeFromVisible.
    rewrite dataExtent_flat by assumption. cbn [fst snd].
    unfold widenRange. split_cmp; try lra; f_equal; lra.
Qed.

Lemma flatBuffer_values : visibleValues flatBuffer 5 0 4 = [100; 100; 100; 100; 100].
Proof. reflexivity. Qed.

Lemma computeRangeFromVisible_target_witness :
  let out := computeRangeFromVisible flatBuffer 5 0 4 100 NaN false in
  let ext := dataExtent flatBuffer 5 0 4 100 NaN in
  let rawRange := snd ext - fst ext in
  Forall (fun x => range_min out <= x <= range_max out)
         (visibleValues flatBuffer 5 0 4) /\
  range_min out <= 100 <= range_max out /\
  (range_min out + range_max out) / 2 = (fst ext + snd ext) / 2 /\
  (false = false ->
     Rmax (rawRange * (1 / 10)) (4 / 10) <= range_max out - range_min out /\
     4 / 10 <= range_max out - range_min out) /\
  (false = false ->
   Forall (eq 100) (visibleValues flatBuffer 5 0 4) ->
   100 = 100 -> NaN = Fin 100 \/ isFinite NaN = false ->
     out = mkRange (100 - 2 / 10) (100 + 2 / 10)).
Proof.
  apply (computeRangeFromVisible_target flatBuffer 5 0 4 100 NaN false 100).
  - simpl. lia.
  - lia.
  - simpl. lia.
Defined.

Lemma oneSample_values : visibleValues oneSampleBuffer 1 0 0 = [100].
Proof. reflexivity. Qed.

Lemma oneSample_range :
  computeRangeFromVisible oneSampleBuffer 1 0 0 (1003 / 10) NaN false
  = mkRange (9995 / 100) (10035 / 100).
Proof.
  unfold computeRangeFromVisible, dataExtent. rewrite oneSample_values.
  unfold scanExtremes. cbn [fold_left fst snd js_lt js_gt].
  destruct (Rlt_dec 100 100); [lra |].
  cbn [fst snd].
  destruct (Rlt_dec (1003 / 10) 100); [lra |].
  destruct (Rlt_dec 100 (1003 / 10)); [| lra].
  cbn [fst snd]. unfold widenRange. split_cmp; try lra; f_equal; lra.
Qed.

(** C7, as stated, fails in its flat-data clause: one visible sample of
    value 100 with the displayed value at 100.3 gives the target range
    [99.95, 100.35], of span 0.4 but centred on 100.15; it does not reach
    down to 99.8. *)
Lemma computeRangeFromVisible_counterexample :
  let out := computeRangeFromVisible oneSampleBuffer 1 0 0 (1003 / 10) NaN false in
  Forall (eq 100) (visibleValues oneSampleBuffer 1 0 0) /\
  (range_min out + range_max out) / 2 <> 100 /\
  ~ (range_min out <= 100 - 2 / 10).
Proof.
  cbv zeta. rewrite oneSample_range, oneSample_values. cbn [range_min range_max].
  repeat split; [repeat constructor | lra | lra].
Qed.

(** ** The range advance *)

(** With a speed the clamp can produce, the interpolation step written
    with the frame's [alpha] is the step of [alphaLerp]. *)
Lemma alphaLerp_frameAlpha from to speed pausedRatio :
  1 / 1000 <= speed <= 8 / 10 ->
  alphaLerp from to speed pausedRatio
  = Fin (from + (to - from) * frameAlpha speed pausedRatio).
Proof.
  intros Hs. unfold alphaLerp, frameAlpha, Math_pow.
  destruct (Req_dec_T pausedRatio 0) as [-> | Hne].
  - destruct (Rle_dec 0 0); [| lra]. cbn. unfold clamp.
    rewrite Rminus_diag. rewrite Rmax_left by lra. rewrite Rmin_right by lra.
    reflexivity.
  - destruct (Rlt_dec 0 (1 - speed)) as [_ | N]; [| lra]. cbn.
    assert (Hln : ln (1 - speed) < 0) by (rewrite <- ln_1; apply ln_increasing; lra).
    destruct (Rle_dec pausedRatio 0) as [Hneg | Hpos].
    + assert (1 <= Rpower (1 - speed) pausedRatio).
      { assert (E : exp 0 < exp (pausedRatio * ln (1 - speed))).
        { apply exp_increasing.
          replace (pausedRatio * ln (1 - speed))
            with ((- pausedRatio) * (- ln (1 - speed))) by ring.
          apply Rmult_lt_0_compat; lra. }
        rewrite exp_0 in E. unfold Rpower. lra. }
      unfold clamp. rewrite Rmax_left by lra. rewrite Rmin_right by lra.
      reflexivity.
    + assert (0 < Rpower (1 - speed) pausedRatio) by apply exp_pos.
      assert (Rpower (1 - speed) pausedRatio < 1).
      { assert (E : exp (pausedRatio * ln (1 - speed)) < exp 0).
        { apply exp_increasing.
          assert (0 < pausedRatio * (- ln (1 - speed)))
            by (apply Rmult_lt_0_compat; lra).
          lra. }
        rewrite exp_0 in E. unfold Rpower. lra. }
      unfold clamp. rewrite Rmax_right by lra. rewrite Rmin_right by lra.
      reflexivity.
Qed.

Lemma snapOrLerpMin_cases cur tgt th alpha :
  0 < th ->
  (th < cur - tgt -> snapOrLerpMin cur tgt th alpha = tgt) /\
  (~ th < cur - tgt -> snapOrLerpMin cur tgt th alpha = cur + (tgt - cur) * alpha).
Proof.
  intros Hth. unfold snapOrLerpMin.
  destruct (Rlt_dec tgt cur); destruct (Rlt_dec th (cur - tgt)); split; intros; lra.
Qed.

Lemma snapOrLerpMax_cases cur tgt th alpha :
  0 < th ->
  (th < tgt - cur -> snapOrLerpMax cur tgt th alpha = tgt) /\
  (~ th < tgt - cur -> snapOrLerpMax cur tgt th alpha = cur + (tgt - cur) * alpha).
Proof.
  intros Hth. unfold snapOrLerpMax.
  destruct (Rlt_dec cur tgt); destruct (Rlt_dec th (tgt - cur)); split; intros; lra.
Qed.

Lemma settle_at_target tgt th : settle tgt tgt th = tgt.
Proof. unfold settle. destruct (Rlt_dec _ _); reflexivity. Qed.

(** C6 (amended). After initialization each bound of the Y-range advances
    asymmetrically.  If the target minimum lies below the current minimum
    by more than half the current span (the span floored at 1e-6), the
    next minimum is the target minimum on that tick, and symmetrically for
    the maximum.  Otherwise the bound takes the value of the exponential
    interpolation step toward the target, except that it is set to the
    target itself when that value lies within the sub-pixel threshold
    (half a pixel of range) of the target. *)
Theorem advanceRange_asymmetry :
  forall lerpSpeed targetValue curDisplay curRangeMin curRangeMax
         rangeOut pausedRatio innerHeight,
    let speed := adaptiveSpeed lerpSpeed targetValue curDisplay curRangeMin curRangeMax in
    let alpha := frameAlpha speed pausedRatio in
    let rng := currentRange curRangeMin curRangeMax in
    let threshold := settleThreshold rng innerHeight in
    let next := advanceRange true curRangeMin curRangeMax rangeOut alpha innerHeight in
    let lerpMin := curRangeMin + (range_min rangeOut - curRangeMin) * alpha in
    let lerpMax := curRangeMax + (range_max rangeOut - curRangeMax) * alpha in
    (rng * (5 / 10) < curRangeMin - range_min rangeOut ->
       fst next = range_min rangeOut) /\
    (rng * (5 / 10) < range_max rangeOut - curRangeMax ->
       snd next = range_max rangeOut) /\
    (~ rng * (5 / 10) < curRangeMin - range_min rangeOut ->
       alphaLerp curRangeMin (range_min rangeOut) speed pausedRatio = Fin lerpMin /\
       fst next = (if Rlt_dec (Rabs (lerpMin - range_min rangeOut)) threshold
                   then range_min rangeOut else lerpMin)) /\
    (~ rng * (5 / 10) < range_max rangeOut - curRangeMax ->
       alphaLerp curRangeMax (range_max rangeOut) speed pausedRatio = Fin lerpMax /\
       snd next = (if Rlt_dec (Rabs (lerpMax - range_max rangeOut)) threshold
                   then range_max rangeOut else lerpMax)).
Proof.
  intros lerpSpeed targetValue curDisplay lo hi out pr ih
         speed alpha rng threshold next lerpMin lerpMax.
  pose proof (currentRange_pos lo hi) as Hrng. fold rng in Hrng.
  assert (Hth : 0 < rng * (5 / 10)) by lra.
  pose proof (adaptiveSpeed_range lerpSpeed targetValue curDisplay lo hi) as Hs.
  fold speed in Hs.
  destruct (snapOrLerpMin_cases lo (range_min out) _ alpha Hth) as [Smin Lmin].
  destruct (snapOrLerpMax_cases hi (range_max out) _ alpha Hth) as [Smax Lmax].
  unfold next, advanceRange. fold rng. cbn [fst snd].
  repeat split.
  - intros H. rewrite (Smin H). apply settle_at_target.
  - intros H. rewrite (Smax H). apply settle_at_target.
  - unfold lerpMin, alpha. apply alphaLerp_frameAlpha. exact Hs.
  - rewrite (Lmin H). reflexivity.
  - unfold lerpMax, alpha. apply alphaLerp_frameAlpha. exact Hs.
  - rewrite (Lmax H). reflexivity.
Qed.

Lemma frameAlpha_one_frame : frameAlpha (28 / 100) 1 = 28 / 100.
Proof.
  unfold frameAlpha. destruct (Rle_dec 1 0); [lra |].
  rewrite Rpower_1 by lra. lra.
Qed.

(** C6, as stated, fails in its second half: with the range [0,1] on a
    plot 100 pixels high and the target minimum at -0.001 (a small
    expansion), one 16.67 ms frame at speed 0.28 interpolates the minimum
    to -0.00028, but the engine sets it to the target -0.001. *)
Lemma advanceRange_counterexample :
  let alpha := frameAlpha (adaptiveSpeed (8 / 100) 0 0 0 1) 1 in
  let next := advanceRange true 0 1 (mkRange (-1 / 1000) 1) alpha 100 in
  ~ currentRange 0 1 * (5 / 10) < 0 - (-1 / 1000) /\
  fst next = -1 / 1000 /\
  fst next <> 0 + (-1 / 1000 - 0) * alpha.
Proof.
  cbv zeta. rewrite adaptiveSpeed_small_gap, frameAlpha_one_frame.
  assert (Hr : currentRange 0 1 = 1) by (unfold currentRange; split_cmp; lra).
  assert (E : fst (advanceRange true 0 1 (mkRange (-1 / 1000) 1) (28 / 100) 100)
              = -1 / 1000).
  { unfold advanceRange. rewrite Hr. cbn [fst range_min].
    unfold snapOrLerpMin, settleThreshold, settle, VALUE_SNAP_THRESHOLD.
    split_cmp; lra. }
  rewrite E, Hr. repeat split; lra.
Qed.

(** ** The candle width morph *)

Lemma cosineEase_unit t : 0 <= cosineEase t <= 1.
Proof. unfold cosineEase. pose proof (COS_bound (t * PI)). lra. Qed.

Lemma cosineEase_half : cosineEase (1 / 2) = 1 / 2.
Proof.
  unfold cosineEase. replace (1 / 2 * PI) with (PI / 2) by lra.
  rewrite cos_PI2. lra.
Qed.

Lemma logLerp_1_4_half : logLerp 1 4 (1 / 2) = 2.
Proof.
  unfold logLerp. rewrite ln_1.
  replace 4 with (2 * 2) by lra. rewrite ln_mult by lra.
  replace (0 + (ln 2 + ln 2 - 0) * (1 / 2)) with (ln 2) by lra.
  apply exp_ln. lra.
Qed.

(** C9 (amended). During a candle-width-change morph the morph progress is
    the cosine ease of the elapsed fraction of a fixed 300 ms; the
    displayed Y-range endpoints are interpolated linearly between the
    old-width range and the new-width range,
    [bound = old + (new - old) * progress], while the displayed candle
    width is what is interpolated in log space.  At 300 ms the morph ends:
    the width is the new width and the range is the candle range. *)
Theorem widthMorph_range :
  forall m cWidthSecs nowRawMs cRangeMin cRangeMax tr,
    0 < morphStart m ->
    let elapsed := nowRawMs - morphStart m in
    let step := stepWidthMorph m cWidthSecs nowRawMs in
    let t := snd (fst step) in
    let width := snd step in
    let shown := morphCandleRange (fst (fst step)) t cRangeMin cRangeMax (Some tr) in
    (elapsed < CANDLE_WIDTH_TRANS_MS ->
       t = cosineEase (elapsed / CANDLE_WIDTH_TRANS_MS) /\
       0 <= t <= 1 /\
       width = logLerp (morphFrom m) (morphTo m) t /\
       snd (fst shown) = oldRangeMin m + (range_min tr - oldRangeMin m) * t /\
       snd shown = oldRangeMax m + (range_max tr - oldRangeMax m) * t) /\
    (CANDLE_WIDTH_TRANS_MS <= elapsed ->
       t = -1 /\ width = morphTo m /\
       snd (fst shown) = cRangeMin /\ snd shown = cRangeMax).
Proof.
  intros m w now lo hi tr Hstart elapsed step t width shown.
  unfold CANDLE_WIDTH_TRANS_MS in *.
  unfold shown, t, width, step, stepWidthMorph.
  destruct (Rlt_dec 0 (morphStart m)) as [_ | N]; [| lra].
  fold elapsed. unfold CANDLE_WIDTH_TRANS_MS. split; intros He.
  - rewrite Rmin_left by lra.
    destruct (Rge_dec (elapsed / 300) 1) as [G | _]; [lra |].
    cbn [fst snd].
    pose proof (cosineEase_unit (elapsed / 300)) as Hu.
    unfold morphCandleRange.
    destruct (Rge_dec (cosineEase (elapsed / 300)) 0) as [_ | N]; [| lra].
    cbn. repeat split; lra.
  - rewrite Rmin_right by lra.
    destruct (Rge_dec 1 1) as [_ | N]; [| lra].
    cbn [fst snd]. unfold morphCandleRange.
    destruct (Rge_dec (-1) 0) as [G | _]; [lra |].
    cbn. repeat split; reflexivity.
Qed.

Lemma widthMorph_range_witness :
  let m := mkMorph 60 300 1000 0 1 2 0 0 in
  let elapsed := 1150 - morphStart m in
  let step := stepWidthMorph m 300 1150 in
  let t := snd (fst step) in
  let width := snd step in
  let shown := morphCandleRange (fst (fst step)) t 0 10 (Some (mkRange 4 8)) in
  (elapsed < CANDLE_WIDTH_TRANS_MS ->
     t = cosineEase (elapsed / CANDLE_WIDTH_TRANS_MS) /\
     0 <= t <= 1 /\
     width = logLerp (morphFrom m) (morphTo m) t /\
     snd (fst shown) = oldRangeMin m + (range_min (mkRange 4 8) - oldRangeMin m) * t /\
     snd shown = oldRangeMax m + (range_max (mkRange 4 8) - oldRangeMax m) * t) /\
  (CANDLE_WIDTH_TRANS_MS <= elapsed ->
     t = -1 /\ width = morphTo m /\
     snd (fst shown) = 0 /\ snd shown = 10).
Proof.
  apply (widthMorph_range (mkMorph 60 300 1000 0 1 2 0 0) 300 1150 0 10 (mkRange 4 8)).
  cbn. lra.
Defined.

(** C9, as stated, fails: halfway through a morph (150 ms, progress 1/2)
    from the old range minimum 1 to the new range minimum 4 the displayed
    minimum is 2.5, the linear mix; interpolation in log space would give
    [exp(log 1 + (log 4 - log 1) / 2) = 2]. *)
Lemma widthMorph_range_counterexample :
  let m := mkMorph 60 300 1000 0 1 2 0 0 in
  let step := stepWidthMorph m 300 1150 in
  let t := snd (fst step) in
  let shown := morphCandleRange (fst (fst step)) t 0 10 (Some (mkRange 4 8)) in
  t = 1 / 2 /\
  snd (fst shown) = 5 / 2 /\
  snd (fst shown) <> logLerp (oldRangeMin m) (range_min (mkRange 4 8)) t.
Proof.
  cbv zeta.
  assert (E : stepWidthMorph (mkMorph 60 300 1000 0 1 2 0 0) 300 1150
              = (mkMorph 60 300 1000 (1 / 2) 1 2 0 0, 1 / 2, logLerp 60 300 (1 / 2))).
  { unfold stepWidthMorph, CANDLE_WIDTH_TRANS_MS. cbn [morphStart morphFrom morphTo
      oldRangeMin oldRangeMax newRangeMin newRangeMax].
    destruct (Rlt_dec 0 1000); [| lra].
    replace (Rmin ((1150 - 1000) / 300) 1) with (1 / 2)
      by (rewrite Rmin_left by lra; lra).
    rewrite cosineEase_half.
    destruct (Rge_dec (1 / 2) 1); [lra | reflexivity]. }
  rewrite E. cbn [fst snd]. unfold morphCandleRange.
  destruct (Rge_dec (1 / 2) 0); [| lra].
  cbn. rewrite logLerp_1_4_half. repeat split; lra.
Qed.

(** ** Ingestion *)

Lemma comparesAfter_false a b : comparesAfter a b = false -> timeLe a b.
Proof.
  unfold comparesAfter, timeLe. intros H.
  apply Qle_bool_iff. destruct (Qle_bool (fst a) (fst b)); [reflexivity | discriminate].
Qed.

Lemma comparesAfter_true a b : comparesAfter a b = true -> timeLe b a.
Proof.
  unfold comparesAfter, timeLe. intros H.
  destruct (Qlt_le_dec (fst a) (fst b)) as [L | L]; [| exact L].
  apply Qlt_le_weak in L. apply Qle_bool_iff in L. rewrite L in H. discriminate.
Qed.

Lemma timeLe_trans a b c : timeLe a b -> timeLe b c -> timeLe a c.
Proof. unfold timeLe. apply Qle_trans. Qed.

Lemma insertByTime_perm x l : Permutation (x :: l) (insertByTime x l).
Proof.
  induction l as [| y l IH]; cbn; [reflexivity |].
  destruct (comparesAfter x y); [| reflexivity].
  rewrite perm_swap. apply perm_skip. exact IH.
Qed.


Lemma insertByTime_sorted x l :
  StronglySorted timeLe l -> StronglySorted timeLe (insertByTime x l).
Proof.
  induction 1 as [| y l Hs IH Hy]; cbn.
  - repeat constructor.
  - destruct (comparesAfter x y) eqn:E.
    + constructor; [exact IH |].
      apply comparesAfter_true in E.
      eapply Permutation_Forall; [apply insertByTime_perm |].
      constructor; assumption.
    + apply comparesAfter_false in E.
      constructor; [constructor; assumption |].
      constructor; [exact E |].
      eapply Forall_impl; [| exact Hy]. intros z Hz.
      eapply timeLe_trans; eassumption.
Qed.

Lemma sortByTime_sorted l : StronglySorted timeLe (sortByTime l).
Proof.
  induction l as [| x l IH]; cbn; [constructor | apply insertByTime_sorted; exact IH].
Qed.

Lemma skipn_sorted {A} (R : A -> A -> Prop) n l :
  StronglySorted R l -> StronglySorted R (skipn n l).
Proof.
  revert l. induction n as [| n IH]; intros l Hs; [exact Hs |].
  destruct l as [| x l]; [constructor |].
  cbn. apply IH. inversion Hs; assumption.
Qed.


Lemma capPoints_suffix clean :
  capPoints clean = skipn (length clean - MAX_POINTS) clean /\
  (length (capPoints clean) = Nat.min (length clean) MAX_POINTS)%nat.
Proof.
  unfold capPoints. destruct (Nat.ltb_spec MAX_POINTS (length clean)) as [L | L].
  - split; [reflexivity |]. rewrite length_skipn. lia.
  - replace (length clean - MAX_POINTS)%nat with 0%nat by lia. cbn. split; [reflexivity | lia].
Qed.





(** ** The frame callback: snapshot, advance, render, commit *)

Lemma lerpStep_finite from to speed dtRatio :
  speed < 1 -> alphaLerp from to speed dtRatio = Fin (lerpStep from to speed dtRatio).
Proof.
  intros Hs. unfold lerpStep.
  destruct (alphaLerp_cases from to speed dtRatio) as [[_ HN] | (a & _ & ->)].
  - apply Math_pow_NaN_inv in HN. lra.
  - reflexivity.
Qed.

Lemma Forall_app_intro {A} (P : A -> Prop) l1 l2 :
  Forall P l1 -> Forall P l2 -> Forall P (l1 ++ l2).
Proof. intros H1 H2. apply Forall_app. split; assumption. Qed.

Lemma seriesEffects_render i slots series inp lo span x :
  Forall (fun e => isCommit e = false /\ builtWithRange lo span e)
         (seriesEffects i slots series inp lo span x).
Proof.
  revert i series. induction slots as [| slot slots IH]; intros i series; cbn.
  - constructor.
  - destruct series as [| ser series]; [constructor |].
    apply Forall_app. split; [| apply IH].
    destruct (Rlt_dec (slot_alpha slot) (1 / 100)); [constructor |].
    destruct (ser_count ser =? 0)%nat; [constructor |].
    repeat constructor.
Qed.

Lemma candlePipeline_render inp s lo span lo' span' :
  Forall (fun e => isCommit e = false /\ builtWithRange lo' span' e)
         (cr_effects (candlePipeline inp s lo span)).
Proof.
  unfold candlePipeline. destruct (fi_isCandle inp); cbn [cr_effects]; [| constructor].
  repeat apply Forall_app_intro.
  - repeat constructor.
  - destruct (Rge_dec _ 0); repeat constructor.
  - destruct (fi_crosshairActive inp); [| constructor].
    destruct (fi_candleTarget inp); [| constructor].
    destruct (fi_hoveredClose inp); repeat constructor.
Qed.

Lemma multiPipeline_render inp s adv clo chi lo span x :
  Forall (fun e => isCommit e = false /\ builtWithRange lo span e)
         (mr_effects (multiPipeline inp s adv clo chi lo span x)).
Proof.
  unfold multiPipeline. destruct (fi_isMulti inp); cbn [mr_effects]; [| constructor].
  apply Forall_app. split; [apply seriesEffects_render |].
  destruct (fi_crosshairActive inp); repeat constructor.
Qed.

(** The multi-series pipeline replaces the next range only; what it
    renders does not depend on the next-frame values. *)
Lemma multiPipeline_effects_indep inp s adv adv' clo chi lo span x :
  mr_effects (multiPipeline inp s adv clo chi lo span x)
  = mr_effects (multiPipeline inp s adv' clo chi lo span x).
Proof. unfold multiPipeline. destruct (fi_isMulti inp); reflexivity. Qed.

Lemma multiPipeline_next inp s adv clo chi lo span x :
  nextDisplay (mr_next (multiPipeline inp s adv clo chi lo span x)) = nextDisplay adv /\
  (fi_isMulti inp = false ->
   mr_next (multiPipeline inp s adv clo chi lo span x) = adv).
Proof.
  unfold multiPipeline. destruct (fi_isMulti inp); cbn; split; auto; discriminate.
Qed.

Lemma renderPart_app render commits :
  Forall (fun e => isCommit e = false) render ->
  Forall (fun e => isCommit e = true) commits ->
  renderPart (render ++ commits) = render.
Proof.
  intros Hr Hc. unfold renderPart. rewrite filter_app.
  replace (filter (fun e => negb (isCommit e)) commits) with (@nil effect).
  - rewrite app_nil_r. apply forallb_filter_id. apply forallb_forall.
    rewrite Forall_forall in Hr. intros e He. rewrite (Hr e He). reflexivity.
  - symmetry. induction Hc as [| e l He _ IH]; cbn; [reflexivity |].
    rewrite He. exact IH.
Qed.

(** Membership in a concatenation, trying each segment in turn. *)
Ltac in_segments :=
  first [ apply in_or_app; left; left; reflexivity
        | apply in_or_app; right; in_segments ].

(** The render list of [renderAndCommit], with its properties. *)
Lemma renderAndCommit_shape inp s adv inited :
  exists render next,
    fst (renderAndCommit inp s adv inited)
    = render ++ [WriteSV DisplayValueSV (nextDisplay next);
                 WriteSV RangeMinSV (nextRangeMin next);
                 WriteSV RangeMaxSV (nextRangeMax next)] /\
    displayValueSV (snd (renderAndCommit inp s adv inited)) = nextDisplay next /\
    rangeMinSV (snd (renderAndCommit inp s adv inited)) = nextRangeMin next /\
    rangeMaxSV (snd (renderAndCommit inp s adv inited)) = nextRangeMax next /\
    Forall (fun e => isCommit e = false /\ builtWithRange (rangeMinSV s) (rangeSpanOf s) e)
           render /\
    nextDisplay next = nextDisplay adv /\
    (fi_isMulti inp = false -> next = adv) /\
    In (SetDot (dotXOf inp) (dotYOf inp s)) render /\
    In (LinePath (rangeMinSV s) (rangeSpanOf s) (liveXOf inp) (liveYOf inp s)) render /\
    (fi_showFill inp = true ->
     In (FillPath (rangeMinSV s) (rangeSpanOf s) (liveXOf inp) (liveYOf inp s)) render) /\
    (forall ref, fi_reference inp = Fin ref ->
     In (ReferencePath (fi_padTop inp
           + (1 - (ref - rangeMinSV s) / rangeSpanOf s) * innerHeightOf inp)) render) /\
    (forall adv' inited',
       renderPart (fst (renderAndCommit inp s adv' inited')) = render).
Proof.
  unfold renderAndCommit. cbn [fst snd displayValueSV rangeMinSV rangeMaxSV].
  match goal with
  | |- context [?r ++ [WriteSV DisplayValueSV _; _; _]] => set (render := r)
  end.
  set (multi := multiPipeline inp s adv (rangeMinSV s) (rangeMaxSV s) (rangeMinSV s)
                  (Rmax (1 / 1000000) (rangeMaxSV s - rangeMinSV s)) (liveXOf inp)).
  exists render, (mr_next multi).
  assert (Hrender : Forall (fun e => isCommit e = false /\
                      builtWithRange (rangeMinSV s) (rangeSpanOf s) e) render).
  { unfold render, rangeSpanOf.
    repeat apply Forall_app_intro;
      try apply candlePipeline_render; try apply multiPipeline_render;
      repeat match goal with
        | |- Forall _ (if ?c then _ else _) => destruct c
        | |- Forall _ (match ?c with _ => _ end) => destruct c
        end;
      repeat constructor. }
  destruct (multiPipeline_next inp s adv (rangeMinSV s) (rangeMaxSV s) (rangeMinSV s)
              (Rmax (1 / 1000000) (rangeMaxSV s - rangeMinSV s)) (liveXOf inp))
    as [Hnd Hne].
  repeat match goal with |- _ /\ _ => split end;
    try reflexivity; try assumption.
  - unfold render. in_segments.
  - unfold render, rangeSpanOf. in_segments.
  - intros Hfill. unfold render, rangeSpanOf. rewrite Hfill. in_segments.
  - intros ref Href. unfold render, rangeSpanOf. rewrite Href. in_segments.
  - intros adv' inited'.
    rewrite <- (multiPipeline_effects_indep inp s adv adv').
    fold multi. fold render.
    apply renderPart_app.
    + eapply Forall_impl; [| exact Hrender]. cbn. tauto.
    + repeat constructor.
Qed.

Lemma innerWidthOf_pos inp : 0 < innerWidthOf inp.
Proof. unfold innerWidthOf. split_cmp; lra. Qed.

Lemma innerHeightOf_pos inp : 0 < innerHeightOf inp.
Proof. unfold innerHeightOf. split_cmp; lra. Qed.

Lemma renderAndCommit_currentLine inp s adv inited :
  In (CurrentLine (clampedLiveYOf inp s)) (fst (renderAndCommit inp s adv inited)).
Proof.
  unfold renderAndCommit. cbn [fst].
  destruct (Rlt_dec 0 (innerWidthOf inp)) as [_ | N];
    [| pose proof (innerWidthOf_pos inp); lra].
  destruct (Rlt_dec 0 (innerHeightOf inp)) as [_ | N];
    [| pose proof (innerHeightOf_pos inp); lra].
  apply in_or_app. left. in_segments.
Qed.

Lemma frameCallback_renders inp s :
  0 < fi_width inp -> 0 < fi_height inp -> (0 < ptsCountOf (fi_pts inp))%nat ->
  frameCallback inp s = renderAndCommit inp s (advanceValueRange inp s) true.
Proof.
  intros Hw Hh Hc. unfold frameCallback.
  destruct (Rle_dec (fi_width inp) 0); [lra |].
  destruct (Rle_dec (fi_height inp) 0); [lra |].
  destruct (Nat.eqb_spec (ptsCountOf (fi_pts inp)) 0); [lia | reflexivity].
Qed.

(** *** The candle and series layers *)

Lemma seriesEffects_sound k slots series inp rm rs lx e :
  In e (seriesEffects k slots series inp rm rs lx) ->
  match e with
  | SeriesPath i lo span x y =>
      exists slot ser,
        (k <= i)%nat /\ nth_error slots (i - k) = Some slot /\
        nth_error series (i - k) = Some ser /\
        lo = rm /\ span = rs /\ x = lx /\
        y = fi_padTop inp
            + (1 - (slot_displayValue slot - rm) / Rmax rs (1 / 1000000))
              * innerHeightOf inp
  | SeriesDot i dx dy =>
      exists slot,
        (k <= i)%nat /\ nth_error slots (i - k) = Some slot /\
        (fi_chartReveal inp >= 1 ->
         dx = lx /\
         dy = clamp (fi_padTop inp
                     + (1 - (slot_displayValue slot - rm) / Rmax rs (1 / 1000000))
                       * innerHeightOf inp)
                    (fi_padTop inp) (fi_padTop inp + innerHeightOf inp))
  | _ => False
  end.
Proof.
  revert k series. induction slots as [| slot slots IH]; intros k series H;
    [contradiction |].
  destruct series as [| ser series]; [contradiction |].
  cbn [seriesEffects] in H. apply in_app_or in H. destruct H as [H | H].
  - destruct (Rlt_dec (slot_alpha slot) (1 / 100)); [contradiction |].
    destruct (ser_count ser =? 0)%nat; [contradiction |].
    cbn [In] in H. destruct H as [<- | [<- | []]].
    + exists slot, ser. rewrite Nat.sub_diag. cbn [nth_error].
      repeat split; try reflexivity; try lia.
    + exists slot. rewrite Nat.sub_diag. cbn [nth_error].
      split; [lia |]. split; [reflexivity |].
      intros Hr. destruct (Rlt_dec (fi_chartReveal inp) 1); [lra |].
      destruct (Rge_dec (fi_chartReveal inp) 1); [| contradiction].
      split; reflexivity.
  - specialize (IH (S k) series H).
    destruct e; try exact IH.
    + destruct IH as (sl & sr & Hk & Hs & Hr & Rest).
      exists sl, sr. replace (i - k)%nat with (S (i - S k)) by lia.
      cbn [nth_error]. repeat split; try tauto; try lia.
    + destruct IH as (sl & Hk & Hs & Rest).
      exists sl. replace (i - k)%nat with (S (i - S k)) by lia.
      cbn [nth_error]. repeat split; try tauto; try lia.
Qed.

Lemma seriesEffects_complete k slots series inp rm rs lx j slot ser :
  nth_error slots j = Some slot -> nth_error series j = Some ser ->
  ~ slot_alpha slot < 1 / 100 -> ser_count ser <> 0%nat ->
  In (SeriesPath (k + j) rm rs lx
        (fi_padTop inp
         + (1 - (slot_displayValue slot - rm) / Rmax rs (1 / 1000000))
           * innerHeightOf inp))
     (seriesEffects k slots series inp rm rs lx).
Proof.
  revert k series j. induction slots as [| sl slots IH]; intros k series j Hs Hr Ha Hc.
  - destruct j; discriminate.
  - destruct series as [| sr series]; [destruct j; discriminate |].
    cbn [seriesEffects]. apply in_or_app.
    destruct j as [| j].
    + cbn in Hs, Hr. injection Hs as ->. injection Hr as ->.
      left. destruct (Rlt_dec (slot_alpha slot) (1 / 100)); [contradiction |].
      destruct (Nat.eqb_spec (ser_count ser) 0); [contradiction |].
      rewrite Nat.add_0_r. left. reflexivity.
    + right. cbn in Hs, Hr.
      replace (k + S j)%nat with (S k + j)%nat by lia.
      apply IH; assumption.
Qed.

Lemma seriesEffects_not_candle k slots series inp rm rs lx e :
  In e (seriesEffects k slots series inp rm rs lx) -> isCandleEffect e = false.
Proof.
  intros H. apply seriesEffects_sound in H. destruct e; try contradiction; reflexivity.
Qed.

Lemma multiPipeline_not_candle inp s adv clo chi lo span x e :
  In e (mr_effects (multiPipeline inp s adv clo chi lo span x)) ->
  isCandleEffect e = false.
Proof.
  unfold multiPipeline. destruct (fi_isMulti inp); cbn [mr_effects]; [| contradiction].
  intros H. apply in_app_or in H. destruct H as [H | H].
  - eapply seriesEffects_not_candle. exact H.
  - destruct (fi_crosshairActive inp); [| contradiction].
    cbn [In] in H. destruct H as [<- | []]. reflexivity.
Qed.

Lemma candlePipeline_not_series inp s lo span e :
  In e (cr_effects (candlePipeline inp s lo span)) -> isSeriesEffect e = false.
Proof.
  unfold candlePipeline. destruct (fi_isCandle inp); cbn [cr_effects]; [| contradiction].
  intros H. apply in_app_or in H. destruct H as [H | H].
  - cbn [In] in H. destruct H as [<- | []]. reflexivity.
  - apply in_app_or in H. destruct H as [H | H].
    + destruct (Rge_dec _ 0); [| contradiction]. cbn [In] in H. destruct H as [<- | []]. reflexivity.
    + destruct (fi_crosshairActive inp); [| contradiction].
      destruct (fi_candleTarget inp); [| contradiction].
      destruct (fi_hoveredClose inp); [| contradiction].
      cbn [In] in H. destruct H as [<- | []]. reflexivity.
Qed.

(** What the candle pipeline renders, and what it leaves in the state. *)
Lemma candlePipeline_layer inp s rm rs :
  fi_isCandle inp = true ->
  let cr := candlePipeline inp s rm rs in
  let lo := fst (shownCandleRange inp s) in
  let span := Rmax (1 / 1000000) (snd (shownCandleRange inp s) - lo) in
  cr_rangeMin cr = fst (fst (candleAdvanceOf inp s)) /\
  cr_rangeMax cr = snd (fst (candleAdvanceOf inp s)) /\
  In (CandlePaths (snd (candleMorphOf inp s)) lo span) (cr_effects cr) /\
  (forall w l sp,
     In (CandlePaths w l sp) (cr_effects cr) \/ In (OldCandlePaths w l sp) (cr_effects cr) ->
     l = lo /\ sp = span) /\
  (forall y, In (CandleHoverY y) (cr_effects cr) -> fi_lineModeProg inp <= 1 / 2 ->
     exists close, fi_hoveredClose inp = Some close /\
       y = fi_padTop inp + (1 - (close - lo) / span) * innerHeightOf inp).
Proof.
  intros Hc. cbv zeta.
  unfold candlePipeline. rewrite Hc.
  cbn [cr_effects cr_rangeMin cr_rangeMax].
  unfold shownCandleRange, candleAdvanceOf, candleMorphOf. cbv zeta.
  cbn [fst snd].
  set (step := stepWidthMorph _ _ _).
  set (adv := advanceCandleRange _ _ _ _ _).
  set (shown := morphCandleRange _ _ _ _ _).
  split; [reflexivity |]. split; [reflexivity |].
  split; [left; reflexivity |].
  split.
  - intros w l sp [H | H].
    + cbn [app In] in H.
      destruct H as [H | H]; [injection H as <- <- <-; split; reflexivity |].
      apply in_app_or in H. destruct H as [H | H].
      * destruct (Rge_dec (snd (fst step)) 0); [| contradiction].
        cbn [In] in H; destruct H as [H | []]; discriminate.
      * destruct (fi_crosshairActive inp); [| contradiction].
        destruct (fi_candleTarget inp); [| contradiction].
        destruct (fi_hoveredClose inp); [| contradiction].
        cbn [In] in H; destruct H as [H | []]; discriminate.
    + cbn [app In] in H. destruct H as [H | H]; [discriminate |].
      apply in_app_or in H. destruct H as [H | H].
      * destruct (Rge_dec (snd (fst step)) 0); [| contradiction].
        cbn [In] in H. destruct H as [H | []]. injection H as <- <- <-. split; reflexivity.
      * destruct (fi_crosshairActive inp); [| contradiction].
        destruct (fi_candleTarget inp); [| contradiction].
        destruct (fi_hoveredClose inp); [| contradiction].
        cbn [In] in H; destruct H as [H | []]; discriminate.
  - intros y H Hline.
    cbn [app In] in H. destruct H as [H | H]; [discriminate |].
    apply in_app_or in H. destruct H as [H | H].
    + destruct (Rge_dec (snd (fst step)) 0); [| contradiction].
      cbn [In] in H; destruct H as [H | []]; discriminate.
    + destruct (fi_crosshairActive inp); [| contradiction].
      destruct (fi_candleTarget inp); [| contradiction].
      destruct (fi_hoveredClose inp) as [close |]; [| contradiction].
      cbn [In] in H. destruct H as [H | []]. injection H as <-.
      exists close. split; [reflexivity |].
      destruct (Rlt_dec (5 / 10) (fi_lineModeProg inp)); [lra | reflexivity].
Qed.

Lemma shownCandleRange_no_morph inp s :
  candleMorphTOf inp s < 0 ->
  shownCandleRange inp s
  = (fst (fst (candleAdvanceOf inp s)), snd (fst (candleAdvanceOf inp s))).
Proof.
  intros Ht. unfold shownCandleRange, morphCandleRange. cbv zeta.
  fold (candleMorphTOf inp s).
  destruct (Rge_dec (candleMorphTOf inp s) 0); [lra | reflexivity].
Qed.

(** Membership in the effects of a tick, one segment at a time. *)
Ltac in_segments_by H :=
  first [ apply in_or_app; left; exact H
        | apply in_or_app; right; in_segments_by H ].

Ltac close_segment Hin Hk :=
  repeat match type of Hin with
    | context [match ?c with _ => _ end] => destruct c
    end;
  cbn [In] in Hin;
  repeat match type of Hin with
    | _ \/ _ => destruct Hin as [Hin | Hin]
    end;
  try contradiction; subst; cbn in Hk; discriminate Hk.

Lemma renderAndCommit_candle_effects inp s adv inited e :
  isCandleEffect e = true ->
  (In e (fst (renderAndCommit inp s adv inited)) <->
   In e (cr_effects (candlePipeline inp s (rangeMinSV s) (rangeSpanOf s)))).
Proof.
  intros Hk. unfold renderAndCommit, rangeSpanOf. cbn [fst]. split.
  - intros Hin.
    repeat (apply in_app_or in Hin; destruct Hin as [Hin | Hin]);
      try exact Hin;
      try (apply multiPipeline_not_candle in Hin; congruence);
      close_segment Hin Hk.
  - intros Hin. apply in_or_app. left. in_segments_by Hin.
Qed.

Lemma renderAndCommit_series_effects inp s adv inited e :
  isSeriesEffect e = true ->
  (In e (fst (renderAndCommit inp s adv inited)) <->
   fi_isMulti inp = true /\
   In e (seriesEffects 0 (advancedSlotsOf inp s) (firstn MAX_SERIES (fi_series inp))
                       inp (rangeMinSV s) (rangeSpanOf s) (liveXOf inp))).
Proof.
  intros Hk.
  assert (Hm : forall e',
    In e' (mr_effects (multiPipeline inp s adv (rangeMinSV s) (rangeMaxSV s)
             (rangeMinSV s) (rangeSpanOf s) (liveXOf inp))) ->
    isSeriesEffect e' = true ->
    fi_isMulti inp = true /\
    In e' (seriesEffects 0 (advancedSlotsOf inp s) (firstn MAX_SERIES (fi_series inp))
                         inp (rangeMinSV s) (rangeSpanOf s) (liveXOf inp))).
  { intros e' H He. unfold multiPipeline in H.
    destruct (fi_isMulti inp); cbn [mr_effects] in H; [| contradiction].
    split; [reflexivity |].
    apply in_app_or in H. destruct H as [H | H]; [exact H |].
    destruct (fi_crosshairActive inp); [| contradiction].
    cbn [In] in H. destruct H as [<- | []]. discriminate. }
  unfold renderAndCommit. fold (rangeSpanOf s). cbn [fst]. split.
  - intros Hin.
    repeat (apply in_app_or in Hin; destruct Hin as [Hin | Hin]);
      try (apply Hm; [exact Hin | exact Hk]);
      try (apply candlePipeline_not_series in Hin; congruence);
      close_segment Hin Hk.
  - intros [Hmulti Hin].
    assert (Hin' : In e (mr_effects (multiPipeline inp s adv (rangeMinSV s) (rangeMaxSV s)
                           (rangeMinSV s) (rangeSpanOf s) (liveXOf inp)))).
    { unfold multiPipeline. rewrite Hmulti. cbn [mr_effects].
      apply in_or_app. left. exact Hin. }
    apply in_or_app. left. in_segments_by Hin'.
Qed.

Lemma renderAndCommit_layer_state inp s adv inited :
  candleRangeMinSV (snd (renderAndCommit inp s adv inited))
  = cr_rangeMin (candlePipeline inp s (rangeMinSV s) (rangeSpanOf s)) /\
  candleRangeMaxSV (snd (renderAndCommit inp s adv inited))
  = cr_rangeMax (candlePipeline inp s (rangeMinSV s) (rangeSpanOf s)) /\
  (fi_isMulti inp = true ->
   seriesSlotsSV (snd (renderAndCommit inp s adv inited)) = advancedSlotsOf inp s).
Proof.
  unfold renderAndCommit, rangeSpanOf.
  cbn [snd candleRangeMinSV candleRangeMaxSV seriesSlotsSV].
  split; [reflexivity |]. split; [reflexivity |].
  intros Hm. unfold multiPipeline. rewrite Hm. reflexivity.
Qed.

Lemma in_render_iff render commits e :
  Forall (fun c => isCommit c = true) commits -> isCommit e = false ->
  (In e (render ++ commits) <-> In e render).
Proof.
  intros Hc He. split.
  - intros H. apply in_app_or in H. destruct H as [H | H]; [exact H |].
    rewrite Forall_forall in Hc. rewrite (Hc e H) in He. discriminate.
  - intros H. apply in_or_app. left. exact H.
Qed.

(** C1 (amended). On every tick in which the chart renders, the frame's
    effects are the render followed by the commit of the three shared
    values (displayed value, range minimum, range maximum), and nothing is
    written to them before the render is complete; every layer that takes
    the shared Y-range (grid, crosshair, series paths, line, fill) is built
    with the snapshot's minimum and span, and the dot, line, fill and
    current-price line with the snapshot's displayed value and range; the
    render is the same whatever the advanced shared values are; after the
    tick the shared values hold the advanced values, from which the next
    tick renders.  The candle layer and the series tips do not follow this
    order: the candle range is advanced in place before the candle paths
    are built, and every candle path of the tick is built with that range
    (outside a width morph: the very range the tick leaves in the state);
    the displayed value of each series is advanced in place before its
    path is built, and every series path and dot of the tick ends at the
    displayed value the tick leaves in its slot. *)
Theorem frameCallback_snapshot_render_commit :
  forall inp inp2 s,
    0 < fi_width inp -> 0 < fi_height inp -> (0 < ptsCountOf (fi_pts inp))%nat ->
    0 < fi_width inp2 -> 0 < fi_height inp2 -> (0 < ptsCountOf (fi_pts inp2))%nat ->
    let s1 := snd (frameCallback inp s) in
    exists render next,
      fst (frameCallback inp s)
      = render ++ [WriteSV DisplayValueSV (nextDisplay next);
                   WriteSV RangeMinSV (nextRangeMin next);
                   WriteSV RangeMaxSV (nextRangeMax next)] /\
      Forall (fun e => isCommit e = false) render /\
      Forall (builtWithRange (rangeMinSV s) (rangeSpanOf s)) render /\
      In (SetDot (dotXOf inp) (dotYOf inp s)) render /\
      In (LinePath (rangeMinSV s) (rangeSpanOf s) (liveXOf inp) (liveYOf inp s)) render /\
      (fi_showFill inp = true ->
       In (FillPath (rangeMinSV s) (rangeSpanOf s) (liveXOf inp) (liveYOf inp s)) render) /\
      In (CurrentLine (clampedLiveYOf inp s)) render /\
      (forall ref, fi_reference inp = Fin ref ->
       In (ReferencePath (fi_padTop inp
             + (1 - (ref - rangeMinSV s) / rangeSpanOf s) * innerHeightOf inp)) render) /\
      (forall adv', renderPart (fst (renderAndCommit inp s adv' true)) = render) /\
      nextDisplay next = nextDisplay (advanceValueRange inp s) /\
      (fi_isMulti inp = false -> next = advanceValueRange inp s) /\
      displayValueSV s1 = nextDisplay next /\
      rangeMinSV s1 = nextRangeMin next /\
      rangeMaxSV s1 = nextRangeMax next /\
      In (LinePath (nextRangeMin next)
                   (Rmax (1 / 1000000) (nextRangeMax next - nextRangeMin next))
                   (liveXOf inp2) (liveYOf inp2 s1))
         (fst (frameCallback inp2 s1)) /\
      (fi_isCandle inp = true ->
       let lo := fst (shownCandleRange inp s) in
       let span := Rmax (1 / 1000000) (snd (shownCandleRange inp s) - lo) in
       candleRangeMinSV s1 = fst (fst (candleAdvanceOf inp s)) /\
       candleRangeMaxSV s1 = snd (fst (candleAdvanceOf inp s)) /\
       (candleMorphTOf inp s < 0 ->
        shownCandleRange inp s = (candleRangeMinSV s1, candleRangeMaxSV s1)) /\
       In (CandlePaths (snd (candleMorphOf inp s)) lo span) render /\
       (forall w l sp,
          In (CandlePaths w l sp) render \/ In (OldCandlePaths w l sp) render ->
          l = lo /\ sp = span) /\
       (forall y, In (CandleHoverY y) render -> fi_lineModeProg inp <= 1 / 2 ->
          exists close, fi_hoveredClose inp = Some close /\
            y = fi_padTop inp + (1 - (close - lo) / span) * innerHeightOf inp)) /\
      (fi_isMulti inp = true ->
       seriesSlotsSV s1 = advancedSlotsOf inp s /\
       (forall i l sp x y, In (SeriesPath i l sp x y) render ->
          exists slot, nth_error (seriesSlotsSV s1) i = Some slot /\
            l = rangeMinSV s /\ sp = rangeSpanOf s /\
            y = seriesLiveYOf inp s slot) /\
       (forall i dx dy, In (SeriesDot i dx dy) render -> fi_chartReveal inp >= 1 ->
          exists slot, nth_error (seriesSlotsSV s1) i = Some slot /\
            dy = clamp (seriesLiveYOf inp s slot) (fi_padTop inp)
                       (fi_padTop inp + innerHeightOf inp)) /\
       (forall i slot ser,
          nth_error (seriesSlotsSV s1) i = Some slot ->
          nth_error (firstn MAX_SERIES (fi_series inp)) i = Some ser ->
          ~ slot_alpha slot < 1 / 100 -> ser_count ser <> 0%nat ->
          In (SeriesPath i (rangeMinSV s) (rangeSpanOf s) (liveXOf inp)
                         (seriesLiveYOf inp s slot)) render)).
Proof.
  intros inp inp2 s Hw Hh Hc Hw2 Hh2 Hc2 s1.
  assert (E1 : frameCallback inp s
               = renderAndCommit inp s (advanceValueRange inp s) true)
    by (apply frameCallback_renders; assumption).
  destruct (renderAndCommit_shape inp s (advanceValueRange inp s) true)
    as (render & next & Hfst & Hd & Hlo & Hhi & Hall & Hnd & Hne & Hdot & Hline & Hfill
        & Href & Hind).
  exists render, next.
  unfold s1. rewrite E1.
  assert (Hnc : Forall (fun e => isCommit e = false) render)
    by (eapply Forall_impl; [| exact Hall]; cbn; tauto).
  assert (Hrender : forall e, isCommit e = false ->
            (In e (fst (renderAndCommit inp s (advanceValueRange inp s) true))
             <-> In e render)).
  { intros e He. rewrite Hfst. apply in_render_iff; [repeat constructor | exact He]. }
  destruct (renderAndCommit_layer_state inp s (advanceValueRange inp s) true)
    as (Smin & Smax & Sslots).
  repeat match goal with |- _ /\ _ => split end; try assumption.
  - eapply Forall_impl; [| exact Hall]. cbn. tauto.
  - pose proof (renderAndCommit_currentLine inp s (advanceValueRange inp s) true) as Hcl.
    rewrite Hfst in Hcl. apply in_app_or in Hcl. destruct Hcl as [Hcl | Hcl]; [exact Hcl |].
    cbn in Hcl. repeat (destruct Hcl as [Hcl | Hcl]; [discriminate |]). contradiction.
  - intros adv'. apply Hind.
  - set (s' := snd (renderAndCommit inp s (advanceValueRange inp s) true)) in *.
    rewrite (frameCallback_renders inp2 s' Hw2 Hh2 Hc2).
    destruct (renderAndCommit_shape inp2 s' (advanceValueRange inp2 s') true)
      as (render2 & next2 & Hfst2 & _ & _ & _ & _ & _ & _ & _ & Hline2 & _).
    rewrite Hfst2. apply in_or_app. left.
    unfold rangeSpanOf in Hline2. rewrite Hlo, Hhi in Hline2. exact Hline2.
  - intros Hcandle.
    pose proof (candlePipeline_layer inp s (rangeMinSV s) (rangeSpanOf s) Hcandle) as HL.
    cbv zeta in HL. destruct HL as (Cmin & Cmax & Cin & Cboth & Chover).
    assert (Hin : forall e, isCandleEffect e = true ->
              (In e render
               <-> In e (cr_effects (candlePipeline inp s (rangeMinSV s) (rangeSpanOf s))))).
    { intros e He.
      rewrite <- (renderAndCommit_candle_effects inp s (advanceValueRange inp s) true e He).
      symmetry. apply Hrender. destruct e; try discriminate He; reflexivity. }
    cbv zeta.
    split; [rewrite Smin; exact Cmin |].
    split; [rewrite Smax; exact Cmax |].
    split.
    { intros Ht. rewrite (shownCandleRange_no_morph inp s Ht), Smin, Smax, Cmin, Cmax.
      reflexivity. }
    split; [apply Hin; [reflexivity | exact Cin] |].
    split.
    { intros w l sp [H | H]; apply (Cboth w l sp); [left | right];
        apply Hin; [reflexivity | exact H | reflexivity | exact H]. }
    intros y H Hlm. apply Chover; [| exact Hlm]. apply Hin; [reflexivity | exact H].
  - intros Hmulti.
    assert (Hin : forall e, isSeriesEffect e = true ->
              (In e render
               <-> In e (seriesEffects 0 (advancedSlotsOf inp s)
                           (firstn MAX_SERIES (fi_series inp)) inp
                           (rangeMinSV s) (rangeSpanOf s) (liveXOf inp)))).
    { intros e He.
      rewrite <- (Hrender e) by (destruct e; try discriminate He; reflexivity).
      rewrite (renderAndCommit_series_effects inp s (advanceValueRange inp s) true e He).
      tauto. }
    rewrite (Sslots Hmulti).
    split; [reflexivity |].
    split; [| split].
    + intros i l sp x y H. apply Hin in H; [| reflexivity].
      apply seriesEffects_sound in H.
      destruct H as (slot & ser & _ & Hs & _ & -> & -> & _ & ->).
      rewrite Nat.sub_0_r in Hs. exists slot. repeat split; try reflexivity. exact Hs.
    + intros i dx dy H Hr. apply Hin in H; [| reflexivity].
      apply seriesEffects_sound in H.
      destruct H as (slot & _ & Hs & Hd').
      rewrite Nat.sub_0_r in Hs. exists slot. split; [exact Hs |].
      apply (Hd' Hr).
    + intros i slot ser Hs Hr Ha Hcnt. apply Hin; [reflexivity |].
      apply (seriesEffects_complete 0 _ _ inp (rangeMinSV s) (rangeSpanOf s) (liveXOf inp)
               i slot ser Hs Hr Ha Hcnt).
Qed.

Lemma sampleInput_count : ptsCountOf (fi_pts sampleInput) = 3%nat.
Proof. reflexivity. Qed.

Lemma candleInput_count : ptsCountOf (fi_pts candleInput) = 3%nat.
Proof. reflexivity. Qed.

Lemma frameCallback_snapshot_render_commit_witness :
  let s1 := snd (frameCallback candleInput candleState) in
  exists render next,
    fst (frameCallback candleInput candleState)
    = render ++ [WriteSV DisplayValueSV (nextDisplay next);
                 WriteSV RangeMinSV (nextRangeMin next);
                 WriteSV RangeMaxSV (nextRangeMax next)] /\
    Forall (fun e => isCommit e = false) render /\
    Forall (builtWithRange (rangeMinSV candleState) (rangeSpanOf candleState)) render /\
    In (SetDot (dotXOf candleInput) (dotYOf candleInput candleState)) render /\
    In (LinePath (rangeMinSV candleState) (rangeSpanOf candleState) (liveXOf candleInput) (liveYOf candleInput candleState)) render /\
    (fi_showFill candleInput = true ->
     In (FillPath (rangeMinSV candleState) (rangeSpanOf candleState) (liveXOf candleInput) (liveYOf candleInput candleState)) render) /\
    In (CurrentLine (clampedLiveYOf candleInput candleState)) render /\
    (forall ref, fi_reference candleInput = Fin ref ->
     In (ReferencePath (fi_padTop candleInput
           + (1 - (ref - rangeMinSV candleState) / rangeSpanOf candleState) * innerHeightOf candleInput)) render) /\
    (forall adv', renderPart (fst (renderAndCommit candleInput candleState adv' true)) = render) /\
    nextDisplay next = nextDisplay (advanceValueRange candleInput candleState) /\
    (fi_isMulti candleInput = false -> next = advanceValueRange candleInput candleState) /\
    displayValueSV s1 = nextDisplay next /\
    rangeMinSV s1 = nextRangeMin next /\
    rangeMaxSV s1 = nextRangeMax next /\
    In (LinePath (nextRangeMin next)
                 (Rmax (1 / 1000000) (nextRangeMax next - nextRangeMin next))
                 (liveXOf sampleInput) (liveYOf sampleInput s1))
       (fst (frameCallback sampleInput s1)) /\
    (fi_isCandle candleInput = true ->
     let lo := fst (shownCandleRange candleInput candleState) in
     let span := Rmax (1 / 1000000) (snd (shownCandleRange candleInput candleState) - lo) in
     candleRangeMinSV s1 = fst (fst (candleAdvanceOf candleInput candleState)) /\
     candleRangeMaxSV s1 = snd (fst (candleAdvanceOf candleInput candleState)) /\
     (candleMorphTOf candleInput candleState < 0 ->
      shownCandleRange candleInput candleState = (candleRangeMinSV s1, candleRangeMaxSV s1)) /\
     In (CandlePaths (snd (candleMorphOf candleInput candleState)) lo span) render /\
     (forall w l sp,
        In (CandlePaths w l sp) render \/ In (OldCandlePaths w l sp) render ->
        l = lo /\ sp = span) /\
     (forall y, In (CandleHoverY y) render -> fi_lineModeProg candleInput <= 1 / 2 ->
        exists close, fi_hoveredClose candleInput = Some close /\
          y = fi_padTop candleInput + (1 - (close - lo) / span) * innerHeightOf candleInput)) /\
    (fi_isMulti candleInput = true ->
     seriesSlotsSV s1 = advancedSlotsOf candleInput candleState /\
     (forall i l sp x y, In (SeriesPath i l sp x y) render ->
        exists slot, nth_error (seriesSlotsSV s1) i = Some slot /\
          l = rangeMinSV candleState /\ sp = rangeSpanOf candleState /\
          y = seriesLiveYOf candleInput candleState slot) /\
     (forall i dx dy, In (SeriesDot i dx dy) render -> fi_chartReveal candleInput >= 1 ->
        exists slot, nth_error (seriesSlotsSV s1) i = Some slot /\
          dy = clamp (seriesLiveYOf candleInput candleState slot) (fi_padTop candleInput)
                     (fi_padTop candleInput + innerHeightOf candleInput)) /\
     (forall i slot ser,
        nth_error (seriesSlotsSV s1) i = Some slot ->
        nth_error (firstn MAX_SERIES (fi_series candleInput)) i = Some ser ->
        ~ slot_alpha slot < 1 / 100 -> ser_count ser <> 0%nat ->
        In (SeriesPath i (rangeMinSV candleState) (rangeSpanOf candleState) (liveXOf candleInput)
                       (seriesLiveYOf candleInput candleState slot)) render)).
Proof.
  apply (frameCallback_snapshot_render_commit candleInput sampleInput candleState).
  - cbn. lra.
  - cbn. lra.
  - rewrite candleInput_count. lia.
  - cbn. lra.
  - cbn. lra.
  - rewrite sampleInput_count. lia.
Defined.

(** One frame of an approach at a speed strictly between 0 and 1 moves the
    value by that fraction of the gap. *)
Lemma lerpStep_one_frame from to speed :
  0 < speed < 1 -> lerpStep from to speed 1 = from + (to - from) * speed.
Proof.
  intros Hs. unfold lerpStep, alphaLerp, Math_pow.
  destruct (Req_dec_T 1 0) as [E | _]; [lra |].
  destruct (Rlt_dec 0 (1 - speed)) as [_ | N]; [| lra].
  rewrite Rpower_1 by lra.
  cbn [js_one_minus js_clamp]. unfold clamp.
  replace (1 - (1 - speed)) with speed by ring.
  rewrite Rmax_right by lra. rewrite Rmin_right by lra.
  reflexivity.
Qed.

Lemma candleAdvanceOf_sample :
  candleAdvanceOf candleInput candleState = (3 / 4, 23 / 2, true).
Proof.
  unfold candleAdvanceOf, advanceCandleRange, candleInput, candleState.
  cbn [candleRangeInitedSV candleRangeMinSV candleRangeMaxSV fi_candleTarget
       fi_ratio range_min range_max].
  assert (Hs : CANDLE_RANGE_LERP_SPEED
               + (1 - Rmin (if Rlt_dec 0 (10 - 0)
                            then Rmax (Rabs (5 - 0)) (Rabs (20 - 10)) / (10 - 0)
                            else 1) 1) * CANDLE_RANGE_ADAPTIVE_BOOST
               = 15 / 100).
  { destruct (Rlt_dec 0 (10 - 0)) as [_ | N]; [| lra].
    rewrite !Rabs_right by lra. rewrite Rmax_right by lra.
    replace ((20 - 10) / (10 - 0)) with 1 by lra.
    rewrite Rmin_left by lra.
    unfold CANDLE_RANGE_LERP_SPEED, CANDLE_RANGE_ADAPTIVE_BOOST. lra. }
  rewrite Hs. rewrite !lerpStep_one_frame by lra.
  apply f_equal2; [apply f_equal2; lra | reflexivity].
Qed.

Lemma candleMorphOf_sample :
  candleMorphOf candleInput candleState = (mkMorph 60 60 0 (-1) 0 0 0 0, -1, 60).
Proof.
  unfold candleMorphOf, candleInput, candleState, beginWidthMorph, stepWidthMorph.
  cbn [candleWidthMorph fi_candleWidthSecs fi_nowRawMs candleRangeMinSV
       candleRangeMaxSV morphTo].
  destruct (Req_dec_T 60 60) as [_ | N]; [| contradiction].
  cbn [morphStart morphT].
  destruct (Rlt_dec 0 0) as [H | _]; [lra | reflexivity].
Qed.

(** C1, as stated, fails: in candle mode the candle paths are not built
    from the range the tick started with.  The candle range is [0, 10]
    before the tick and the visible candles span [5, 20]; the tick first
    moves the range to [3/4, 23/2], then builds the candle paths with that
    range (minimum [3/4], span [43/4]), and no candle path of the tick is
    built with the range [0, 10] of the snapshot. *)
Lemma frameCallback_counterexample :
  let out := frameCallback candleInput candleState in
  candleRangeMinSV candleState = 0 /\ candleRangeMaxSV candleState = 10 /\
  candleRangeMinSV (snd out) = 3 / 4 /\ candleRangeMaxSV (snd out) = 23 / 2 /\
  In (CandlePaths 60 (3 / 4) (43 / 4)) (fst out) /\
  (forall w lo span, In (CandlePaths w lo span) (fst out) ->
     lo = 3 / 4 /\ span = 43 / 4) /\
  ~ In (CandlePaths 60 0 10) (fst out).
Proof.
  cbv zeta.
  assert (E : frameCallback candleInput candleState
              = renderAndCommit candleInput candleState
                  (advanceValueRange candleInput candleState) true).
  { apply frameCallback_renders; [cbn; lra | cbn; lra |].
    rewrite candleInput_count. lia. }
  rewrite E.
  destruct (renderAndCommit_layer_state candleInput candleState
              (advanceValueRange candleInput candleState) true)
    as (Smin & Smax & _).
  pose proof (candlePipeline_layer candleInput candleState
                (rangeMinSV candleState) (rangeSpanOf candleState) eq_refl) as HL.
  cbv zeta in HL. destruct HL as (Cmin & Cmax & Cin & Cboth & _).
  assert (Hshown : shownCandleRange candleInput candleState = (3 / 4, 23 / 2)).
  { rewrite shownCandleRange_no_morph.
    - rewrite candleAdvanceOf_sample. reflexivity.
    - unfold candleMorphTOf. rewrite candleMorphOf_sample. cbn. lra. }
  rewrite Hshown, candleMorphOf_sample in Cin.
  rewrite Hshown in Cboth.
  cbn [fst snd] in Cin, Cboth.
  replace (Rmax (1 / 1000000) (23 / 2 - 3 / 4)) with (43 / 4) in Cin, Cboth
    by (rewrite Rmax_right by lra; lra).
  assert (Hall : forall w lo span,
            In (CandlePaths w lo span)
               (fst (renderAndCommit candleInput candleState
                       (advanceValueRange candleInput candleState) true)) ->
            lo = 3 / 4 /\ span = 43 / 4).
  { intros w lo span H. apply (Cboth w lo span). left.
    apply (renderAndCommit_candle_effects candleInput candleState
             (advanceValueRange candleInput candleState) true
             (CandlePaths w lo span) eq_refl). exact H. }
  split; [reflexivity |]. split; [reflexivity |].
  split; [rewrite Smin, Cmin, candleAdvanceOf_sample; reflexivity |].
  split; [rewrite Smax, Cmax, candleAdvanceOf_sample; reflexivity |].
  split.
  { apply (renderAndCommit_candle_effects candleInput candleState
             (advanceValueRange candleInput candleState) true
             (CandlePaths 60 (3 / 4) (43 / 4)) eq_refl). exact Cin. }
  split; [exact Hall |].
  intros H. apply Hall in H. lra.
Qed.

Lemma advancedSlotsOf_sample :
  advancedSlotsOf seriesTipInput seriesTipState = [mkSlot true 1 4].
Proof.
  unfold advancedSlotsOf, seriesTipInput, seriesTipState.
  cbn [seriesSlotsSV fi_series fi_ratio firstn MAX_SERIES advanceSlots
       ser_hidden ser_live slot_alpha slot_displayValue].
  rewrite lerpStep_one_frame by (unfold SERIES_TOGGLE_SPEED; lra).
  replace (1 + (1 - 1) * SERIES_TOGGLE_SPEED) with 1 by ring.
  destruct (Rlt_dec 1 (1 / 100)) as [H | _]; [lra |].
  destruct (Rlt_dec (99 / 100) 1) as [_ | N]; [| lra].
  destruct (Req_dec_T 0 0) as [_ | N]; [| contradiction].
  destruct (Req_dec_T 4 0) as [H | _]; [lra |].
  reflexivity.
Qed.

(** The same holds for the series tips in multi-series mode: the slot
    shows 0 before the tick, the tick first moves it to the live value 4,
    and the series path of the tick ends at the Y of 4 under the
    snapshot's range, not at the Y of the displayed value the tick started
    with. *)
Lemma frameCallback_series_tip_example :
  let out := frameCallback seriesTipInput seriesTipState in
  seriesSlotsSV seriesTipState = [mkSlot true 1 0] /\
  seriesSlotsSV (snd out) = [mkSlot true 1 4] /\
  In (SeriesPath 0 (rangeMinSV seriesTipState) (rangeSpanOf seriesTipState)
        (liveXOf seriesTipInput) (seriesLiveYOf seriesTipInput seriesTipState (mkSlot true 1 4)))
     (fst out) /\
  (forall i l sp x y, In (SeriesPath i l sp x y) (fst out) ->
     y = seriesLiveYOf seriesTipInput seriesTipState (mkSlot true 1 4)) /\
  seriesLiveYOf seriesTipInput seriesTipState (mkSlot true 1 4) = -260 /\
  seriesLiveYOf seriesTipInput seriesTipState (mkSlot true 1 0) = 460.
Proof.
  cbv zeta.
  assert (E : frameCallback seriesTipInput seriesTipState
              = renderAndCommit seriesTipInput seriesTipState
                  (advanceValueRange seriesTipInput seriesTipState) true).
  { apply frameCallback_renders; [cbn; lra | cbn; lra |]. cbn. lia. }
  rewrite E.
  destruct (renderAndCommit_layer_state seriesTipInput seriesTipState
              (advanceValueRange seriesTipInput seriesTipState) true)
    as (_ & _ & Sslots).
  assert (Hy : forall v, seriesLiveYOf seriesTipInput seriesTipState (mkSlot true 1 v)
                         = 10 + (1 - (v - 3 / 2)) * 180).
  { intros v. unfold seriesLiveYOf, rangeSpanOf, innerHeightOf, seriesTipInput, seriesTipState.
    cbn [fi_padTop fi_height fi_padBottom rangeMinSV rangeMaxSV slot_displayValue].
    replace (Rmax (1 / 1000000) (2 + 5 / 10 - (2 - 5 / 10))) with 1
      by (rewrite Rmax_right by lra; lra).
    replace (Rmax 1 (1 / 1000000)) with 1 by (rewrite Rmax_left by lra; lra).
    replace (Rmax 1 (200 - 10 - 10)) with 180 by (rewrite Rmax_right by lra; lra).
    lra. }
  pose proof (fun e => renderAndCommit_series_effects seriesTipInput seriesTipState
                         (advanceValueRange seriesTipInput seriesTipState) true e)
    as Hin.
  split; [reflexivity |].
  split; [rewrite (Sslots eq_refl); exact advancedSlotsOf_sample |].
  split.
  { apply Hin; [reflexivity |].
    split; [reflexivity |]. rewrite advancedSlotsOf_sample.
    apply (seriesEffects_complete 0 [mkSlot true 1 4] _ seriesTipInput _ _ _ 0
             (mkSlot true 1 4) (mkSeries [1; 3; 2] 3 4 false));
      [reflexivity | reflexivity | cbn; lra | cbn; lia]. }
  split.
  { intros i l sp x y H.
    apply Hin in H; [| reflexivity].
    destruct H as [_ H]. rewrite advancedSlotsOf_sample in H.
    apply seriesEffects_sound in H.
    destruct H as (slot & ser & _ & Hs & _ & _ & _ & _ & ->).
    destruct (i - 0)%nat as [| j]; [| destruct j; discriminate Hs].
    injection Hs as <-. reflexivity. }
  split; rewrite Hy; lra.
Qed.

(** ** Ingestion feeds the frame callback *)




(** The finite samples of [mixedData], sorted by time. *)
Example packPoints_mixedData :
  packPoints mixedData = mkPacked [0; 7; 1; 4; 2; 5]%Q 3.
Proof. reflexivity. Qed.

Example packPoints_unusableData : packPoints unusableData = mkPacked [] 0.
Proof. reflexivity. Qed.



Lemma advanceRange_asymmetry_witness :
  fst (advanceRange true 0 1 (mkRange (-1) 2)
         (frameAlpha (adaptiveSpeed (8 / 100) 0 0 0 1) 1) 100) = -1 /\
  snd (advanceRange true 0 1 (mkRange (-1) 2)
         (frameAlpha (adaptiveSpeed (8 / 100) 0 0 0 1) 1) 100) = 2.
Proof.
  assert (Hr : currentRange 0 1 = 1) by (unfold currentRange; split_cmp; lra).
  destruct (advanceRange_asymmetry (8 / 100) 0 0 0 1 (mkRange (-1) 2) 1 100)
    as (Hmin & Hmax & _).
  split.
  - apply Hmin. rewrite Hr. cbn. lra.
  - apply Hmax. rewrite Hr. cbn. lra.
Defined.

(* ===================================================================== *)
(** * Further properties of the engine's helpers *)
(* ===================================================================== *)

(** ** Index searches *)

Lemma shiftr1_mid lo hi :
  (lo <= hi)%Z -> (lo <= Z.shiftr (lo + hi) 1 <= hi)%Z.
Proof.
  intros H. rewrite Z.shiftr_div_pow2 by lia. change (2 ^ 1)%Z with 2%Z.
  pose proof (Z.div_mod (lo + hi) 2 ltac:(lia)).
  pose proof (Z.mod_pos_bound (lo + hi) 2 ltac:(lia)). lia.
Qed.

Lemma firstAtOrAfterLoop_spec buf count t lo hi ans :
  sortedTimes buf count ->
  (0 <= lo)%Z -> (hi < Z.of_nat count)%Z -> (lo <= hi + 1)%Z -> ans = (hi + 1)%Z ->
  (forall j, (Z.of_nat j < lo)%Z -> ptT buf j < t) ->
  (forall j, (hi < Z.of_nat j)%Z -> (j < count)%nat -> t <= ptT buf j) ->
  let r := firstAtOrAfterLoop buf t lo hi ans in
  (lo <= r <= hi + 1)%Z /\
  (forall j, (Z.of_nat j < r)%Z -> ptT buf j < t) /\
  (forall j, (r <= Z.of_nat j)%Z -> (j < count)%nat -> t <= ptT buf j).
Proof.
  intros Hs. funelim (firstAtOrAfterLoop buf t lo hi ans);
    intros Hlo Hhi Hle Hans Hbelow Habove; cbv zeta.
  - subst ans. replace (hi + 1)%Z with lo by lia.
    repeat split; try assumption; try lia.
    intros j Hj Hc. apply Habove; [lia | exact Hc].
  - pose proof (shiftr1_mid lo hi ltac:(assumption)) as Hm.
    set (mid := Z.shiftr (lo + hi) 1) in *.
    destruct (H _ Hs Hlo ltac:(lia) ltac:(lia) ltac:(lia) Hbelow) as (B1 & B2 & B3).
    + intros j Hj Hc.
      apply Rle_trans with (ptT buf (Z.to_nat mid)); [lra |].
      apply Hs; lia.
    + repeat split; try assumption; lia.
  - pose proof (shiftr1_mid lo hi ltac:(assumption)) as Hm.
    set (mid := Z.shiftr (lo + hi) 1) in *.
    destruct (H _ Hs ltac:(lia) Hhi ltac:(lia) Hans) as (B1 & B2 & B3).
    + intros j Hj.
      apply Rle_lt_trans with (ptT buf (Z.to_nat mid)); [| lra].
      apply Hs; lia.
    + exact Habove.
    + repeat split; try assumption; lia.
Qed.

Lemma lastAtOrBeforeLoop_spec buf count t lo hi ans :
  sortedTimes buf count ->
  (0 <= lo)%Z -> (hi < Z.of_nat count)%Z -> (lo <= hi + 1)%Z -> ans = (lo - 1)%Z ->
  (forall j, (Z.of_nat j < lo)%Z -> ptT buf j <= t) ->
  (forall j, (hi < Z.of_nat j)%Z -> (j < count)%nat -> t < ptT buf j) ->
  let r := lastAtOrBeforeLoop buf t lo hi ans in
  (lo - 1 <= r <= hi)%Z /\
  (forall j, (Z.of_nat j <= r)%Z -> ptT buf j <= t) /\
  (forall j, (r < Z.of_nat j)%Z -> (j < count)%nat -> t < ptT buf j).
Proof.
  intros Hs. funelim (lastAtOrBeforeLoop buf t lo hi ans);
    intros Hlo Hhi Hle Hans Hbelow Habove; cbv zeta.
  - subst ans. repeat split; try lia.
    + intros j Hj. apply Hbelow. lia.
    + intros j Hj Hc. apply Habove; [lia | exact Hc].
  - pose proof (shiftr1_mid lo hi ltac:(assumption)) as Hm.
    set (mid := Z.shiftr (lo + hi) 1) in *.
    destruct (H _ Hs ltac:(lia) Hhi ltac:(lia) ltac:(lia)) as (B1 & B2 & B3).
    + intros j Hj.
      apply Rle_trans with (ptT buf (Z.to_nat mid)); [| lra].
      apply Hs; lia.
    + exact Habove.
    + repeat split; try assumption; lia.
  - pose proof (shiftr1_mid lo hi ltac:(assumption)) as Hm.
    set (mid := Z.shiftr (lo + hi) 1) in *.
    destruct (H _ Hs Hlo ltac:(lia) ltac:(lia) Hans Hbelow) as (B1 & B2 & B3).
    + intros j Hj Hc.
      apply Rlt_le_trans with (ptT buf (Z.to_nat mid)); [lra |].
      apply Hs; lia.
    + repeat split; try assumption; lia.
Qed.

(** X1. On a time-sorted buffer with at least one sample,
    [findFirstPointIndexAtOrAfter] returns a valid index; when some sample
    is at or after [t] it is the first such sample; when every sample is
    before [t] it is the last index. *)
Theorem findFirstPointIndexAtOrAfter_correct :
  forall buf count t,
    (2 * count <= length buf)%nat -> (0 < count)%nat -> sortedTimes buf count ->
    let r := findFirstPointIndexAtOrAfter buf count t in
    (0 <= r < Z.of_nat count)%Z /\
    ((exists i, (i < count)%nat /\ t <= ptT buf i) ->
       t <= ptT buf (Z.to_nat r) /\
       forall j, (Z.of_nat j < r)%Z -> ptT buf j < t) /\
    ((forall i, (i < count)%nat -> ptT buf i < t) -> r = (Z.of_nat count - 1)%Z).
Proof.
  intros buf count t _ Hc Hs r. unfold r, findFirstPointIndexAtOrAfter.
  destruct (Nat.eqb_spec count 0) as [E | _]; [lia |].
  destruct (firstAtOrAfterLoop_spec buf count t 0 (Z.of_nat count - 1) (Z.of_nat count) Hs)
    as (B1 & B2 & B3); try lia.
  set (ans := firstAtOrAfterLoop buf t 0 (Z.of_nat count - 1) (Z.of_nat count)) in *.
  destruct (Z.eqb_spec ans (Z.of_nat count)) as [E | N].
  - split; [lia |]. split.
    + intros (i & Hi & Hti). specialize (B2 i ltac:(lia)). lra.
    + reflexivity.
  - split; [lia |]. split.
    + intros _. split; [| exact B2].
      apply B3; lia.
    + intros Hall. specialize (Hall (Z.to_nat ans) ltac:(lia)).
      specialize (B3 (Z.to_nat ans) ltac:(lia) ltac:(lia)). lra.
Qed.

Lemma sampleBuffer_sorted : sortedTimes sampleBuffer 3.
Proof.
  intros i j Hij Hj. unfold sampleBuffer, ptT.
  destruct i as [| [| [| i]]]; destruct j as [| [| [| j]]]; simpl; try lra; lia.
Qed.

Lemma findFirstPointIndexAtOrAfter_correct_witness :
  let r := findFirstPointIndexAtOrAfter sampleBuffer 3 (1 / 2) in
  (0 <= r < Z.of_nat 3)%Z /\
  ((exists i, (i < 3)%nat /\ 1 / 2 <= ptT sampleBuffer i) ->
     1 / 2 <= ptT sampleBuffer (Z.to_nat r) /\
     forall j, (Z.of_nat j < r)%Z -> ptT sampleBuffer j < 1 / 2) /\
  ((forall i, (i < 3)%nat -> ptT sampleBuffer i < 1 / 2) -> r = (Z.of_nat 3 - 1)%Z).
Proof.
  apply (findFirstPointIndexAtOrAfter_correct sampleBuffer 3 (1 / 2)).
  - simpl. lia.
  - lia.
  - apply sampleBuffer_sorted.
Defined.

(** X2. On a time-sorted buffer [findLastPointIndexAtOrBefore] returns
    [-1] or a valid index; the sample it names, and every earlier one, is at
    or before [t], and every later sample is after [t] (so [-1] means every
    sample is after [t]); on an empty buffer it returns [-1]. *)
Theorem findLastPointIndexAtOrBefore_correct :
  forall buf count t,
    (2 * count <= length buf)%nat -> sortedTimes buf count ->
    let r := findLastPointIndexAtOrBefore buf count t in
    (-1 <= r < Z.of_nat count)%Z /\
    (forall j, (Z.of_nat j <= r)%Z -> ptT buf j <= t) /\
    (forall j, (r < Z.of_nat j)%Z -> (j < count)%nat -> t < ptT buf j) /\
    (count = 0%nat -> r = (-1)%Z).
Proof.
  intros buf count t _ Hs r. unfold r, findLastPointIndexAtOrBefore.
  destruct (Nat.eqb_spec count 0) as [E | N].
  - subst count. repeat split; intros; lia.
  - destruct (lastAtOrBeforeLoop_spec buf count t 0 (Z.of_nat count - 1) (-1) Hs)
      as (B1 & B2 & B3); try lia.
    repeat split; try assumption; lia.
Qed.

Lemma findLastPointIndexAtOrBefore_correct_witness :
  let r := findLastPointIndexAtOrBefore sampleBuffer 3 (3 / 2) in
  (-1 <= r < Z.of_nat 3)%Z /\
  (forall j, (Z.of_nat j <= r)%Z -> ptT sampleBuffer j <= 3 / 2) /\
  (forall j, (r < Z.of_nat j)%Z -> (j < 3)%nat -> 3 / 2 < ptT sampleBuffer j) /\
  (3%nat = 0%nat -> r = (-1)%Z).
Proof.
  apply (findLastPointIndexAtOrBefore_correct sampleBuffer 3 (3 / 2)).
  - simpl. lia.
  - apply sampleBuffer_sorted.
Defined.

(** X3. The visible window of the frame callback: on a time-sorted buffer,
    with [first] the result of [findFirstPointIndexAtOrAfter] at [tLo] and
    [last] that of [findLastPointIndexAtOrBefore] at [tHi], every sample
    with time in [tLo, tHi] has its index in [first, last]; when some
    sample is at or after [tLo] the indices in [first, last] are exactly
    those samples; when every sample is before [tLo] both searches name the
    last sample, which is then reported although it lies outside. *)
Theorem visible_window_indices :
  forall buf count tLo tHi,
    (2 * count <= length buf)%nat -> (0 < count)%nat -> sortedTimes buf count ->
    tLo <= tHi ->
    let first := findFirstPointIndexAtOrAfter buf count tLo in
    let last := findLastPointIndexAtOrBefore buf count tHi in
    (forall i, (i < count)%nat -> tLo <= ptT buf i <= tHi ->
       (first <= Z.of_nat i <= last)%Z) /\
    ((exists i, (i < count)%nat /\ tLo <= ptT buf i) ->
       forall i, (first <= Z.of_nat i <= last)%Z -> tLo <= ptT buf i <= tHi) /\
    ((forall i, (i < count)%nat -> ptT buf i < tLo) ->
       first = (Z.of_nat count - 1)%Z /\ last = (Z.of_nat count - 1)%Z).
Proof.
  intros buf count tLo tHi _ Hc Hs Hlt first last.
  unfold first, last, findFirstPointIndexAtOrAfter, findLastPointIndexAtOrBefore.
  destruct (Nat.eqb_spec count 0) as [E | _]; [lia |].
  destruct (firstAtOrAfterLoop_spec buf count tLo 0 (Z.of_nat count - 1) (Z.of_nat count) Hs)
    as (F1 & F2 & F3); try lia.
  destruct (lastAtOrBeforeLoop_spec buf count tHi 0 (Z.of_nat count - 1) (-1) Hs)
    as (L1 & L2 & L3); try lia.
  set (ans := firstAtOrAfterLoop buf tLo 0 (Z.of_nat count - 1) (Z.of_nat count)) in *.
  set (lst := lastAtOrBeforeLoop buf tHi 0 (Z.of_nat count - 1) (-1)) in *.
  assert (Hfirst_le : forall i, (i < count)%nat -> tLo <= ptT buf i -> (ans <= Z.of_nat i)%Z).
  { intros i Hi Ht. destruct (Z_le_gt_dec ans (Z.of_nat i)) as [L | G]; [exact L |].
    specialize (F2 i ltac:(lia)). lra. }
  assert (Hlast_ge : forall i, (i < count)%nat -> ptT buf i <= tHi -> (Z.of_nat i <= lst)%Z).
  { intros i Hi Ht. destruct (Z_le_gt_dec (Z.of_nat i) lst) as [L | G]; [exact L |].
    specialize (L3 i ltac:(lia) Hi). lra. }
  repeat split.
  - destruct (Z.eqb_spec ans (Z.of_nat count)); [| apply Hfirst_le; tauto].
    specialize (Hfirst_le i H ltac:(tauto)). lia.
  - apply Hlast_ge; tauto.
  - destruct H as (k & Hk & Htk). specialize (Hfirst_le k Hk Htk).
    destruct (Z.eqb_spec ans (Z.of_nat count)); [lia |].
    apply F3; lia.
  - apply L2. lia.
  - destruct (Z.eqb_spec ans (Z.of_nat count)); [reflexivity |].
    specialize (H (Z.to_nat ans) ltac:(lia)).
    specialize (F3 (Z.to_nat ans) ltac:(lia) ltac:(lia)). lra.
  - assert (Z.of_nat (count - 1) <= lst)%Z; [| lia].
    apply Hlast_ge; [lia |]. specialize (H (count - 1)%nat ltac:(lia)). lra.
Qed.

Lemma visible_window_indices_witness :
  let first := findFirstPointIndexAtOrAfter sampleBuffer 3 (1 / 2) in
  let last := findLastPointIndexAtOrBefore sampleBuffer 3 (3 / 2) in
  (forall i, (i < 3)%nat -> 1 / 2 <= ptT sampleBuffer i <= 3 / 2 ->
     (first <= Z.of_nat i <= last)%Z) /\
  ((exists i, (i < 3)%nat /\ 1 / 2 <= ptT sampleBuffer i) ->
     forall i, (first <= Z.of_nat i <= last)%Z -> 1 / 2 <= ptT sampleBuffer i <= 3 / 2) /\
  ((forall i, (i < 3)%nat -> ptT sampleBuffer i < 1 / 2) ->
     first = (Z.of_nat 3 - 1)%Z /\ last = (Z.of_nat 3 - 1)%Z).
Proof.
  apply (visible_window_indices sampleBuffer 3 (1 / 2) (3 / 2)).
  - simpl. lia.
  - lia.
  - apply sampleBuffer_sorted.
  - lra.
Defined.

(** ** Step estimate *)

Lemma lastPositiveGap_spec buf count n :
  sortedTimes buf count -> (n < count)%nat ->
  let r := lastPositiveGap buf n in
  0 <= r /\
  (r = 0 -> forall j, (j <= n)%nat -> ptT buf j = ptT buf n) /\
  (0 < r -> exists k, (S k <= n)%nat /\ r = ptT buf (S k) - ptT buf k /\
                      forall j, (S k <= j)%nat -> (j <= n)%nat -> ptT buf j = ptT buf n).
Proof.
  intros Hs. induction n as [| n IH]; intros Hn; cbn [lastPositiveGap]; cbv zeta.
  - split; [lra |]. split.
    + intros _ j Hj. replace j with 0%nat by lia. reflexivity.
    + intros Hr. lra.
  - pose proof (Hs n (S n) ltac:(lia) Hn) as Hstep.
    destruct (Rlt_dec 0 (ptT buf (S n) - ptT buf n)) as [Hpos | Hnpos].
    + repeat split; try lra.
      intros _. exists n. repeat split; try lia.
      intros j H1 H2. replace j with (S n) by lia. reflexivity.
    + assert (Heq : ptT buf (S n) = ptT buf n) by lra.
      destruct (IH ltac:(lia)) as (B1 & B2 & B3).
      repeat split; [exact B1 | |].
      * intros Hr j Hj. rewrite Heq.
        destruct (Nat.eq_dec j (S n)) as [-> | N]; [exact Heq |].
        apply B2; [exact Hr | lia].
      * intros Hr. destruct (B3 Hr) as (k & Hk & Ek & Hall).
        exists k. repeat split; [lia | exact Ek |].
        intros j H1 H2. rewrite Heq.
        destruct (Nat.eq_dec j (S n)) as [-> | N]; [exact Heq |].
        apply Hall; lia.
Qed.

(** X4. [estimateStepSecs] on a time-sorted buffer: it is 0 for fewer
    than two samples; it is never negative; it is 0 exactly when all
    sample times coincide; when positive it is the gap between the last two
    samples with distinct times, every later sample sharing the last
    time. *)
Theorem estimateStepSecs_last_gap :
  forall buf count,
    (2 * count <= length buf)%nat -> sortedTimes buf count ->
    let r := estimateStepSecs buf count in
    ((count < 2)%nat -> r = 0) /\
    0 <= r /\
    (r = 0 <-> forall i j, (i < count)%nat -> (j < count)%nat -> ptT buf i = ptT buf j) /\
    (0 < r -> exists k, (S k < count)%nat /\ r = ptT buf (S k) - ptT buf k /\
                        forall j, (S k <= j)%nat -> (j < count)%nat ->
                                  ptT buf j = ptT buf (count - 1)).
Proof.
  intros buf count _ Hs r. unfold r, estimateStepSecs.
  destruct (Nat.ltb_spec count 2) as [Hsmall | Hbig].
  - repeat split; try lra; try (intros; lra).
    + intros _ i j Hi Hj. replace i with 0%nat by lia. replace j with 0%nat by lia.
      reflexivity.
  - destruct (lastPositiveGap_spec buf count (count - 1) Hs ltac:(lia)) as (B1 & B2 & B3).
    repeat split; try assumption; try lia.
    + intros Hr i j Hi Hj.
      rewrite (B2 Hr i ltac:(lia)), (B2 Hr j ltac:(lia)). reflexivity.
    + intros Hall.
      destruct (Rle_lt_or_eq_dec _ _ B1) as [Hpos | Hz]; [| symmetry; exact Hz].
      destruct (B3 Hpos) as (k & Hk & Ek & _).
      rewrite (Hall (S k) k ltac:(lia) ltac:(lia)) in Ek. lra.
    + intros Hr. destruct (B3 Hr) as (k & Hk & Ek & Hall).
      exists k. repeat split; [lia | exact Ek |].
      intros j H1 H2. apply Hall; lia.
Qed.

Lemma estimateStepSecs_last_gap_witness :
  let r := estimateStepSecs sampleBuffer 3 in
  ((3 < 2)%nat -> r = 0) /\
  0 <= r /\
  (r = 0 <-> forall i j, (i < 3)%nat -> (j < 3)%nat ->
                         ptT sampleBuffer i = ptT sampleBuffer j) /\
  (0 < r -> exists k, (S k < 3)%nat /\ r = ptT sampleBuffer (S k) - ptT sampleBuffer k /\
                      forall j, (S k <= j)%nat -> (j < 3)%nat ->
                                ptT sampleBuffer j = ptT sampleBuffer (3 - 1)).
Proof.
  apply (estimateStepSecs_last_gap sampleBuffer 3).
  - simpl. lia.
  - apply sampleBuffer_sorted.
Defined.

(** ** Momentum, window buffer, time interval *)

Lemma valuesFrom_nonempty buf start n : (0 < n)%nat -> valuesFrom buf start n <> [].
Proof. unfold valuesFrom. destruct n; [lia | cbn; discriminate]. Qed.

Lemma valuesFrom_In buf start n k :
  (k < n)%nat -> In (ptV buf (start + k)) (valuesFrom buf start n).
Proof.
  intros Hk. unfold valuesFrom.
  apply (in_map (fun k => ptV buf (start + k))). apply in_seq. lia.
Qed.

(** X5. [detectMomentumFromPoints]: with fewer than five samples the
    momentum is flat.  With a lookback of at least one sample it is flat
    when all values of the lookback window are equal, "up" only if the
    last value exceeds the value five samples back (or at the start of the
    lookback) by more than 12% of the spread of any two values in the
    lookback window, and "down" only in the mirrored case.  With a
    lookback of 0 and at least five samples nothing is scanned and the
    answer is "up" whenever the buffer holds a number in slot
    [2 * count + 1], whatever the values are, and "flat" otherwise. *)
Theorem detectMomentumFromPoints_threshold :
  forall buf count lookback,
    (2 * count <= length buf)%nat ->
    let start := (count - lookback)%nat in
    let tailStart := Nat.max start (count - 5) in
    let delta := ptV buf (count - 1) - ptV buf tailStart in
    let m := detectMomentumFromPoints buf count lookback in
    ((count < 5)%nat -> m = MomentumFlat) /\
    ((0 < lookback)%nat ->
     (forall i, (start <= i < count)%nat -> ptV buf i = ptV buf (count - 1)) ->
       m = MomentumFlat) /\
    ((0 < lookback)%nat -> m = MomentumUp ->
       0 < delta /\
       forall i j, (start <= i < count)%nat -> (start <= j < count)%nat ->
                   (ptV buf i - ptV buf j) * (12 / 100) < delta) /\
    ((0 < lookback)%nat -> m = MomentumDown ->
       delta < 0 /\
       forall i j, (start <= i < count)%nat -> (start <= j < count)%nat ->
                   delta < - ((ptV buf i - ptV buf j) * (12 / 100))) /\
    (lookback = 0%nat -> (5 <= count)%nat ->
       m = if (2 * count + 1 <? length buf)%nat then MomentumUp else MomentumFlat).
Proof.
  intros buf count lookback _ start tailStart delta m.
  unfold m, detectMomentumFromPoints. fold start. fold tailStart.
  destruct (Nat.ltb_spec count 5) as [Hsmall | Hbig].
  - split; [reflexivity |]. split; [reflexivity |].
    split; [discriminate |]. split; [discriminate |]. lia.
  - split; [lia |].
    destruct (Nat.eq_dec lookback 0) as [Hzero | Hpos].
    { (* lookback 0: nothing is scanned *)
      assert (Hs : start = count) by (unfold start; lia).
      assert (Ht : tailStart = count) by (unfold tailStart; lia).
      rewrite Hs, Ht. replace (count - count)%nat with 0%nat by lia.
      cbn [valuesFrom seq map scanExtremes fold_left].
      split; [lia |]. split; [lia |]. split; [lia |]. reflexivity. }
    assert (Hlt : (start < count)%nat) by (unfold start in *; lia).
    destruct (scanExtremes_nonempty (valuesFrom buf start (count - start)))
      as (lo & hi & -> & Hle & Hall & Ilo & Ihi).
    { apply valuesFrom_nonempty. lia. }
    rewrite Forall_forall in Hall.
    assert (Hwin : forall i, (start <= i < count)%nat -> lo <= ptV buf i <= hi).
    { intros i Hi. apply Hall.
      replace i with (start + (i - start))%nat by lia. apply valuesFrom_In. lia. }
    fold delta.
    destruct (Req_dec_T (hi - lo) 0) as [Hflat | Hspread].
    + split; [reflexivity |]. split; [discriminate |].
      split; [discriminate |]. lia.
    + split.
      * intros _ Heq. exfalso. apply Hspread.
        assert (forall v, In v (valuesFrom buf start (count - start)) ->
                          v = ptV buf (count - 1)) as Hv.
        { intros v Hv. unfold valuesFrom in Hv. apply in_map_iff in Hv.
          destruct Hv as (k & <- & Hk). apply in_seq in Hk. apply Heq. lia. }
        rewrite (Hv lo Ilo), (Hv hi Ihi). lra.
      * destruct (Rlt_dec ((hi - lo) * (12 / 100)) delta) as [Hup | Hnup].
        -- split; [| split; [discriminate | lia]].
           intros _ _. split; [nra |].
           intros i j Hi Hj. pose proof (Hwin i Hi). pose proof (Hwin j Hj). nra.
        -- destruct (Rlt_dec delta (- ((hi - lo) * (12 / 100)))) as [Hdown | Hndown].
           ++ split; [discriminate |]. split; [| lia].
              intros _ _. split; [nra |].
              intros i j Hi Hj. pose proof (Hwin i Hi). pose proof (Hwin j Hj). nra.
           ++ split; [discriminate |]. split; [discriminate | lia].
Qed.

Lemma detectMomentumFromPoints_threshold_witness :
  let buf := [0; 1; 1; 2; 2; 3; 3; 4; 4; 9; 9] in
  let start := (5 - 20)%nat in
  let tailStart := Nat.max start (5 - 5) in
  let delta := ptV buf (5 - 1) - ptV buf tailStart in
  let m := detectMomentumFromPoints buf 5 20 in
  ((5 < 5)%nat -> m = MomentumFlat) /\
  ((0 < 20)%nat ->
   (forall i, (start <= i < 5)%nat -> ptV buf i = ptV buf (5 - 1)) ->
     m = MomentumFlat) /\
  ((0 < 20)%nat -> m = MomentumUp ->
     0 < delta /\
     forall i j, (start <= i < 5)%nat -> (start <= j < 5)%nat ->
                 (ptV buf i - ptV buf j) * (12 / 100) < delta) /\
  ((0 < 20)%nat -> m = MomentumDown ->
     delta < 0 /\
     forall i j, (start <= i < 5)%nat -> (start <= j < 5)%nat ->
                 delta < - ((ptV buf i - ptV buf j) * (12 / 100))) /\
  (20%nat = 0%nat -> (5 <= 5)%nat ->
     m = if (2 * 5 + 1 <? length buf)%nat then MomentumUp else MomentumFlat).
Proof.
  apply (detectMomentumFromPoints_threshold [0; 1; 1; 2; 2; 3; 3; 4; 4; 9; 9] 5 20).
  simpl. lia.
Defined.

(** With a lookback of 0 a falling series is reported as rising when a
    number follows the live value in the buffer: here the last value is 9,
    slot 11 holds 100, and [delta = 9 - 100] is above the threshold
    [-Infinity]; on the engine's own buffer, which ends at the live value,
    the answer is "flat". *)
Lemma detectMomentumFromPoints_no_lookback :
  detectMomentumFromPoints [0; 1; 1; 2; 2; 3; 3; 4; 4; 9; 9; 100] 5 0 = MomentumUp /\
  detectMomentumFromPoints [0; 1; 1; 2; 2; 3; 3; 4; 4; 9; 9] 5 0 = MomentumFlat.
Proof. split; reflexivity. Qed.

(** X6. [resolveWindowBuffer] is never below the base buffer 0.05 nor
    above 37; without arrow room, or on a chart at least 740 px wide, it is
    the base buffer; with arrow room on a chart at least 1 px wide the
    buffer spans at least 37 px. *)
Theorem resolveWindowBuffer_bounds :
  forall chartWidth needsArrowRoom,
    let r := resolveWindowBuffer chartWidth needsArrowRoom in
    WINDOW_BUFFER <= r <= ARROW_BUFFER_PX /\
    (needsArrowRoom = false -> r = WINDOW_BUFFER) /\
    (740 <= chartWidth -> r = WINDOW_BUFFER) /\
    (needsArrowRoom = true -> 1 <= chartWidth -> ARROW_BUFFER_PX <= r * chartWidth).
Proof.
  intros w needs r. unfold r, resolveWindowBuffer, WINDOW_BUFFER, ARROW_BUFFER_PX.
  destruct needs.
  - assert (Hw : 1 <= Rmax w 1) by apply Rmax_r.
    assert (Hinv : 0 < / Rmax w 1 <= 1).
    { split; [apply Rinv_0_lt_compat; lra |].
      apply Rle_trans with (/ 1); [apply Rinv_le_contravar; lra |].
      rewrite Rinv_1. lra. }
    assert (Hq : 37 / Rmax w 1 <= 37) by (unfold Rdiv; nra).
    assert (Hq0 : 0 < 37 / Rmax w 1) by (unfold Rdiv; nra).
    repeat split.
    + apply Rmax_l.
    + apply Rmax_lub; lra.
    + discriminate.
    + intros Hwide. apply Rmax_left.
      rewrite (Rmax_left w 1) by lra.
      apply Rmult_le_reg_r with w; [lra |].
      unfold Rdiv. rewrite Rmult_assoc, Rinv_l by lra. lra.
    + intros _ H1. rewrite (Rmax_left w 1) by lra.
      apply Rle_trans with (37 / w * w).
      * unfold Rdiv. rewrite Rmult_assoc, Rinv_l by lra. lra.
      * apply Rmult_le_compat_r; [lra | apply Rmax_r].
  - repeat split; try lra; try reflexivity; intros; discriminate.
Qed.

Lemma resolveWindowBuffer_bounds_witness :
  let r := resolveWindowBuffer 300 true in
  WINDOW_BUFFER <= r <= ARROW_BUFFER_PX /\
  (true = false -> r = WINDOW_BUFFER) /\
  (740 <= 300 -> r = WINDOW_BUFFER) /\
  (true = true -> 1 <= 300 -> ARROW_BUFFER_PX <= r * 300).
Proof. exact (resolveWindowBuffer_bounds 300 true). Defined.

Ltac nice_cases :=
  unfold niceTimeInterval;
  repeat match goal with
    | |- context [Rle_dec ?a ?b] => destruct (Rle_dec a b)
    end.

(** X7. [niceTimeInterval] is positive and non-decreasing in the window
    length; for a window of at most one week at most 12 intervals fit into
    the window, and for a window over 15 s the interval is shorter than the
    window. *)
Theorem niceTimeInterval_ticks :
  forall w1 w2,
    w1 <= w2 ->
    0 < niceTimeInterval w1 /\
    niceTimeInterval w1 <= niceTimeInterval w2 /\
    (w1 <= 604800 -> w1 <= 12 * niceTimeInterval w1) /\
    (15 < w1 -> niceTimeInterval w1 < w1).
Proof.
  intros w1 w2 Hle. repeat split.
  - nice_cases; lra.
  - nice_cases; lra.
  - nice_cases; lra.
  - nice_cases; lra.
Qed.

Lemma niceTimeInterval_ticks_witness :
  0 < niceTimeInterval 45 /\
  niceTimeInterval 45 <= niceTimeInterval 900 /\
  (45 <= 604800 -> 45 <= 12 * niceTimeInterval 45) /\
  (15 < 45 -> niceTimeInterval 45 < 45).
Proof. apply (niceTimeInterval_ticks 45 900). lra. Defined.

(** ** One tick of the displayed value *)

(** X8. One tick of the displayed value (with the frame's own blend
    factor): the next value lies between the current value and the target,
    the gap to the target never grows, a value at its target stays there,
    and unless the engine is more than half paused a value within the snap
    threshold (0.001 of the range) of its target lands exactly on it, so
    that after a tick the value is either on the target or at least the
    threshold away from it. *)
Theorem advanceDisplay_converges :
  forall lerpSpeed targetValue curDisplay curRangeMin curRangeMax
         pausedRatio pauseProgress,
    let rng := currentRange curRangeMin curRangeMax in
    let alpha := frameAlpha (adaptiveSpeed lerpSpeed targetValue curDisplay
                                           curRangeMin curRangeMax) pausedRatio in
    let next := advanceDisplay curDisplay targetValue alpha pauseProgress rng in
    Rmin curDisplay targetValue <= next <= Rmax curDisplay targetValue /\
    Rabs (next - targetValue) <= Rabs (curDisplay - targetValue) /\
    (curDisplay = targetValue -> next = targetValue) /\
    (pauseProgress < 5 / 10 ->
       (Rabs (curDisplay - targetValue) < rng * VALUE_SNAP_THRESHOLD ->
          next = targetValue) /\
       (next = targetValue \/ rng * VALUE_SNAP_THRESHOLD <= Rabs (next - targetValue))).
Proof.
  intros lerpSpeed tgt cur lo hi pr pp rng alpha next.
  pose proof (frameAlpha_unit _ pr (adaptiveSpeed_range lerpSpeed tgt cur lo hi)) as Ha.
  fold alpha in Ha.
  pose proof (currentRange_pos lo hi) as Hr. fold rng in Hr.
  unfold next, advanceDisplay, VALUE_SNAP_THRESHOLD.
  set (l := cur + (tgt - cur) * alpha).
  assert (Hl : Rmin cur tgt <= l <= Rmax cur tgt) by (apply blend_between; exact Ha).
  assert (Hgap : l - tgt = (cur - tgt) * (1 - alpha)) by (unfold l; ring).
  assert (Habs : Rabs (l - tgt) <= Rabs (cur - tgt)).
  { rewrite Hgap, Rabs_mult, (Rabs_right (1 - alpha)) by lra.
    pose proof (Rabs_pos (cur - tgt)). nra. }
  assert (Ht : Rmin cur tgt <= tgt <= Rmax cur tgt)
    by (split; [apply Rmin_r | apply Rmax_r]).
  assert (H0 : Rabs (tgt - tgt) <= Rabs (cur - tgt))
    by (rewrite Rminus_diag, Rabs_R0; apply Rabs_pos).
  assert (Hfix : cur = tgt -> l = tgt) by (intros ->; unfold l; ring).
  destruct (Rlt_dec pp (5 / 10)) as [Hp | Hp].
  - destruct (Rlt_dec (Rabs (l - tgt)) (rng * (1 / 1000))) as [Hs | Hs].
    + split; [exact Ht |]. split; [exact H0 |]. split; [reflexivity |].
      intros _. split; [reflexivity | left; reflexivity].
    + split; [exact Hl |]. split; [exact Habs |]. split; [exact Hfix |].
      intros _. split; [intros Hc; lra | right; lra].
  - split; [exact Hl |]. split; [exact Habs |]. split; [exact Hfix |].
    intros Hc. lra.
Qed.

(** X9. The gap left by one step of [alphaLerp] with a speed in [0,1] is
    the fraction [(1 - speed)^ratio] of the gap before it: a longer frame
    leaves no more of the gap than a shorter one, and a positive speed with
    a positive ratio leaves strictly less than the whole gap. *)
Theorem alphaLerp_gap_shrinks :
  forall from to speed r1 r2,
    0 <= speed <= 1 -> 0 <= r1 <= r2 ->
    exists x1 x2 p1 p2,
      alphaLerp from to speed r1 = Fin x1 /\
      alphaLerp from to speed r2 = Fin x2 /\
      to - x1 = (to - from) * p1 /\
      to - x2 = (to - from) * p2 /\
      0 <= p2 <= p1 /\ p1 <= 1 /\
      Rabs (to - x2) <= Rabs (to - x1) /\
      (0 < speed -> 0 < r2 -> p2 < 1).
Proof.
  intros from to speed r1 r2 Hs Hr.
  destruct (alphaLerp_unit_speed from to speed r1 Hs ltac:(lra)) as (p1 & P1 & B1 & E1).
  destruct (alphaLerp_unit_speed from to speed (r2 - r1) Hs ltac:(lra)) as (q & Q & Bq & _).
  destruct (alphaLerp_unit_speed from to speed r2 Hs ltac:(lra)) as (p2 & P2 & B2 & E2).
  assert (Hprod : p2 = p1 * q).
  { pose proof (Math_pow_add (1 - speed) r1 (r2 - r1) p1 q ltac:(lra) ltac:(lra)
                  ltac:(lra) P1 Q) as Hadd.
    replace (r1 + (r2 - r1)) with r2 in Hadd by ring.
    rewrite P2 in Hadd. injection Hadd as ->. reflexivity. }
  exists (from + (to - from) * (1 - p1)), (from + (to - from) * (1 - p2)), p1, p2.
  assert (Hle : p2 <= p1) by nra.
  repeat split; try assumption; try lra; try ring.
  - replace (to - (from + (to - from) * (1 - p2))) with ((to - from) * p2) by ring.
    replace (to - (from + (to - from) * (1 - p1))) with ((to - from) * p1) by ring.
    rewrite !Rabs_mult, (Rabs_right p1), (Rabs_right p2) by lra.
    pose proof (Rabs_pos (to - from)). nra.
  - intros Hsp Hrp. unfold Math_pow in P2.
    destruct (Req_dec_T r2 0); [lra |].
    destruct (Rlt_dec 0 (1 - speed)) as [Hb | Hb].
    + injection P2 as <-.
      assert (E : exp (r2 * ln (1 - speed)) < exp 0).
      { apply exp_increasing.
        assert (ln (1 - speed) < 0).
        { replace 0 with (ln 1) by apply ln_1. apply ln_increasing; lra. }
        assert (0 < r2 * (- ln (1 - speed))) by (apply Rmult_lt_0_compat; lra).
        lra. }
      rewrite exp_0 in E. exact E.
    + destruct (Req_dec_T (1 - speed) 0); [| lra].
      destruct (Rlt_dec 0 r2); [| lra]. injection P2 as <-. lra.
Qed.

Lemma alphaLerp_gap_shrinks_witness :
  exists x1 x2 p1 p2,
    alphaLerp 0 100 (8 / 100) 1 = Fin x1 /\
    alphaLerp 0 100 (8 / 100) 3 = Fin x2 /\
    100 - x1 = (100 - 0) * p1 /\
    100 - x2 = (100 - 0) * p2 /\
    0 <= p2 <= p1 /\ p1 <= 1 /\
    Rabs (100 - x2) <= Rabs (100 - x1) /\
    (0 < 8 / 100 -> 0 < 3 -> p2 < 1).
Proof. apply (alphaLerp_gap_shrinks 0 100 (8 / 100) 1 3); lra. Defined.

(** ** Order of the range bounds *)

Lemma settleThreshold_bounds rng innerHeight :
  0 < rng -> 1 <= innerHeight ->
  0 < settleThreshold rng innerHeight <= rng * (5 / 10).
Proof.
  intros Hr Hh. unfold settleThreshold.
  destruct (Rlt_dec 0 innerHeight) as [_ | N]; [| lra].
  assert (Hq : 0 < 5 / 10 * rng / innerHeight <= rng * (5 / 10)).
  { split.
    - apply Rdiv_lt_0_compat; lra.
    - apply Rle_trans with (5 / 10 * rng / 1); [| lra].
      unfold Rdiv. apply Rmult_le_compat_l; [lra |].
      apply Rinv_le_contravar; lra. }
  destruct (Rlt_dec 0 (5 / 10 * rng / innerHeight)); lra.
Qed.

Lemma settled_bounds_ordered cmin cmax tmin tmax alpha th :
  0 <= alpha <= 1 -> 0 < cmax - cmin -> tmin <= tmax ->
  0 < th <= (cmax - cmin) * (5 / 10) ->
  settle (snapOrLerpMin cmin tmin ((cmax - cmin) * (5 / 10)) alpha) tmin th
  <= settle (snapOrLerpMax cmax tmax ((cmax - cmin) * (5 / 10)) alpha) tmax th.
Proof.
  intros Ha Hs Ht Hth.
  unfold settle, snapOrLerpMin, snapOrLerpMax.
  set (b := 1 - alpha).
  replace (cmin + (tmin - cmin) * alpha) with (tmin - (tmin - cmin) * b)
    by (unfold b; ring).
  replace (cmax + (tmax - cmax) * alpha) with (tmax - (tmax - cmax) * b)
    by (unfold b; ring).
  assert (Hb : 0 <= b <= 1) by (unfold b; lra).
  clearbody b. clear Ha alpha.
  split_cmp; try lra; try nra.
Qed.

Lemma dataExtent_brackets buf count first last cur ref :
  let ext := dataExtent buf count first last cur ref in
  fst ext <= cur <= snd ext /\
  (forall r, ref = Fin r -> fst ext <= r <= snd ext).
Proof.
  unfold dataExtent.
  set (base := match scanExtremes (visibleValues buf count first last) with
               | (Fin mn, Fin mx) => (mn, mx)
               | _ => (cur - 5 / 10, cur + 5 / 10)
               end).
  generalize base. intros [b1 b2]. cbn [fst snd].
  destruct ref as [r | | |]; cbn [fst snd]; split;
    try (intros r' Hr'; try discriminate; injection Hr' as <-);
    split_cmp; lra.
Qed.

Lemma widenRange_span min max exaggerate :
  min <= max ->
  let out := widenRange min max exaggerate in
  (if exaggerate then 4 / 100 else 4 / 10) <= range_max out - range_min out.
Proof.
  intros Hle. unfold widenRange.
  destruct exaggerate; split_cmp; cbn [range_min range_max]; lra.
Qed.

Lemma visibleValues_empty buf count first last :
  (last < first)%Z \/ (Z.of_nat count <= first)%Z ->
  visibleValues buf count first last = [].
Proof.
  intros H. unfold visibleValues, visibleIndices.
  replace (Z.to_nat (Z.min last (Z.of_nat count - 1) - first + 1)) with 0%nat by lia.
  reflexivity.
Qed.

(** X10. The target range is never degenerate, whatever the visible
    indices are: it contains the displayed value and a finite reference
    value, and its span is at least 0.4 (0.04 in exaggerated mode).  When
    no sample is visible and there is no reference line it is the
    displayed value -+ 0.62 (-+ 0.51 in exaggerated mode). *)
Theorem computeRangeFromVisible_never_degenerate :
  forall buf count first last cur ref exaggerate,
    (2 * count <= length buf)%nat -> (0 <= first)%Z ->
    let out := computeRangeFromVisible buf count first last cur ref exaggerate in
    range_min out <= cur <= range_max out /\
    (forall r, ref = Fin r -> range_min out <= r <= range_max out) /\
    (if exaggerate then 4 / 100 else 4 / 10) <= range_max out - range_min out /\
    ((last < first)%Z \/ (Z.of_nat count <= first)%Z ->
     isFinite ref = false ->
     out = if exaggerate
           then mkRange (cur - 51 / 100) (cur + 51 / 100)
           else mkRange (cur - 62 / 100) (cur + 62 / 100)).
Proof.
  intros buf count first last cur ref exaggerate _ _ out.
  destruct (dataExtent_brackets buf count first last cur ref) as [Hcur Href].
  set (ext := dataExtent buf count first last cur ref) in *.
  assert (Hle : fst ext <= snd ext) by lra.
  destruct (widenRange_covers (fst ext) (snd ext) exaggerate Hle) as (Wlo & Whi & _ & _).
  pose proof (widenRange_span (fst ext) (snd ext) exaggerate Hle) as Wspan.
  change (widenRange (fst ext) (snd ext) exaggerate) with out in *.
  split; [lra |]. split; [intros r Hr; specialize (Href r Hr); lra |].
  split; [exact Wspan |].
  intros Hempty Hnf.
  assert (Hext : ext = (cur - 5 / 10, cur + 5 / 10)).
  { unfold ext, dataExtent. rewrite (visibleValues_empty _ _ _ _ Hempty).
    cbn [scanExtremes fold_left fst snd].
    destruct (Rlt_dec cur (cur - 5 / 10)); [lra |].
    destruct (Rlt_dec (cur + 5 / 10) cur); [lra |].
    destruct ref; [discriminate | reflexivity ..]. }
  unfold out, computeRangeFromVisible. fold ext. rewrite Hext. cbn [fst snd].
  unfold widenRange.
  destruct exaggerate; split_cmp; try lra; f_equal; lra.
Qed.

Lemma computeRangeFromVisible_never_degenerate_witness :
  let out := computeRangeFromVisible sampleBuffer 3 2 (-1) 7 NaN true in
  range_min out <= 7 <= range_max out /\
  (forall r, NaN = Fin r -> range_min out <= r <= range_max out) /\
  (if true then 4 / 100 else 4 / 10) <= range_max out - range_min out /\
  ((-1 < 2)%Z \/ (Z.of_nat 3 <= 2)%Z ->
   isFinite NaN = false ->
   out = if true
         then mkRange (7 - 51 / 100) (7 + 51 / 100)
         else mkRange (7 - 62 / 100) (7 + 62 / 100)).
Proof.
  apply (computeRangeFromVisible_never_degenerate sampleBuffer 3 2 (-1) 7 NaN true).
  - simpl. lia.
  - lia.
Defined.

(** X11. The displayed range keeps its bounds in order over a tick: if the
    range has not been initialised, or its span is at least the engine's
    floor of 1e-6, then after the advance (outward snap, interpolation and
    sub-pixel settle included) the lower bound is at most the upper one.
    Before the first tick the next range is the target itself, whose span
    is at least 0.04. *)
Theorem advanceValueRange_bounds_ordered :
  forall inp s,
    (0 <= fi_firstVisible inp)%Z ->
    rangeInitedSV s = false \/ 1 / 1000000 <= rangeMaxSV s - rangeMinSV s ->
    let adv := advanceValueRange inp s in
    nextRangeMin adv <= nextRangeMax adv /\
    (rangeInitedSV s = false -> 4 / 100 <= nextRangeMax adv - nextRangeMin adv).
Proof.
  intros inp s _ H adv. unfold adv, advanceValueRange. cbn [nextRangeMin nextRangeMax].
  set (out := computeRangeFromVisible _ _ _ _ _ _ _).
  assert (Hspan : 4 / 100 <= range_max out - range_min out).
  { unfold out, computeRangeFromVisible.
    match goal with |- context [dataExtent ?b ?c ?f ?l ?v ?r] =>
      destruct (dataExtent_brackets b c f l v r) as [Hc _];
      pose proof (widenRange_span (fst (dataExtent b c f l v r))
                    (snd (dataExtent b c f l v r)) (fi_exaggerate inp)
                    ltac:(lra)) as W
    end.
    cbv zeta in W. destruct (fi_exaggerate inp); lra. }
  unfold advanceRange.
  destruct (rangeInitedSV s) eqn:Hin.
  - cbn [fst snd]. split; [| discriminate].
    destruct H as [H | H]; [discriminate |].
    assert (Hrng : currentRange (rangeMinSV s) (rangeMaxSV s)
                   = rangeMaxSV s - rangeMinSV s).
    { unfold currentRange, Rmax. destruct (Rle_dec _ _); lra. }
    rewrite Hrng.
    apply settled_bounds_ordered.
    + apply frameAlpha_unit. apply adaptiveSpeed_range.
    + lra.
    + lra.
    + replace ((rangeMaxSV s - rangeMinSV s) * (5 / 10))
        with ((rangeMaxSV s - rangeMinSV s) * (5 / 10)) by reflexivity.
      apply settleThreshold_bounds; [lra |].
      unfold innerHeightOf. apply Rmax_l.
  - cbn [fst snd]. split; [lra | intros _; lra].
Qed.

Lemma advanceValueRange_bounds_ordered_witness :
  let s := mkState 2 (2 - 5 / 10) (2 + 5 / 10) true (-1)
                   0 0 false (mkMorph 60 60 0 (-1) 0 0 0 0) false [] in
  let adv := advanceValueRange sampleInput s in
  nextRangeMin adv <= nextRangeMax adv /\
  (rangeInitedSV s = false ->
   4 / 100 <= nextRangeMax adv - nextRangeMin adv).
Proof.
  intros s.
  apply (advanceValueRange_bounds_ordered sampleInput s).
  - cbn. lia.
  - right. cbn. lra.
Defined.

(** ** Packing what was packed *)

Lemma cleanPoints_asInputPoint l : cleanPoints (map asInputPoint l) = l.
Proof.
  induction l as [| [t v] l IH]; cbn; [reflexivity |]. rewrite IH. reflexivity.
Qed.

Lemma insertByTime_head x l :
  Forall (timeLe x) l -> insertByTime x l = x :: l.
Proof.
  intros H. destruct l as [| y l]; [reflexivity |]. cbn.
  inversion H as [| ? ? Hxy _]; subst.
  unfold comparesAfter. unfold timeLe in Hxy.
  apply Qle_bool_iff in Hxy. rewrite Hxy. reflexivity.
Qed.

Lemma sortByTime_sorted_id l : StronglySorted timeLe l -> sortByTime l = l.
Proof.
  induction 1 as [| x l _ IH Hx]; cbn; [reflexivity |].
  rewrite IH. apply insertByTime_head. exact Hx.
Qed.

Lemma capPoints_short l : (length l <= MAX_POINTS)%nat -> capPoints l = l.
Proof.
  intros H. unfold capPoints.
  destruct (Nat.ltb_spec MAX_POINTS (length l)); [lia | reflexivity].
Qed.

Lemma packPoints_sorted_input l :
  StronglySorted timeLe l -> (length l <= MAX_POINTS)%nat ->
  packPoints (map asInputPoint l) = mkPacked (flattenPoints l) (length l).
Proof.
  intros Hs Hl. unfold packPoints, cappedPoints.
  rewrite cleanPoints_asInputPoint, (sortByTime_sorted_id l Hs), (capPoints_short l Hl).
  reflexivity.
Qed.

(** X12. Packing is idempotent: handing the samples the engine retained
    back to [packPoints] gives the same buffer and the same count.  Entries
    already clean, in time order and at most 1200 in number are stored as
    they are, samples of equal time keeping their order. *)
Theorem packPoints_idempotent :
  forall data,
    packPoints (map asInputPoint (cappedPoints data)) = packPoints data /\
    cappedPoints (map asInputPoint (cappedPoints data)) = cappedPoints data.
Proof.
  intros data.
  assert (Hs : StronglySorted timeLe (cappedPoints data)).
  { unfold cappedPoints.
    rewrite (proj1 (capPoints_suffix _)). apply skipn_sorted, sortByTime_sorted. }
  assert (Hl : (length (cappedPoints data) <= MAX_POINTS)%nat).
  { unfold cappedPoints. rewrite (proj2 (capPoints_suffix _)). apply Nat.le_min_r. }
  split.
  - rewrite (packPoints_sorted_input _ Hs Hl). reflexivity.
  - unfold cappedPoints at 1.
    rewrite cleanPoints_asInputPoint, (sortByTime_sorted_id _ Hs), (capPoints_short _ Hl).
    reflexivity.
Qed.

(** ** Candle width morph, candle range and series slots *)

Lemma Math_pow_lt_1 speed r p :
  0 < speed <= 1 -> 0 < r -> Math_pow (1 - speed) r = Fin p -> p < 1.
Proof.
  intros Hs Hr P. unfold Math_pow in P.
  destruct (Req_dec_T r 0); [lra |].
  destruct (Rlt_dec 0 (1 - speed)) as [Hb | Hb].
  - injection P as <-.
    assert (E : exp (r * ln (1 - speed)) < exp 0).
    { apply exp_increasing.
      assert (ln (1 - speed) < 0).
      { replace 0 with (ln 1) by apply ln_1. apply ln_increasing; lra. }
      assert (0 < r * (- ln (1 - speed))) by (apply Rmult_lt_0_compat; lra).
      lra. }
    rewrite exp_0 in E. exact E.
  - destruct (Req_dec_T (1 - speed) 0); [| lra].
    destruct (Rlt_dec 0 r); [| lra]. injection P as <-. lra.
Qed.

Lemma lerpStep_blend from to speed r :
  0 <= speed <= 1 -> 0 <= r ->
  exists p, Math_pow (1 - speed) r = Fin p /\ 0 <= p <= 1 /\
            lerpStep from to speed r = to - (to - from) * p.
Proof.
  intros Hs Hr.
  destruct (alphaLerp_unit_speed from to speed r Hs Hr) as (p & P & B & E).
  exists p. split; [exact P |]. split; [exact B |].
  unfold lerpStep. rewrite E. ring.
Qed.



(** X14. One tick of the candle range towards a target: both bounds keep
    the same fraction [p] of their gap, with [0 <= p <= 1] and [p < 1] as
    soon as time has passed, so that neither bound overshoots its target
    and ordered bounds stay ordered; the first target is taken as it is,
    and the range counts as initialised afterwards. *)
Theorem advanceCandleRange_converges :
  forall inited curMin curMax target ratio,
    0 <= ratio ->
    let next := advanceCandleRange inited curMin curMax (Some target) ratio in
    exists p,
      0 <= p <= 1 /\
      fst (fst next) = range_min target - (range_min target - curMin) * p /\
      snd (fst next) = range_max target - (range_max target - curMax) * p /\
      snd next = true /\
      (inited = false -> p = 0) /\
      (0 < ratio -> p < 1) /\
      (curMin <= curMax -> range_min target <= range_max target ->
       fst (fst next) <= snd (fst next)).
Proof.
  intros inited curMin curMax target ratio Hr next.
  unfold next, advanceCandleRange.
  destruct inited.
  - set (speed := CANDLE_RANGE_LERP_SPEED + _).
    assert (Hs : 15 / 100 <= speed <= 35 / 100).
    { unfold speed, CANDLE_RANGE_LERP_SPEED, CANDLE_RANGE_ADAPTIVE_BOOST.
      match goal with |- context [Rmin ?g 1] =>
        assert (Hg : 0 <= g);
        [| pose proof (Rmin_r g 1); pose proof (Rmin_glb g 1 0 Hg ltac:(lra)); lra]
      end.
      destruct (Rlt_dec 0 (curMax - curMin)); [| lra].
      apply Rmult_le_pos.
      - apply Rle_trans with (Rabs (range_min target - curMin));
          [apply Rabs_pos | apply Rmax_l].
      - left. apply Rinv_0_lt_compat. assumption. }
    cbn [fst snd].
    destruct (lerpStep_blend curMin (range_min target) speed ratio ltac:(lra) Hr)
      as (p & P & B & E1).
    destruct (lerpStep_blend curMax (range_max target) speed ratio ltac:(lra) Hr)
      as (p' & P' & _ & E2).
    rewrite P in P'. injection P' as <-.
    exists p. rewrite E1, E2.
    repeat split; try lra; try discriminate.
    + intros Hpos. apply (Math_pow_lt_1 speed ratio p); [lra | exact Hpos | exact P].
    + intros Hc Ht. nra.
  - exists 0. cbn [fst snd]. repeat split; try lra; intros; lra.
Qed.

Lemma advanceCandleRange_converges_witness :
  let next := advanceCandleRange true 90 110 (Some (mkRange 95 120)) 1 in
  exists p,
    0 <= p <= 1 /\
    fst (fst next) = range_min (mkRange 95 120) - (range_min (mkRange 95 120) - 90) * p /\
    snd (fst next) = range_max (mkRange 95 120) - (range_max (mkRange 95 120) - 110) * p /\
    snd next = true /\
    (true = false -> p = 0) /\
    (0 < 1 -> p < 1) /\
    (90 <= 110 -> range_min (mkRange 95 120) <= range_max (mkRange 95 120) ->
     fst (fst next) <= snd (fst next)).
Proof.
  apply (advanceCandleRange_converges true 90 110 (mkRange 95 120) 1). lra.
Defined.

(** X15. One tick of the series slots: the pool keeps its size; a slot is
    active exactly when a series stands at its index; an opacity in [0,1]
    stays in [0,1] and is never left strictly between 0 and 0.01, nor, for
    an active slot, strictly between 0.99 and 1; the opacity of a slot
    without a series does not grow, nor does that of a hidden series whose
    opacity was 1 or at most 0.99 (an opacity strictly between 0.99 and 1
    that is still above 0.99 after the step is put back to 1). *)
Theorem advanceSlots_alpha :
  forall slots series speed pausedRatio ratio,
    0 <= ratio ->
    Forall (fun sl => 0 <= slot_alpha sl <= 1) slots ->
    let out := advanceSlots slots series speed pausedRatio ratio in
    length out = length slots /\
    Forall (fun sl => (slot_alpha sl = 0 \/ 1 / 100 <= slot_alpha sl) /\
                      slot_alpha sl <= 1 /\
                      (slot_active sl = true ->
                       slot_alpha sl = 1 \/ slot_alpha sl <= 99 / 100)) out /\
    (forall i sl, nth_error out i = Some sl ->
       slot_active sl = (i <? length series)%nat) /\
    (forall i old new, nth_error slots i = Some old -> nth_error out i = Some new ->
       (forall ser, nth_error series i = Some ser ->
          ser_hidden ser = true /\
          (slot_alpha old <= 99 / 100 \/ slot_alpha old = 1)) ->
       slot_alpha new <= slot_alpha old).
Proof.
  intros slots series speed pr ratio Hr Hall.
  revert series. induction Hall as [| slot slots Ha _ IH]; intros series out.
  - cbn. split; [reflexivity |]. split; [constructor |]. split.
    + intros [| i] sl Hx; discriminate.
    + intros [| i] o n' Hx; discriminate.
  - unfold out. cbn [advanceSlots].
    destruct series as [| ser series].
    + destruct (IH []) as (IL & IA & IN & IM).
      destruct (lerpStep_blend (slot_alpha slot) 0 SERIES_TOGGLE_SPEED ratio
                  ltac:(unfold SERIES_TOGGLE_SPEED; lra) Hr) as (p & _ & B & E).
      assert (Hb : 0 <= lerpStep (slot_alpha slot) 0 SERIES_TOGGLE_SPEED ratio
                   <= slot_alpha slot) by (rewrite E; nra).
      split; [cbn [length]; f_equal; exact IL |].
      split.
      { constructor; [| exact IA]. cbn [slot_alpha slot_active].
        destruct (Rlt_dec _ (1 / 100));
          (split; [first [left; reflexivity | right; lra] |]);
          (split; [lra | discriminate]). }
      split.
      { intros [| i] sl Hx; cbn in Hx.
        - injection Hx as <-. reflexivity.
        - rewrite (IN i sl Hx). reflexivity. }
      intros [| i] o n' Ho Hn Hh; cbn in Ho, Hn.
      * injection Ho as <-. injection Hn as <-. cbn [slot_alpha].
        destruct (Rlt_dec _ (1 / 100)); lra.
      * apply (IM i o n' Ho Hn). intros ser Hs. destruct i; discriminate.
    + destruct (IH series) as (IL & IA & IN & IM).
      set (tgt := if ser_hidden ser then 0 else 1).
      destruct (lerpStep_blend (slot_alpha slot) tgt SERIES_TOGGLE_SPEED ratio
                  ltac:(unfold SERIES_TOGGLE_SPEED; lra) Hr) as (p & _ & B & E).
      assert (Hb : 0 <= lerpStep (slot_alpha slot) tgt SERIES_TOGGLE_SPEED ratio <= 1)
        by (rewrite E; unfold tgt; destruct (ser_hidden ser); nra).
      split; [cbn [length]; f_equal; exact IL |].
      split.
      { constructor; [| exact IA]. cbn [slot_alpha slot_active].
        destruct (Rlt_dec _ (1 / 100)).
        - destruct (Rlt_dec (99 / 100) 0); [lra |].
          split; [left; reflexivity |]. split; [lra |]. intros _. right. lra.
        - destruct (Rlt_dec (99 / 100) _).
          + split; [right; lra |]. split; [lra |]. intros _. left. reflexivity.
          + split; [right; lra |]. split; [lra |]. intros _. right. lra. }
      split.
      { intros [| i] sl Hx; cbn in Hx.
        - injection Hx as <-. reflexivity.
        - rewrite (IN i sl Hx). reflexivity. }
      intros [| i] o n' Ho Hn Hh; cbn in Ho, Hn.
      * injection Ho as <-. injection Hn as <-. cbn [slot_alpha] in *.
        pose proof (Hh ser eq_refl) as Hq. destruct Hq as [Hhid Hold].
        assert (Hle : lerpStep (slot_alpha slot) tgt SERIES_TOGGLE_SPEED ratio
                      <= slot_alpha slot).
        { rewrite E. unfold tgt. rewrite Hhid. nra. }
        destruct (Rlt_dec _ (1 / 100)).
        -- destruct (Rlt_dec (99 / 100) 0); lra.
        -- destruct (Rlt_dec (99 / 100) _); lra.
      * apply (IM i o n' Ho Hn). intros ser' Hs. apply (Hh ser'). exact Hs.
Qed.

Lemma advanceSlots_alpha_witness :
  let slots := [mkSlot true 1 2; mkSlot true (5 / 1000) 4; mkSlot false 0 0] in
  let series := [mkSeries [1; 3; 2] 3 2 false; mkSeries [5; 4] 2 4 true] in
  let out := advanceSlots slots series (8 / 100) 1 1 in
  length out = length slots /\
  Forall (fun sl => (slot_alpha sl = 0 \/ 1 / 100 <= slot_alpha sl) /\
                    slot_alpha sl <= 1 /\
                    (slot_active sl = true ->
                     slot_alpha sl = 1 \/ slot_alpha sl <= 99 / 100)) out /\
  (forall i sl, nth_error out i = Some sl ->
     slot_active sl = (i <? length series)%nat) /\
  (forall i old new, nth_error slots i = Some old -> nth_error out i = Some new ->
     (forall ser, nth_error series i = Some ser ->
        ser_hidden ser = true /\
        (slot_alpha old <= 99 / 100 \/ slot_alpha old = 1)) ->
     slot_alpha new <= slot_alpha old).
Proof.
  apply (advanceSlots_alpha
           [mkSlot true 1 2; mkSlot true (5 / 1000) 4; mkSlot false 0 0]
           [mkSeries [1; 3; 2] 3 2 false; mkSeries [5; 4] 2 4 true]
           (8 / 100) 1 1).
  - lra.
  - repeat constructor; cbn; lra.
Defined.

Lemma scanExtremes_ordered vs mn mx :
  scanExtremes vs = (Fin mn, Fin mx) -> mn <= mx.
Proof.
  intros E. destruct vs as [| v vs]; [discriminate |].
  destruct (scanExtremes_nonempty (v :: vs) ltac:(discriminate))
    as (lo & hi & E' & Hle & _).
  rewrite E in E'. injection E' as -> ->. exact Hle.
Qed.

Lemma multiTargetRange_span slots series exaggerate :
  4 / 100 <= range_max (multiTargetRange slots series exaggerate)
             - range_min (multiTargetRange slots series exaggerate).
Proof.
  unfold multiTargetRange.
  assert (W : forall a b, a <= b ->
            4 / 100 <= range_max (widenRange a b exaggerate)
                       - range_min (widenRange a b exaggerate)).
  { intros a b Hab. pose proof (widenRange_span a b exaggerate Hab) as H.
    cbv zeta in H. destruct exaggerate; lra. }
  destruct (scanExtremes _) as [[mn | | |] [mx | | |]] eqn:E; try (apply W; lra).
  apply W. apply (scanExtremes_ordered _ _ _ E).
Qed.

Lemma snapOrLerp_span cmin cmax tmin tmax th alpha :
  0 <= alpha <= 1 -> 0 <= th ->
  Rmin (cmax - cmin) (tmax - tmin)
  <= snapOrLerpMax cmax tmax th alpha - snapOrLerpMin cmin tmin th alpha.
Proof.
  intros Ha Hth. unfold snapOrLerpMin, snapOrLerpMax.
  set (b := 1 - alpha).
  replace (cmin + (tmin - cmin) * alpha) with (tmin - (tmin - cmin) * b)
    by (unfold b; ring).
  replace (cmax + (tmax - cmax) * alpha) with (tmax - (tmax - cmax) * b)
    by (unfold b; ring).
  assert (Hb : 0 <= b <= 1) by (unfold b; lra).
  clearbody b. clear Ha alpha.
  split_cmp; try lra; try nra.
Qed.

(** X16. With several series the shared Y-range never collapses: after a
    frame its span is at least the smaller of the span before the frame and
    0.04, the least span of a target range; in particular ordered bounds
    stay ordered.  (The multi-series branch snaps outward and interpolates
    but has no settle step.) *)
Theorem multi_range_span_kept :
  forall inp s,
    fi_isMulti inp = true ->
    let s' := snd (frameCallback inp s) in
    Rmin (rangeMaxSV s - rangeMinSV s) (4 / 100) <= rangeMaxSV s' - rangeMinSV s' /\
    (rangeMinSV s <= rangeMaxSV s -> rangeMinSV s' <= rangeMaxSV s').
Proof.
  intros inp s Hm s'.
  assert (Hspan : Rmin (rangeMaxSV s - rangeMinSV s) (4 / 100)
                  <= rangeMaxSV s' - rangeMinSV s').
  { unfold s', frameCallback.
    destruct (Rle_dec (fi_width inp) 0); [apply Rmin_l |].
    destruct (Rle_dec (fi_height inp) 0); [apply Rmin_l |].
    destruct (ptsCountOf (fi_pts inp) =? 0)%nat; [apply Rmin_l |].
    unfold renderAndCommit. cbn [snd rangeMinSV rangeMaxSV].
    unfold multiPipeline. rewrite Hm. cbn [mr_next nextRangeMin nextRangeMax].
    set (target := multiTargetRange _ _ _).
    pose proof (multiTargetRange_span
                  (advanceSlots (seriesSlotsSV s) (firstn MAX_SERIES (fi_series inp))
                     (adaptiveSpeed (fi_lerpSpeed inp) (targetValueOf inp)
                        (displayValueSV s) (rangeMinSV s) (rangeMaxSV s))
                     (pausedRatioOf inp) (fi_ratio inp))
                  (firstn MAX_SERIES (fi_series inp)) (fi_exaggerate inp)) as Ht.
    fold target in Ht.
    destruct (multiSeriesRangeInitedSV s); cbn [fst snd].
    - eapply Rle_trans; [| apply snapOrLerp_span].
      + apply Rmin_glb; [apply Rmin_l |].
        eapply Rle_trans; [apply Rmin_r | exact Ht].
      + apply frameAlpha_unit, adaptiveSpeed_range.
      + apply Rmult_le_pos; [| lra].
        apply Rle_trans with (1 / 1000000); [lra | apply Rmax_l].
    - eapply Rle_trans; [apply Rmin_r | exact Ht]. }
  split; [exact Hspan |].
  intros Hord.
  assert (0 <= Rmin (rangeMaxSV s - rangeMinSV s) (4 / 100))
    by (apply Rmin_glb; lra).
  lra.
Qed.

Lemma multi_range_span_kept_witness :
  let s' := snd (frameCallback multiInput multiState) in
  Rmin (rangeMaxSV multiState - rangeMinSV multiState) (4 / 100)
  <= rangeMaxSV s' - rangeMinSV s' /\
  (rangeMinSV multiState <= rangeMaxSV multiState -> rangeMinSV s' <= rangeMaxSV s').
Proof. apply (multi_range_span_kept multiInput multiState). reflexivity. Defined.

(** ** Crosshair *)

Lemma strictlyIncreasing_mono buf count i j :
  strictlyIncreasing buf count -> (i < j)%nat -> (j < count)%nat ->
  ptT buf i < ptT buf j.
Proof.
  intros Hs Hij Hj. induction j as [| j IH]; [lia |].
  destruct (Nat.eq_dec i j) as [-> | Hne].
  - apply Hs. exact Hj.
  - apply Rlt_trans with (ptT buf j); [apply IH; lia | apply Hs; exact Hj].
Qed.

(** X17. Linear read-out of a series at a time: before the first sample
    and after the last one the end values are returned; in between the
    result is the straight line through two consecutive samples that
    bracket the time, hence between their two values, whatever the order
    of the buffer; with strictly increasing times the read-out at a sample
    time is that sample's value. *)
Theorem interpolateSeriesAtTime_linear :
  forall buf count t,
    (2 * count <= length buf)%nat ->
    let r := interpolateSeriesAtTime buf count t in
    (count = 0%nat -> r = 0) /\
    ((0 < count)%nat -> t <= ptT buf 0 -> r = ptV buf 0) /\
    ((0 < count)%nat -> ptT buf 0 < t -> ptT buf (count - 1) <= t ->
       r = ptV buf (count - 1)) /\
    ((0 < count)%nat -> ptT buf 0 < t < ptT buf (count - 1) ->
       exists l, (S l < count)%nat /\ ptT buf l <= t < ptT buf (S l) /\
         r = ptV buf l + (ptV buf (S l) - ptV buf l)
                         * ((t - ptT buf l) / (ptT buf (S l) - ptT buf l)) /\
         Rmin (ptV buf l) (ptV buf (S l)) <= r <= Rmax (ptV buf l) (ptV buf (S l))) /\
    (strictlyIncreasing buf count ->
     forall k, (k < count)%nat ->
       interpolateSeriesAtTime buf count (ptT buf k) = ptV buf k).
Proof.
  intros buf count t _ r.
  assert (Hmid : forall t', (0 < count)%nat -> ptT buf 0 < t' < ptT buf (count - 1) ->
     exists l, (S l < count)%nat /\ ptT buf l <= t' < ptT buf (S l) /\
       interpolateSeriesAtTime buf count t'
       = ptV buf l + (ptV buf (S l) - ptV buf l)
                     * ((t' - ptT buf l) / (ptT buf (S l) - ptT buf l))).
  { intros t' Hc [H1 H2]. unfold interpolateSeriesAtTime.
    destruct (Nat.eqb_spec count 0) as [-> | _]; [lia |].
    destruct (Rle_dec t' (ptT buf 0)); [lra |].
    destruct (Rge_dec t' (ptT buf (count - 1))); [lra |].
    assert (Hlt : (0 < count - 1)%nat).
    { destruct (Nat.eq_dec (count - 1) 0) as [E | E]; [rewrite E in H2; lra | lia]. }
    destruct (findSegment_bracket buf t' 0 (count - 1) Hlt ltac:(lra) ltac:(lra))
      as (l & E & _ & B & Tl & Th).
    rewrite E. cbn [fst snd].
    destruct (Rle_dec (ptT buf (S l) - ptT buf l) 0); [lra |].
    exists l. split; [lia |]. split; [lra | reflexivity]. }
  split; [| split; [| split; [| split]]].
  - intros ->. reflexivity.
  - intros Hc Ht. unfold r, interpolateSeriesAtTime.
    destruct (Nat.eqb_spec count 0); [lia |].
    destruct (Rle_dec t (ptT buf 0)); [reflexivity | lra].
  - intros Hc H1 H2. unfold r, interpolateSeriesAtTime.
    destruct (Nat.eqb_spec count 0); [lia |].
    destruct (Rle_dec t (ptT buf 0)); [lra |].
    destruct (Rge_dec t (ptT buf (count - 1))); [reflexivity | lra].
  - intros Hc Ht. destruct (Hmid t Hc Ht) as (l & Hl & Hb & E).
    exists l. split; [exact Hl |]. split; [exact Hb |]. split; [exact E |].
    fold r in E. rewrite E.
    set (u := (t - ptT buf l) / (ptT buf (S l) - ptT buf l)).
    assert (Hu : 0 <= u <= 1).
    { unfold u. split.
      - apply Rmult_le_pos; [lra |]. left. apply Rinv_0_lt_compat. lra.
      - apply Rmult_le_reg_r with (ptT buf (S l) - ptT buf l); [lra |].
        unfold Rdiv. rewrite Rmult_assoc, Rinv_l by lra. lra. }
    apply blend_between. exact Hu.
  - intros Hs k Hk.
    destruct (Rle_dec (ptT buf k) (ptT buf 0)) as [Hle | Hgt].
    + assert (k = 0)%nat as ->.
      { destruct k; [reflexivity |].
        pose proof (strictlyIncreasing_mono buf count 0 (S k) Hs ltac:(lia) Hk). lra. }
      unfold interpolateSeriesAtTime.
      destruct (Nat.eqb_spec count 0); [lia |].
      destruct (Rle_dec (ptT buf 0) (ptT buf 0)); [reflexivity | lra].
    + destruct (Rge_dec (ptT buf k) (ptT buf (count - 1))) as [Hge | Hlt].
      * assert (k = count - 1)%nat as ->.
        { destruct (Nat.eq_dec k (count - 1)) as [E | E]; [exact E |].
          pose proof (strictlyIncreasing_mono buf count k (count - 1) Hs
                        ltac:(lia) ltac:(lia)). lra. }
        unfold interpolateSeriesAtTime.
        destruct (Nat.eqb_spec count 0); [lia |].
        destruct (Rle_dec _ _); [lra |].
        destruct (Rge_dec _ _); [reflexivity | lra].
      * destruct (Hmid (ptT buf k) ltac:(lia) ltac:(lra)) as (l & Hl & [B1 B2] & E).
        assert (l = k) as ->.
        { destruct (Nat.lt_trichotomy l k) as [L | [L | L]]; [| exact L |].
          - destruct (Nat.eq_dec (S l) k) as [<- | Hne]; [lra |].
            pose proof (strictlyIncreasing_mono buf count (S l) k Hs
                          ltac:(lia) ltac:(lia)). lra.
          - pose proof (strictlyIncreasing_mono buf count k l Hs L ltac:(lia)). lra. }
        rewrite E. unfold Rdiv. rewrite Rminus_diag, Rmult_0_l, Rmult_0_r. ring.
Qed.

Lemma interpolateSeriesAtTime_linear_witness :
  let r := interpolateSeriesAtTime sampleBuffer 3 (1 / 2) in
  (3%nat = 0%nat -> r = 0) /\
  ((0 < 3)%nat -> 1 / 2 <= ptT sampleBuffer 0 -> r = ptV sampleBuffer 0) /\
  ((0 < 3)%nat -> ptT sampleBuffer 0 < 1 / 2 -> ptT sampleBuffer (3 - 1) <= 1 / 2 ->
     r = ptV sampleBuffer (3 - 1)) /\
  ((0 < 3)%nat -> ptT sampleBuffer 0 < 1 / 2 < ptT sampleBuffer (3 - 1) ->
     exists l, (S l < 3)%nat /\ ptT sampleBuffer l <= 1 / 2 < ptT sampleBuffer (S l) /\
       r = ptV sampleBuffer l + (ptV sampleBuffer (S l) - ptV sampleBuffer l)
                       * ((1 / 2 - ptT sampleBuffer l)
                          / (ptT sampleBuffer (S l) - ptT sampleBuffer l)) /\
       Rmin (ptV sampleBuffer l) (ptV sampleBuffer (S l)) <= r
       <= Rmax (ptV sampleBuffer l) (ptV sampleBuffer (S l))) /\
  (strictlyIncreasing sampleBuffer 3 ->
   forall k, (k < 3)%nat ->
     interpolateSeriesAtTime sampleBuffer 3 (ptT sampleBuffer k) = ptV sampleBuffer k).
Proof.
  apply (interpolateSeriesAtTime_linear sampleBuffer 3 (1 / 2)). simpl. lia.
Defined.

(** X18. Crosshair state: for a plot of positive width the hover position
    is held inside the plot and the hover time inside the window; the
    value is the spline read-out at the hover time; the opacity is always
    in [0,1], is 0 closer than 5 px to the live dot, never exceeds a scrub
    amount taken in [0,1], equals it from the fade distance
    [min(80, 0.3 * innerWidth)] on, and does not decrease as the distance
    to the live dot grows. *)
Theorem updateCrosshairState_bounds :
  forall hoverX buf count start windowSecsNow rangeMin rangeSpan
         paddingLeft paddingTop innerWidth innerHeight dotX scrubAmount,
    0 < innerWidth -> 0 <= windowSecsNow ->
    let out := updateCrosshairState hoverX buf count start windowSecsNow
                 rangeMin rangeSpan paddingLeft paddingTop innerWidth
                 innerHeight dotX scrubAmount in
    paddingLeft <= ch_hx out <= paddingLeft + innerWidth /\
    start <= ch_ht out <= start + windowSecsNow /\
    ch_hv out = interpolateAtTime buf count (ch_ht out) /\
    0 <= ch_opacity out <= 1 /\
    (dotX - ch_hx out < 5 -> ch_opacity out = 0) /\
    (0 <= scrubAmount <= 1 ->
       ch_opacity out <= scrubAmount /\
       (5 <= dotX - ch_hx out -> Rmin 80 (innerWidth * (3 / 10)) <= dotX - ch_hx out ->
          ch_opacity out = scrubAmount) /\
       (forall dotX',
          dotX <= dotX' ->
          ch_opacity out
          <= ch_opacity (updateCrosshairState hoverX buf count start windowSecsNow
                           rangeMin rangeSpan paddingLeft paddingTop innerWidth
                           innerHeight dotX' scrubAmount))).
Proof.
  intros hoverX buf count start w rangeMin rangeSpan pl pt iw ih dotX scrub Hiw Hw out.
  unfold out, updateCrosshairState.
  cbn [ch_hx ch_hy ch_ht ch_hv ch_opacity].
  set (hx := clamp hoverX pl (pl + iw)).
  assert (Hhx : pl <= hx <= pl + iw) by (apply clamp_bounds; lra).
  set (q := (hx - pl) / iw).
  assert (Hq : 0 <= q <= 1).
  { unfold q. split.
    - apply Rmult_le_pos; [lra |]. left. apply Rinv_0_lt_compat. exact Hiw.
    - apply Rmult_le_reg_r with iw; [exact Hiw |].
      unfold Rdiv. rewrite Rmult_assoc, Rinv_l by lra. lra. }
  set (fadeStart := Rmin 80 (iw * (3 / 10))).
  unfold CROSSHAIR_FADE_MIN_PX.
  assert (Hfrac : forall d, 5 <= d -> d < fadeStart ->
            0 <= (d - 5) / Rmax (1 / 1000000) (fadeStart - 5) <= 1).
  { intros d H5 Hf.
    assert (Hden : 0 < Rmax (1 / 1000000) (fadeStart - 5)).
    { apply Rlt_le_trans with (1 / 1000000); [lra | apply Rmax_l]. }
    pose proof (Rmax_r (1 / 1000000) (fadeStart - 5)).
    split.
    - apply Rmult_le_pos; [lra |]. left. apply Rinv_0_lt_compat. exact Hden.
    - apply Rmult_le_reg_r with (Rmax (1 / 1000000) (fadeStart - 5)); [exact Hden |].
      unfold Rdiv. rewrite Rmult_assoc, Rinv_l by lra. lra. }
  assert (Hmono : forall d d', 5 <= d -> d <= d' -> d' < fadeStart ->
            (d - 5) / Rmax (1 / 1000000) (fadeStart - 5)
            <= (d' - 5) / Rmax (1 / 1000000) (fadeStart - 5)).
  { intros d d' H5 Hd Hf.
    assert (Hden : 0 < Rmax (1 / 1000000) (fadeStart - 5)).
    { apply Rlt_le_trans with (1 / 1000000); [lra | apply Rmax_l]. }
    unfold Rdiv. apply Rmult_le_compat_r; [| lra].
    left. apply Rinv_0_lt_compat. exact Hden. }
  split; [exact Hhx |].
  split; [nra |].
  split; [reflexivity |].
  split; [apply clamp_bounds; lra |].
  split.
  - intros Hd. destruct (Rlt_dec (dotX - hx) 5); [| lra].
    unfold clamp. rewrite Rmax_left by lra. rewrite Rmin_right by lra. reflexivity.
  - intros Hs.
    assert (Hc : forall x, 0 <= x <= 1 -> clamp x 0 1 = x).
    { intros x Hx. unfold clamp. rewrite Rmax_right by lra. apply Rmin_right. lra. }
    split; [| split].
    + destruct (Rlt_dec (dotX - hx) 5); [rewrite Hc by lra; lra |].
      destruct (Rge_dec (dotX - hx) fadeStart); [rewrite Hc by lra; lra |].
      specialize (Hfrac (dotX - hx) ltac:(lra) ltac:(lra)).
      rewrite Hc by nra. nra.
    + intros H5 Hf.
      destruct (Rlt_dec (dotX - hx) 5); [lra |].
      destruct (Rge_dec (dotX - hx) fadeStart); [apply Hc; lra | lra].
    + intros dotX' Hd.
      destruct (Rlt_dec (dotX - hx) 5).
      * rewrite (Hc 0) by lra. apply clamp_bounds. lra.
      * destruct (Rlt_dec (dotX' - hx) 5); [lra |].
        destruct (Rge_dec (dotX - hx) fadeStart).
        -- destruct (Rge_dec (dotX' - hx) fadeStart); [lra | lra].
        -- pose proof (Hfrac (dotX - hx) ltac:(lra) ltac:(lra)) as F1.
           destruct (Rge_dec (dotX' - hx) fadeStart).
           ++ rewrite !Hc by nra. nra.
           ++ pose proof (Hfrac (dotX' - hx) ltac:(lra) ltac:(lra)) as F2.
              pose proof (Hmono (dotX - hx) (dotX' - hx) ltac:(lra) ltac:(lra)
                            ltac:(lra)) as M.
              rewrite !Hc by nra. nra.
Qed.

Lemma updateCrosshairState_bounds_witness :
  let out := updateCrosshairState 150 sampleBuffer 3 0 30 0 4 10 10 280 180 250 1 in
  10 <= ch_hx out <= 10 + 280 /\
  0 <= ch_ht out <= 0 + 30 /\
  ch_hv out = interpolateAtTime sampleBuffer 3 (ch_ht out) /\
  0 <= ch_opacity out <= 1 /\
  (250 - ch_hx out < 5 -> ch_opacity out = 0) /\
  (0 <= 1 <= 1 ->
     ch_opacity out <= 1 /\
     (5 <= 250 - ch_hx out -> Rmin 80 (280 * (3 / 10)) <= 250 - ch_hx out ->
        ch_opacity out = 1) /\
     (forall dotX',
        250 <= dotX' ->
        ch_opacity out
        <= ch_opacity (updateCrosshairState 150 sampleBuffer 3 0 30 0 4 10 10 280
                         180 dotX' 1))).
Proof.
  apply (updateCrosshairState_bounds 150 sampleBuffer 3 0 30 0 4 10 10 280 180 250 1);
    lra.
Defined.

(** ** Loading shape and line path *)

(** X19. The loading squiggle stays within the amplitude of its centre
    line (the three sine weights add up to 1), and the breathing opacity
    stays between 0.14 and 0.30. *)
Theorem loadingY_within_amplitude :
  forall t centerY amplitude scroll nowMs,
    Rabs (loadingY t centerY amplitude scroll - centerY) <= Rabs amplitude /\
    14 / 100 <= loadingBreath nowMs <= 30 / 100.
Proof.
  intros t c a s nowMs. split.
  - unfold loadingY.
    set (w := sin _ * _ + _ + _).
    assert (Hw : -1 <= w <= 1).
    { unfold w.
      pose proof (SIN_bound (t * (94 / 10) + s)).
      pose proof (SIN_bound (t * (157 / 10) + s * (13 / 10))).
      pose proof (SIN_bound (t * (42 / 10) + s * (7 / 10))). lra. }
    replace (c + a * w - c) with (a * w) by ring.
    rewrite Rabs_mult.
    assert (Rabs w <= 1) by (apply Rabs_le; lra).
    pose proof (Rabs_pos a). nra.
  - unfold loadingBreath. pose proof (SIN_bound (nowMs / 1200 * PI)). lra.
Qed.

Lemma fritschCarlson_scale d m0 m1 :
  exists c, 0 <= c <= 1 /\
    fritschCarlson d m0 m1 = (c * m0, c * m1) /\
    (c * m0) * (c * m0) + (c * m1) * (c * m1) <= 9 * (d * d).
Proof.
  unfold fritschCarlson.
  destruct (Req_dec_T d 0) as [-> | Hd].
  - exists 0. split; [lra |]. split; [f_equal; ring | nra].
  - set (s2 := m0 / d * (m0 / d) + m1 / d * (m1 / d)).
    assert (Hs2 : s2 * (d * d) = m0 * m0 + m1 * m1) by (unfold s2; field; exact Hd).
    assert (Hdd : 0 < d * d) by nra.
    destruct (Rlt_dec 9 s2) as [Hbig | Hsmall].
    + assert (Hpos : 0 < s2) by lra.
      assert (Hsq : sqrt s2 * sqrt s2 = s2) by (apply sqrt_sqrt; lra).
      assert (Hgt : 3 < sqrt s2).
      { replace 3 with (sqrt 9).
        - apply sqrt_lt_1; lra.
        - replace 9 with (3 * 3) by ring. apply sqrt_square. lra. }
      assert (Hinv : 0 < / sqrt s2) by (apply Rinv_0_lt_compat; lra).
      assert (Hunit : sqrt s2 * / sqrt s2 = 1) by (apply Rinv_r; lra).
      exists (3 / sqrt s2). split.
      * unfold Rdiv. split; [nra |]. nra.
      * split.
        -- f_equal; field; split; lra.
        -- replace (3 / sqrt s2 * m0 * (3 / sqrt s2 * m0)
                    + 3 / sqrt s2 * m1 * (3 / sqrt s2 * m1))
             with (9 * (/ sqrt s2 * / sqrt s2) * (m0 * m0 + m1 * m1))
             by (unfold Rdiv; ring).
           rewrite <- Hs2.
           replace (9 * (/ sqrt s2 * / sqrt s2) * (s2 * (d * d)))
             with (9 * (d * d) * (s2 * (/ sqrt s2 * / sqrt s2))) by ring.
           rewrite <- Hsq at 1.
           replace (sqrt s2 * sqrt s2 * (/ sqrt s2 * / sqrt s2))
             with ((sqrt s2 * / sqrt s2) * (sqrt s2 * / sqrt s2)) by ring.
           rewrite Hunit. lra.
    + exists 1. split; [lra |]. split; [f_equal; ring |].
      assert (s2 <= 9) by lra. nra.
Qed.

Lemma interiorTangents_signs d0 rest mh :
  0 <= mh * d0 -> signsOk (d0 :: rest) (mh :: interiorTangents (d0 :: rest)).
Proof.
  revert d0 mh. induction rest as [| d1 rest IH]; intros d0 mh Hm.
  - cbn. repeat split; try exact Hm. nra.
  - cbn [interiorTangents].
    set (f := if Rle_dec (d0 * d1) 0 then 0 else (d0 + d1) / 2).
    assert (Hf : 0 <= f * d0 /\ 0 <= f * d1).
    { unfold f. destruct (Rle_dec (d0 * d1) 0); [lra |]. split; nra. }
    cbn [signsOk]. split; [exact Hm |]. split; [tauto |].
    apply IH. tauto.
Qed.

Lemma initialTangents_signs delta : signsOk delta (initialTangents delta).
Proof.
  destruct delta as [| d0 rest]; [exact I |].
  unfold initialTangents. apply interiorTangents_signs. nra.
Qed.

Lemma signsOk_scale_head ds m c rest :
  0 <= c -> signsOk ds (m :: rest) -> signsOk ds (c * m :: rest).
Proof.
  intros Hc. destruct ds as [| d ds]; [trivial |].
  cbn. destruct rest as [| m1 rest]; [trivial |].
  intros (H0 & H1 & Hr). repeat split; try assumption.
  replace (c * m * d) with (c * (m * d)) by ring. apply Rmult_le_pos; assumption.
Qed.

Lemma constrainTangents_ok delta m :
  signsOk delta m ->
  tangentsOk delta (constrainTangents delta m) /\
  exists c, 0 <= c <= 1 /\
    hd 0 (constrainTangents delta m) = c * hd 0 m /\
    length (constrainTangents delta m) = length m.
Proof.
  revert m. induction delta as [| d ds IH]; intros m Hs.
  - split; [exact I |]. exists 1. cbn. split; [lra |]. split; [ring | reflexivity].
  - destruct m as [| m0 [| m1 rest]]; try contradiction.
    destruct Hs as (H0 & H1 & Hr).
    cbn [constrainTangents].
    destruct (fritschCarlson_scale d m0 m1) as (c & Hc & E & Hsq).
    rewrite E. cbn [fst snd].
    destruct (IH (c * m1 :: rest) (signsOk_scale_head _ _ _ _ (proj1 Hc) Hr))
      as (Hok & c' & Hc' & Hhd & Hlen).
    cbn [hd] in Hhd.
    destruct (constrainTangents ds (c * m1 :: rest)) as [| b tail] eqn:Eb;
      [discriminate |].
    cbn [hd] in Hhd. subst b.
    split.
    + cbn [tangentsOk]. split; [| split; [| exact Hok]].
      * split; [| nra].
        replace (c * m0 * d) with (c * (m0 * d)) by ring.
        apply Rmult_le_pos; lra.
      * split.
        -- replace (c' * (c * m1) * d) with (c' * c * (m1 * d)) by ring.
           apply Rmult_le_pos; [nra | exact H1].
        -- assert (c' * c' <= 1) by nra.
           assert (0 <= c * m1 * (c * m1)) by nra.
           replace (c' * (c * m1) * (c' * (c * m1)))
             with (c' * c' * (c * m1 * (c * m1))) by ring.
           nra.
    + exists c. split; [exact Hc |]. cbn [hd length]. split; [reflexivity |].
      cbn [length] in Hlen. lia.
Qed.

Lemma secants_length xs ys :
  length ys = length xs -> length (secants xs ys) = (length xs - 1)%nat.
Proof.
  revert ys. induction xs as [| x0 xs IH]; intros ys Hl; [reflexivity |].
  destruct ys as [| y0 ys]; [discriminate |].
  destruct xs as [| x1 xs]; [reflexivity |].
  destruct ys as [| y1 ys]; [discriminate |].
  change (secants (x0 :: x1 :: xs) (y0 :: y1 :: ys))
    with ((x1 - x0, if Rlt_dec (Rabs (x1 - x0)) EPS then 0 else (y1 - y0) / (x1 - x0))
          :: secants (x1 :: xs) (y1 :: ys)).
  cbn [length]. rewrite (IH (y1 :: ys)) by (cbn in *; lia). cbn [length]. lia.
Qed.

Lemma interiorTangents_length delta : length (interiorTangents delta) = length delta.
Proof.
  induction delta as [| d0 rest IH]; [reflexivity |].
  destruct rest as [| d1 rest]; [reflexivity |].
  change (interiorTangents (d0 :: d1 :: rest))
    with ((if Rle_dec (d0 * d1) 0 then 0 else (d0 + d1) / 2)
          :: interiorTangents (d1 :: rest)).
  cbn [length] in *. rewrite IH. reflexivity.
Qed.

Lemma step_within k D :
  0 <= k * D -> k * k <= D * D ->
  (0 <= D -> 0 <= k <= D) /\ (D <= 0 -> D <= k <= 0).
Proof.
  intros Hs Hq. split; intros HD.
  - destruct (Rle_dec 0 k) as [Hk | Hk].
    + split; [exact Hk |]. destruct (Rle_dec k D); [assumption | nra].
    + assert (D = 0) by nra. subst D. nra.
  - destruct (Rle_dec k 0) as [Hk | Hk].
    + split; [| exact Hk]. destruct (Rle_dec D k); [assumption | nra].
    + assert (D = 0) by nra. subst D. nra.
Qed.

Lemma bezierSegments_box xs ys m :
  length ys = length xs ->
  tangentsOk (map snd (secants xs ys)) m ->
  controlsInBox (hd 0 xs) (hd 0 ys)
                (bezierSegments xs ys (map fst (secants xs ys)) m).
Proof.
  revert ys m. induction xs as [| x0 xs IH]; intros ys m Hl Hok; [exact I |].
  destruct ys as [| y0 ys]; [discriminate |].
  destruct xs as [| x1 xs]; [exact I |].
  destruct ys as [| y1 ys]; [discriminate |].
  change (secants (x0 :: x1 :: xs) (y0 :: y1 :: ys))
    with ((x1 - x0, if Rlt_dec (Rabs (x1 - x0)) EPS then 0 else (y1 - y0) / (x1 - x0))
          :: secants (x1 :: xs) (y1 :: ys)) in *.
  cbn [map fst snd] in *.
  destruct m as [| m0 [| m1 m']]; try contradiction.
  destruct Hok as (Ok0 & Ok1 & Hrest).
  cbn [bezierSegments hd].
  specialize (IH (y1 :: ys) (m1 :: m') ltac:(cbn in *; lia) Hrest).
  cbn [hd] in IH.
  destruct (Rlt_dec (Rabs (x1 - x0)) EPS) as [Hsmall | Hbig].
  - cbn [controlsInBox vertex fst snd]. exact IH.
  - cbn [controlsInBox]. split; [| exact IH].
    set (h := x1 - x0) in *.
    assert (Hh : h <> 0).
    { intros E. rewrite E, Rabs_R0 in Hbig. unfold EPS in Hbig. lra. }
    set (d := (y1 - y0) / h) in *.
    assert (Hd : d * h = y1 - y0) by (unfold d; field; exact Hh).
    destruct Ok0 as [S0 B0]. destruct Ok1 as [S1 B1].
    assert (Hhh : 0 < h * h) by nra.
    assert (K0 : 0 <= (m0 * h / 3) * (y1 - y0)).
    { rewrite <- Hd. replace (m0 * h / 3 * (d * h)) with ((m0 * d) * (h * h) / 3) by field.
      nra. }
    assert (K1 : 0 <= (m1 * h / 3) * (y1 - y0)).
    { rewrite <- Hd. replace (m1 * h / 3 * (d * h)) with ((m1 * d) * (h * h) / 3) by field.
      nra. }
    assert (Q0 : (m0 * h / 3) * (m0 * h / 3) <= (y1 - y0) * (y1 - y0)).
    { rewrite <- Hd. replace (m0 * h / 3 * (m0 * h / 3)) with ((m0 * m0) * (h * h) / 9)
        by field.
      replace (d * h * (d * h)) with ((d * d) * (h * h)) by ring. nra. }
    assert (Q1 : (m1 * h / 3) * (m1 * h / 3) <= (y1 - y0) * (y1 - y0)).
    { rewrite <- Hd. replace (m1 * h / 3 * (m1 * h / 3)) with ((m1 * m1) * (h * h) / 9)
        by field.
      replace (d * h * (d * h)) with ((d * d) * (h * h)) by ring. nra. }
    pose proof (step_within _ _ K0 Q0) as [W0 W0'].
    pose proof (step_within _ _ K1 Q1) as [W1 W1'].
    set (k0 := m0 * h / 3) in *. set (k1 := m1 * h / 3) in *.
    assert (Hx1 : x1 = x0 + h) by (unfold h; ring).
    clearbody k0 k1 h d. clear K0 K1 Q0 Q1 Hd S0 S1 B0 B1 Hhh.
    unfold Rmin, Rmax.
    destruct (Rle_dec x0 x1); destruct (Rle_dec y0 y1); repeat split; lra.
Qed.

Lemma bezierSegments_vertices xs ys h m :
  length ys = length xs -> length h = (length xs - 1)%nat ->
  length m = length xs ->
  map vertex (bezierSegments xs ys h m) = tl (combine xs ys).
Proof.
  revert ys h m. induction xs as [| x0 xs IH]; intros ys h m Hy Hh Hm; [reflexivity |].
  destruct ys as [| y0 ys]; [discriminate |].
  destruct xs as [| x1 xs]; [destruct ys; [reflexivity | discriminate] |].
  destruct ys as [| y1 ys]; [discriminate |].
  destruct h as [| hi h']; [discriminate |].
  destruct m as [| m0 [| m1 m']]; try discriminate.
  change (bezierSegments (x0 :: x1 :: xs) (y0 :: y1 :: ys) (hi :: h') (m0 :: m1 :: m'))
    with ((if Rlt_dec (Rabs hi) EPS then LineTo x1 y1
           else CubicTo (x0 + hi / 3) (y0 + (m0 * hi) / 3)
                        (x1 - hi / 3) (y1 - (m1 * hi) / 3) x1 y1)
          :: bezierSegments (x1 :: xs) (y1 :: ys) h' (m1 :: m')).
  cbn [map].
  rewrite (IH (y1 :: ys) h' (m1 :: m')) by (cbn in *; lia).
  cbn [combine tl].
  destruct (Rlt_dec (Rabs hi) EPS); reflexivity.
Qed.

Lemma controlsInBox_ys lo hi cmds x0 y0 :
  controlsInBox x0 y0 cmds -> lo <= y0 <= hi ->
  Forall (fun c => lo <= snd (vertex c) <= hi) cmds ->
  Forall (fun y => lo <= y <= hi) (flat_map cmdYs cmds).
Proof.
  revert x0 y0. induction cmds as [| c cmds IH]; intros x0 y0 Hbox Hy0 Hv;
    [constructor |].
  inversion Hv as [| ? ? Hc Hrest]; subst.
  destruct c as [x y | x y | c1x c1y c2x c2y x y]; cbn [flat_map cmdYs app] in *.
  - constructor; [exact Hc |]. apply (IH x y); assumption.
  - constructor; [exact Hc |]. apply (IH x y); assumption.
  - cbn [vertex snd] in Hc. destruct Hbox as ((_ & B1 & _ & B2) & Hbox).
    assert (Hin : forall v, Rmin y0 y <= v <= Rmax y0 y -> lo <= v <= hi).
    { intros v. unfold Rmin, Rmax. destruct (Rle_dec y0 y); lra. }
    constructor; [apply Hin; exact B1 |].
    constructor; [apply Hin; exact B2 |].
    constructor; [exact Hc |]. apply (IH x y); assumption.
Qed.

Lemma morphY_revealed a rawY x :
  li_chartReveal a >= 1 -> 0 <= li_chartHeight a ->
  li_paddingTop a <= morphY a rawY x <= li_paddingTop a + li_chartHeight a.
Proof.
  intros Hr Hh. unfold morphY.
  destruct (Rge_dec (li_chartReveal a) 1); [| contradiction].
  apply clamp_bounds. lra.
Qed.

Lemma pointY_morphY a i : exists rawY, pointY a i = morphY a rawY (pointX a i).
Proof.
  unfold pointY.
  destruct (visibleCountOf a <=? i)%Z; [eexists; reflexivity |].
  destruct ((_ <? 0)%Z || _); [eexists; reflexivity |].
  destruct (i =? visibleCountOf a - 1)%Z; eexists; reflexivity.
Qed.

Lemma visibleCountOf_nonneg a : (0 <= visibleCountOf a)%Z.
Proof.
  unfold visibleCountOf.
  destruct (Z.leb_spec (safeFirstOf a) (safeLastOf a)); lia.
Qed.

Lemma combine_map_seq {A B} (f : nat -> A) (g : nat -> B) l :
  combine (map f l) (map g l) = map (fun i => (f i, g i)) l.
Proof. induction l as [| x l IH]; cbn; [reflexivity | rewrite IH; reflexivity]. Qed.

Lemma vertex_startAt a x y : vertex (startAt a x y) = (x, y).
Proof. unfold startAt. destruct (li_continuePath a); reflexivity. Qed.

Lemma controlsInBox_startAt a x y x0 y0 rest :
  controlsInBox x y rest -> controlsInBox x0 y0 (startAt a x y :: rest).
Proof. unfold startAt. destruct (li_continuePath a); cbn; trivial. Qed.

Lemma splinePath_ok a xs ys :
  length ys = length xs ->
  (forall x0 y0, controlsInBox x0 y0 (splinePath a xs ys)) /\
  (xs <> [] -> map vertex (splinePath a xs ys) = combine xs ys).
Proof.
  intros Hl. unfold splinePath.
  set (delta := map snd (secants xs ys)).
  destruct (constrainTangents_ok delta (initialTangents delta)
              (initialTangents_signs delta)) as (Hok & _ & _ & _ & Hlen).
  split.
  - intros x0 y0. apply controlsInBox_startAt. apply bezierSegments_box; assumption.
  - intros Hne. cbn [map]. rewrite vertex_startAt.
    destruct xs as [| x0 xs]; [contradiction |].
    destruct ys as [| y0 ys]; [discriminate |].
    cbn [hd combine]. f_equal.
    destruct xs as [| x1 xs]; [destruct ys; [reflexivity | discriminate] |].
    rewrite bezierSegments_vertices.
    + reflexivity.
    + exact Hl.
    + rewrite length_map. apply secants_length. exact Hl.
    + rewrite Hlen.
      assert (Hd : length delta = (length (x0 :: x1 :: xs) - 1)%nat)
        by (unfold delta; rewrite length_map; apply secants_length; exact Hl).
      destruct delta as [| d0 rest]; [cbn in Hd; lia |].
      unfold initialTangents. cbn [length]. rewrite interiorTangents_length.
      cbn [length] in *. lia.
Qed.

(** X20. The smooth line never overshoots its vertices: the tangents left
    by the three passes agree in sign with the secant of each adjacent
    segment and are at most three times as steep, and every control point
    of every cubic lies in the box spanned by the two end points of its
    segment.  Once the chart is fully revealed every Y coordinate handed to
    the path, control points included, lies within the plot area. *)
Theorem buildSmoothPath_no_overshoot :
  forall a,
    (2 * li_pointsCount a <= length (li_pointsBuf a))%nat ->
    (forall xs ys,
       let delta := map snd (secants xs ys) in
       tangentsOk delta (constrainTangents delta (initialTangents delta))) /\
    (forall x0 y0, controlsInBox x0 y0 (buildSmoothPathFromVisiblePoints a)) /\
    (li_chartReveal a >= 1 -> 0 <= li_chartHeight a ->
     Forall (fun y => li_paddingTop a <= y <= li_paddingTop a + li_chartHeight a)
            (flat_map cmdYs (buildSmoothPathFromVisiblePoints a))).
Proof.
  intros a _.
  assert (Hbox : forall x0 y0,
            controlsInBox x0 y0 (buildSmoothPathFromVisiblePoints a)).
  { intros x0 y0. unfold buildSmoothPathFromVisiblePoints.
    destruct (maxIndexOf a <? 0)%Z; [exact I |].
    destruct (Z.to_nat (visibleCountOf a + 1)) as [| [| [| n]]].
    - apply splinePath_ok. rewrite !length_map. reflexivity.
    - apply controlsInBox_startAt. exact I.
    - apply controlsInBox_startAt. exact I.
    - apply splinePath_ok. rewrite !length_map. reflexivity. }
  split.
  { intros xs ys delta.
    apply (constrainTangents_ok delta (initialTangents delta)
             (initialTangents_signs delta)). }
  split; [exact Hbox |].
  intros Hr Hh.
  apply (controlsInBox_ys _ _ _ 0 (li_paddingTop a)); [apply Hbox | lra |].
  assert (HY : forall i, li_paddingTop a <= pointY a i
                         <= li_paddingTop a + li_chartHeight a).
  { intros i. destruct (pointY_morphY a i) as (raw & ->).
    apply morphY_revealed; assumption. }
  assert (Hhd : forall n, li_paddingTop a
                <= hd 0 (map (fun i => pointY a (Z.of_nat i)) (seq 0 (S n)))
                <= li_paddingTop a + li_chartHeight a).
  { intros n. cbn [seq map hd]. apply HY. }
  unfold buildSmoothPathFromVisiblePoints.
  destruct (maxIndexOf a <? 0)%Z; [constructor |].
  assert (Hspline : forall n,
    Forall (fun c => li_paddingTop a <= snd (vertex c)
                     <= li_paddingTop a + li_chartHeight a)
      (splinePath a (map (fun i => pointX a (Z.of_nat i)) (seq 0 (S n)))
                    (map (fun i => pointY a (Z.of_nat i)) (seq 0 (S n))))).
  { intros n. apply Forall_forall. intros c Hc.
    apply (in_map vertex) in Hc.
    rewrite (proj2 (splinePath_ok a
               (map (fun i => pointX a (Z.of_nat i)) (seq 0 (S n)))
               (map (fun i => pointY a (Z.of_nat i)) (seq 0 (S n)))
               ltac:(rewrite !length_map; reflexivity)))
      in Hc by discriminate.
    rewrite combine_map_seq in Hc. apply in_map_iff in Hc.
    destruct Hc as (i & <- & _). cbn [snd]. apply HY. }
  pose proof (visibleCountOf_nonneg a) as Hvc.
  destruct (Z.to_nat (visibleCountOf a + 1)) as [| [| [| n]]] eqn:En.
  - lia.
  - constructor; [rewrite vertex_startAt; cbn [snd]; apply Hhd |].
    constructor; [cbn [vertex snd]; apply Hhd | constructor].
  - constructor; [rewrite vertex_startAt; cbn [snd]; apply Hhd |].
    constructor; [cbn [seq map nth vertex snd]; apply HY | constructor].
  - apply Hspline.
Qed.

Lemma buildSmoothPath_no_overshoot_witness :
  (forall xs ys,
     let delta := map snd (secants xs ys) in
     tangentsOk delta (constrainTangents delta (initialTangents delta))) /\
  (forall x0 y0, controlsInBox x0 y0 (buildSmoothPathFromVisiblePoints sampleLine)) /\
  (li_chartReveal sampleLine >= 1 -> 0 <= li_chartHeight sampleLine ->
   Forall (fun y => li_paddingTop sampleLine <= y
                    <= li_paddingTop sampleLine + li_chartHeight sampleLine)
          (flat_map cmdYs (buildSmoothPathFromVisiblePoints sampleLine))).
Proof. apply (buildSmoothPath_no_overshoot sampleLine). simpl. lia. Defined.

(** X21. Shape of the line path: without samples nothing is drawn; with no
    visible sample the path is one horizontal line across the chart at the
    height of the live value; otherwise its vertices are the visible
    samples from left to right followed by the tip, it starts with a
    [moveTo] unless it continues a path, and once the chart is revealed the
    last sample is drawn at the height of the tip, so the final segment is
    horizontal. *)
Theorem buildSmoothPath_vertices :
  forall a,
    (2 * li_pointsCount a <= length (li_pointsBuf a))%nat ->
    let path := buildSmoothPathFromVisiblePoints a in
    let vc := visibleCountOf a in
    (li_pointsCount a = 0%nat -> path = []) /\
    ((0 < li_pointsCount a)%nat -> vc = 0%Z ->
       path = [startAt a (li_paddingLeft a) (morphY a (li_liveY a) (tipXOf a));
               LineTo (li_paddingLeft a + li_chartWidth a)
                      (morphY a (li_liveY a) (tipXOf a))]) /\
    ((0 < li_pointsCount a)%nat -> (0 < vc)%Z ->
       map vertex path
       = map (fun i => (pointX a (Z.of_nat i), pointY a (Z.of_nat i)))
             (seq 0 (Z.to_nat vc + 1)) /\
       hd_error path = Some (startAt a (pointX a 0) (pointY a 0)) /\
       pointX a vc = tipXOf a /\
       pointY a vc = morphY a (li_liveY a) (tipXOf a) /\
       (li_chartReveal a >= 1 -> pointY a (vc - 1) = pointY a vc)).
Proof.
  intros a _ path vc.
  assert (Htip : pointX a vc = tipXOf a).
  { unfold pointX. fold vc. rewrite Z.leb_refl. reflexivity. }
  assert (HtipY : pointY a vc = morphY a (li_liveY a) (tipXOf a)).
  { unfold pointY. rewrite Htip. fold vc. rewrite Z.leb_refl. reflexivity. }
  split; [| split].
  - intros H0. unfold path, buildSmoothPathFromVisiblePoints, maxIndexOf.
    rewrite H0. reflexivity.
  - intros Hc Hvc. unfold path, buildSmoothPathFromVisiblePoints.
    destruct (Z.ltb_spec (maxIndexOf a) 0) as [Hm | _];
      [unfold maxIndexOf in Hm; lia |].
    fold vc. rewrite Hvc. change (Z.to_nat (0 + 1)) with 1%nat.
    cbn [seq map hd]. change (Z.of_nat 0) with 0%Z.
    rewrite Hvc in HtipY. rewrite HtipY. reflexivity.
  - intros Hc Hvc.
    assert (Hm : (maxIndexOf a <? 0)%Z = false).
    { apply Z.ltb_ge. unfold maxIndexOf. lia. }
    assert (Hn : Z.to_nat (vc + 1) = (Z.to_nat vc + 1)%nat) by lia.
    split; [| split; [| split; [exact Htip | split; [exact HtipY |]]]].
    + unfold path, buildSmoothPathFromVisiblePoints. rewrite Hm. fold vc.
      rewrite Hn.
      destruct (Z.to_nat vc + 1)%nat as [| [| [| n]]] eqn:En; try lia.
      * cbn [seq map hd nth]. rewrite vertex_startAt. reflexivity.
      * rewrite (proj2 (splinePath_ok a
                   (map (fun i => pointX a (Z.of_nat i)) (seq 0 (S (S (S n)))))
                   (map (fun i => pointY a (Z.of_nat i)) (seq 0 (S (S (S n)))))
                   ltac:(rewrite !length_map; reflexivity)))
          by discriminate.
        apply combine_map_seq.
    + unfold path, buildSmoothPathFromVisiblePoints. rewrite Hm. fold vc.
      rewrite Hn.
      destruct (Z.to_nat vc + 1)%nat as [| [| [| n]]] eqn:En; try lia; reflexivity.
    + intros Hr. rewrite HtipY. unfold pointY. fold vc.
      destruct (Z.leb_spec vc (vc - 1)); [lia |].
      rewrite Z.eqb_refl.
      assert (Hm' : forall raw x x', morphY a raw x = morphY a raw x').
      { intros raw x x'. unfold morphY.
        destruct (Rge_dec (li_chartReveal a) 1); [reflexivity | contradiction]. }
      destruct ((_ <? 0)%Z || _); apply Hm'.
Qed.

Lemma buildSmoothPath_vertices_witness :
  let a := sampleLine in
  let path := buildSmoothPathFromVisiblePoints a in
  let vc := visibleCountOf a in
  (li_pointsCount a = 0%nat -> path = []) /\
  ((0 < li_pointsCount a)%nat -> vc = 0%Z ->
     path = [startAt a (li_paddingLeft a) (morphY a (li_liveY a) (tipXOf a));
             LineTo (li_paddingLeft a + li_chartWidth a)
                    (morphY a (li_liveY a) (tipXOf a))]) /\
  ((0 < li_pointsCount a)%nat -> (0 < vc)%Z ->
     map vertex path
     = map (fun i => (pointX a (Z.of_nat i), pointY a (Z.of_nat i)))
           (seq 0 (Z.to_nat vc + 1)) /\
     hd_error path = Some (startAt a (pointX a 0) (pointY a 0)) /\
     pointX a vc = tipXOf a /\
     pointY a vc = morphY a (li_liveY a) (tipXOf a) /\
     (li_chartReveal a >= 1 -> pointY a (vc - 1) = pointY a vc)).
Proof. apply (buildSmoothPath_vertices sampleLine). simpl. lia. Defined.

(** ** Candles *)

(** X22. Candle geometry is always drawable: the body is at least 1 px
    wide, the wick between 0.8 and 2 px and never wider than the body, and
    the corner radius (1.5 px for bodies wider than 6 px, none otherwise)
    is less than half the body width; for a chart of non-negative width
    the body does not get narrower as the candle width grows. *)
Theorem candleDims_drawable :
  forall chartW leftEdge rightEdge candleWidthSecs,
    let d := candleDims chartW leftEdge rightEdge candleWidthSecs in
    1 <= bodyW d /\
    8 / 10 <= wickW d <= 2 /\
    wickW d <= bodyW d /\
    (radius d = 0 \/ radius d = 15 / 10) /\
    2 * radius d < bodyW d /\
    (0 <= chartW ->
     forall w', candleWidthSecs <= w' ->
       bodyW d <= bodyW (candleDims chartW leftEdge rightEdge w')).
Proof.
  intros chartW l r w d. unfold d, candleDims.
  destruct (Rle_dec (r - l) 0) as [Hs | Hs]; cbn [bodyW wickW radius].
  - split; [lra |]. split; [lra |]. split; [lra |].
    split; [left; reflexivity |]. split; [lra |]. intros _ w' _. lra.
  - set (b := Rmax 1 (w * (chartW / (r - l)) * (7 / 10))).
    assert (Hb : 1 <= b) by apply Rmax_l.
    split; [exact Hb |].
    split; [split; [apply Rmax_l | apply Rmax_lub; [lra | apply Rmin_l]] |].
    split; [apply Rmax_lub; [lra |];
            apply Rle_trans with (b * (15 / 100)); [apply Rmin_r | lra] |].
    split; [destruct (Rlt_dec 6 b); [right | left]; reflexivity |].
    split; [destruct (Rlt_dec 6 b); lra |].
    intros Hc w' Hw. unfold b.
    apply Rle_max_compat_l.
    assert (0 <= chartW / (r - l)).
    { apply Rmult_le_pos; [exact Hc |]. left. apply Rinv_0_lt_compat. lra. }
    nra.
Qed.

Lemma candleAtXLoop_sound candles w time lo hi c :
  (0 <= lo)%Z -> (hi < Z.of_nat (length candles))%Z ->
  candleAtXLoop candles w time lo hi = Some c ->
  In c candles /\ c_time c <= time < c_time c + w.
Proof.
  funelim (candleAtXLoop candles w time lo hi); intros Hlo Hhi E.
  - discriminate.
  - pose proof (shiftr1_mid lo hi ltac:(assumption)).
    apply H; [lia | exact Hhi | exact E].
  - pose proof (shiftr1_mid lo hi ltac:(assumption)).
    apply H; [exact Hlo | lia | exact E].
  - pose proof (shiftr1_mid lo hi ltac:(assumption)) as Hm.
    injection E as <-. split.
    + unfold candleAt. apply nth_In. lia.
    + split; lra.
Qed.

Lemma candleAtXLoop_complete candles w time lo hi :
  sortedCandles candles -> 0 <= w ->
  (0 <= lo)%Z -> (hi < Z.of_nat (length candles))%Z ->
  (exists k, (lo <= Z.of_nat k <= hi)%Z /\
             c_time (candleAt candles (Z.of_nat k)) <= time
             < c_time (candleAt candles (Z.of_nat k)) + w) ->
  exists c, candleAtXLoop candles w time lo hi = Some c.
Proof.
  intros Hs Hw. funelim (candleAtXLoop candles w time lo hi);
    intros Hlo Hhi (k & Hk & Hc).
  - lia.
  - pose proof (shiftr1_mid lo hi ltac:(assumption)) as Hm.
    set (mid := Z.shiftr (lo + hi) 1) in *.
    apply H; [exact Hs | exact Hw | lia | exact Hhi |].
    exists k. split; [| exact Hc].
    destruct (Z_le_gt_dec (Z.of_nat k) mid) as [Hle | Hgt]; [| lia].
    assert (c_time (candleAt candles (Z.of_nat k)) <= c_time (candleAt candles mid)).
    { unfold candleAt. apply Hs; lia. }
    lra.
  - pose proof (shiftr1_mid lo hi ltac:(assumption)) as Hm.
    set (mid := Z.shiftr (lo + hi) 1) in *.
    apply H; [exact Hs | exact Hw | exact Hlo | lia |].
    exists k. split; [| exact Hc].
    destruct (Z_le_gt_dec mid (Z.of_nat k)) as [Hle | Hgt]; [| lia].
    assert (c_time (candleAt candles mid) <= c_time (candleAt candles (Z.of_nat k))).
    { unfold candleAt. apply Hs; lia. }
    lra.
  - eexists. reflexivity.
Qed.

(** X23. Candle under the pointer: a candle returned by [candleAtX] is one
    of the candles and its interval [[time, time + width)] holds the time
    under the pointer; nothing is returned for an empty array or an empty
    window; and when the candles are in time order and the width is not
    negative, a candle is returned whenever some candle's interval holds
    that time.  The chart width is not zero. *)
Theorem candleAtX_correct :
  forall candles hoverX candleWidthSecs chartW paddingLeft leftEdge rightEdge,
    chartW <> 0 ->
    let time := hoverTimeOf hoverX chartW paddingLeft leftEdge rightEdge in
    let found := candleAtX candles hoverX candleWidthSecs chartW paddingLeft
                           leftEdge rightEdge in
    (forall c, found = Some c ->
       In c candles /\ c_time c <= time < c_time c + candleWidthSecs) /\
    (candles = [] \/ rightEdge <= leftEdge -> found = None) /\
    (sortedCandles candles -> 0 <= candleWidthSecs -> leftEdge < rightEdge ->
     forall c, In c candles -> c_time c <= time < c_time c + candleWidthSecs ->
       exists c', found = Some c').
Proof.
  intros candles hoverX w chartW pl l r _ time found.
  unfold found, candleAtX. fold (hoverTimeOf hoverX chartW pl l r). fold time.
  split; [| split].
  - intros c E.
    destruct (Rle_dec (r - l) 0); [discriminate |].
    destruct (length candles =? 0)%nat; [discriminate |].
    apply (candleAtXLoop_sound candles w time 0 (Z.of_nat (length candles) - 1));
      [lia | lia | exact E].
  - intros [-> | H].
    + destruct (Rle_dec (r - l) 0); reflexivity.
    + destruct (Rle_dec (r - l) 0); [reflexivity | lra].
  - intros Hs Hw Hlr c Hin Hc.
    destruct (Rle_dec (r - l) 0); [lra |].
    destruct (Nat.eqb_spec (length candles) 0) as [E | _].
    + destruct candles; [contradiction | discriminate].
    + apply candleAtXLoop_complete; [exact Hs | exact Hw | lia | lia |].
      destruct (In_nth candles c (mkCandle 0 0 0 0 0) Hin) as (k & Hk & Ek).
      exists k. split; [lia |].
      unfold candleAt. rewrite Nat2Z.id, Ek. exact Hc.
Qed.

Lemma candleAtX_correct_witness :
  let time := hoverTimeOf 150 280 10 0 180 in
  let found := candleAtX sampleCandles 150 60 280 10 0 180 in
  (forall c, found = Some c ->
     In c sampleCandles /\ c_time c <= time < c_time c + 60) /\
  (sampleCandles = [] \/ 180 <= 0 -> found = None) /\
  (sortedCandles sampleCandles -> 0 <= 60 -> 0 < 180 ->
   forall c, In c sampleCandles -> c_time c <= time < c_time c + 60 ->
     exists c', found = Some c').
Proof. apply (candleAtX_correct sampleCandles 150 60 280 10 0 180). lra. Defined.

Lemma scanCandles_fold cs lo hi :
  exists lo' hi',
    fold_left
      (fun acc c =>
         (if js_lt (c_low c) (fst acc) then Fin (c_low c) else fst acc,
          if js_gt (c_high c) (snd acc) then Fin (c_high c) else snd acc))
      cs (Fin lo, Fin hi) = (Fin lo', Fin hi') /\
    lo' <= lo /\ hi <= hi' /\
    Forall (fun c => lo' <= c_low c /\ c_high c <= hi') cs /\
    (lo' = lo \/ exists c, In c cs /\ lo' = c_low c) /\
    (hi' = hi \/ exists c, In c cs /\ hi' = c_high c).
Proof.
  revert lo hi. induction cs as [| c cs IH]; intros lo hi.
  - exists lo, hi. cbn. repeat split; try lra; try constructor; left; reflexivity.
  - cbn [fold_left fst snd js_lt js_gt].
    set (lo1 := if Rlt_dec (c_low c) lo then c_low c else lo).
    set (hi1 := if Rlt_dec hi (c_high c) then c_high c else hi).
    assert (E : (if if Rlt_dec (c_low c) lo then true else false
                 then Fin (c_low c) else Fin lo,
                 if if Rlt_dec hi (c_high c) then true else false
                 then Fin (c_high c) else Fin hi) = (Fin lo1, Fin hi1)).
    { unfold lo1, hi1. destruct (Rlt_dec (c_low c) lo); destruct (Rlt_dec hi (c_high c));
        reflexivity. }
    rewrite E.
    destruct (IH lo1 hi1) as (lo' & hi' & F & L & Hh & A & Il & Ih).
    assert (B1 : lo1 <= lo /\ lo1 <= c_low c)
      by (unfold lo1; destruct (Rlt_dec (c_low c) lo); lra).
    assert (B2 : hi <= hi1 /\ c_high c <= hi1)
      by (unfold hi1; destruct (Rlt_dec hi (c_high c)); lra).
    exists lo', hi'. split; [exact F |].
    split; [lra |]. split; [lra |].
    split; [constructor; [lra | exact A] |].
    split.
    + destruct Il as [-> | (c' & I' & ->)].
      * unfold lo1. destruct (Rlt_dec (c_low c) lo);
          [right; exists c; split; [left; reflexivity | reflexivity] | left; reflexivity].
      * right. exists c'. split; [right; exact I' | reflexivity].
    + destruct Ih as [-> | (c' & I' & ->)].
      * unfold hi1. destruct (Rlt_dec hi (c_high c));
          [right; exists c; split; [left; reflexivity | reflexivity] | left; reflexivity].
      * right. exists c'. split; [right; exact I' | reflexivity].
Qed.

Lemma scanCandles_nonempty cs :
  cs <> [] ->
  exists lo hi, scanCandles cs = (Fin lo, Fin hi) /\
    Forall (fun c => lo <= c_low c /\ c_high c <= hi) cs /\
    (exists c, In c cs /\ lo = c_low c) /\ (exists c, In c cs /\ hi = c_high c).
Proof.
  destruct cs as [| c cs]; [congruence | intros _].
  unfold scanCandles. cbn [fold_left fst snd js_lt js_gt].
  destruct (scanCandles_fold cs (c_low c) (c_high c))
    as (lo & hi & F & L & H & A & Il & Ih).
  exists lo, hi. split; [exact F |].
  split; [constructor; [lra | exact A] |].
  split.
  - destruct Il as [-> | (c' & I' & E)].
    + exists c. split; [left; reflexivity | reflexivity].
    + exists c'. split; [right; exact I' | exact E].
  - destruct Ih as [-> | (c' & I' & E)].
    + exists c. split; [left; reflexivity | reflexivity].
    + exists c'. split; [right; exact I' | exact E].
Qed.

(** X24. Candle range: for candles whose low is not above their high, the
    range holds every low and every high; when the lowest low [lo] differs
    from the highest high [hi] it is exactly the extent widened by 12% on
    each side, with no minimum span, and when they coincide it is
    [lo - 0.2, lo + 0.2].  Without candles the range is [99, 101]. *)
Theorem computeCandleRange_covers :
  forall candles,
    Forall (fun c => c_low c <= c_high c) candles ->
    let out := computeCandleRange candles in
    (candles = [] -> out = mkRange 99 101) /\
    (candles <> [] ->
     exists lo hi,
       (exists c, In c candles /\ lo = c_low c) /\
       (exists c, In c candles /\ hi = c_high c) /\
       lo <= hi /\
       Forall (fun c => lo <= c_low c /\ c_high c <= hi) candles /\
       Forall (fun c => range_min out <= c_low c /\ c_high c <= range_max out)
              candles /\
       range_min out < range_max out /\
       (lo < hi -> out = mkRange (lo - (hi - lo) * (12 / 100))
                                 (hi + (hi - lo) * (12 / 100))) /\
       (lo = hi -> out = mkRange (lo - 2 / 10) (lo + 2 / 10))).
Proof.
  intros candles Hwf out. split.
  - intros ->. reflexivity.
  - intros Hne.
    destruct (scanCandles_nonempty candles Hne) as (lo & hi & E & A & Il & Ih).
    exists lo, hi.
    assert (Hle : lo <= hi).
    { destruct Il as (c & Ic & ->).
      rewrite Forall_forall in A, Hwf.
      pose proof (A c Ic). pose proof (Hwf c Ic). lra. }
    split; [exact Il |]. split; [exact Ih |]. split; [exact Hle |].
    split; [exact A |].
    unfold out, computeCandleRange. rewrite E.
    destruct (Req_dec_T ((hi - lo) * (1 / 10)) 0) as [Hz | Hz].
    + assert (hi = lo) by lra. subst hi.
      destruct (Rlt_dec (lo - lo) (4 / 10)); [| lra].
      cbn [range_min range_max].
      split; [eapply Forall_impl; [| exact A]; cbn; intros c Hc; lra |].
      split; [lra |].
      split; [intros; lra |].
      intros _. f_equal; lra.
    + destruct (Rlt_dec (hi - lo) ((hi - lo) * (1 / 10))); [lra |].
      cbn [range_min range_max].
      split; [eapply Forall_impl; [| exact A]; cbn; intros c Hc; lra |].
      split; [lra |].
      split; [intros _; reflexivity |].
      intros ->. lra.
Qed.

Lemma computeCandleRange_covers_witness :
  let out := computeCandleRange sampleCandles in
  (sampleCandles = [] -> out = mkRange 99 101) /\
  (sampleCandles <> [] ->
   exists lo hi,
     (exists c, In c sampleCandles /\ lo = c_low c) /\
     (exists c, In c sampleCandles /\ hi = c_high c) /\
     lo <= hi /\
     Forall (fun c => lo <= c_low c /\ c_high c <= hi) sampleCandles /\
     Forall (fun c => range_min out <= c_low c /\ c_high c <= range_max out)
            sampleCandles /\
     range_min out < range_max out /\
     (lo < hi -> out = mkRange (lo - (hi - lo) * (12 / 100))
                               (hi + (hi - lo) * (12 / 100))) /\
     (lo = hi -> out = mkRange (lo - 2 / 10) (lo + 2 / 10))).
Proof.
  apply (computeCandleRange_covers sampleCandles).
  repeat constructor; cbn; lra.
Defined.

(** ** Frame clock, animation progress and time window *)

(** X25. Frame clock: a frame never counts for more than 50 ms, that is
    three reference frames, and a missing frame time counts for one
    reference frame.  While wall time does not go backwards the chart
    clock neither runs ahead of it nor goes backwards; when wall time
    moved on by at most a second the clock advances by at most 50 ms, the
    time it is behind after the frame being the excess of the wall-time
    step over 50 ms; when wall time went backwards or moved on by more
    than a second the clock is set to it. *)
Theorem frame_clock_capped :
  forall timeSincePreviousFrame nowRawMs prevClockMs,
    let dt := frameDt timeSincePreviousFrame in
    let capped := cappedNowMs nowRawMs prevClockMs in
    dt <= 50 /\ frameRatio dt <= 3 /\
    (timeSincePreviousFrame = None -> frameRatio dt = 1) /\
    (prevClockMs <= nowRawMs -> prevClockMs <= capped <= nowRawMs) /\
    (prevClockMs <= nowRawMs <= prevClockMs + 1000 ->
       capped - prevClockMs <= 50 /\
       nowRawMs - capped = Rmax 0 (nowRawMs - prevClockMs - 50)) /\
    (nowRawMs < prevClockMs \/ prevClockMs + 1000 < nowRawMs -> capped = nowRawMs).
Proof.
  intros tspf now prev dt capped.
  assert (Hdt : dt <= 50) by (unfold dt, frameDt; apply Rmin_r).
  split; [exact Hdt |].
  split.
  { unfold frameRatio, REF_FRAME_MS.
    apply Rmult_le_reg_r with (166667 / 10000); [lra |].
    unfold Rdiv at 1. rewrite Rmult_assoc, Rinv_l by lra. lra. }
  split.
  { intros ->. unfold dt, frameDt, frameRatio, REF_FRAME_MS.
    rewrite Rmin_left by lra. field. }
  unfold capped, cappedNowMs.
  split; [| split].
  - intros H. destruct (Rlt_dec (now - prev) 0); [lra |].
    destruct (Rlt_dec 1000 (now - prev)); [lra |].
    unfold Rmin. destruct (Rle_dec (now - prev) 50); lra.
  - intros H. destruct (Rlt_dec (now - prev) 0); [lra |].
    destruct (Rlt_dec 1000 (now - prev)); [lra |].
    unfold Rmin, Rmax.
    destruct (Rle_dec (now - prev) 50); destruct (Rle_dec 0 (now - prev - 50));
      split; lra.
  - intros [H | H].
    + destruct (Rlt_dec (now - prev) 0); [reflexivity | lra].
    + destruct (Rlt_dec (now - prev) 0); [reflexivity |].
      destruct (Rlt_dec 1000 (now - prev)); [reflexivity | lra].
Qed.

Lemma lerpStep_unit p (b : bool) speed ratio :
  0 <= speed <= 1 -> 0 <= ratio -> 0 <= p <= 1 ->
  let a := lerpStep p (if b then 1 else 0) speed ratio in
  0 <= a <= 1 /\ (if b then p <= a else a <= p).
Proof.
  intros Hs Hr Hp a.
  destruct (lerpStep_blend p (if b then 1 else 0) speed ratio Hs Hr) as (q & _ & Hq & E).
  unfold a. rewrite E. destruct b; split; nra.
Qed.

Lemma snapped_progress p (b : bool) speed ratio lo hi :
  0 <= speed <= 1 -> 0 <= ratio -> 0 <= p <= 1 -> 0 < lo -> lo <= hi -> hi < 1 ->
  let a := lerpStep p (if b then 1 else 0) speed ratio in
  let a1 := if Rlt_dec a lo then 0 else a in
  let a2 := if Rlt_dec hi a1 then 1 else a1 in
  0 <= a2 <= 1 /\ (a2 = 0 \/ lo <= a2) /\ (a2 = 1 \/ a2 <= hi) /\
  ((p = 0 \/ lo <= p) -> (p = 1 \/ p <= hi) -> if b then p <= a2 else a2 <= p).
Proof.
  intros Hs Hr Hp Hlo Hlh Hhi a a1 a2.
  destruct (lerpStep_unit p b speed ratio Hs Hr Hp) as [Ha Hm]. fold a in Ha, Hm.
  unfold a2, a1.
  destruct (Rlt_dec a lo) as [L | L].
  - destruct (Rlt_dec hi 0); [lra |].
    split; [lra |]. split; [left; reflexivity |]. split; [right; lra |].
    intros H0 H1. destruct b; lra.
  - destruct (Rlt_dec hi a) as [H | H].
    + split; [lra |]. split; [right; lra |]. split; [left; reflexivity |].
      intros H0 H1. destruct b; lra.
    + split; [lra |]. split; [right; lra |]. split; [right; lra |].
      intros H0 H1. destruct b; lra.
Qed.

(** X26. Animation progress values: pause progress, scrub amount and chart
    reveal stay in [0,1] over a frame.  Pause progress is never left
    strictly between 0 and 0.005 or between 0.995 and 1 (0.01 and 0.99 for
    the scrub amount), and from such a value it moves towards its target
    only; chart reveal moves towards its target only and is either on it
    or at least 0.005 away. *)
Theorem progress_values_unit :
  forall pauseProgress scrubAmount chartReveal paused hoverActive reveal ratio,
    0 <= ratio ->
    0 <= pauseProgress <= 1 -> 0 <= scrubAmount <= 1 -> 0 <= chartReveal <= 1 ->
    let p := advancePauseProgress pauseProgress paused ratio in
    let a := advanceScrubAmount scrubAmount hoverActive ratio in
    let r := advanceChartReveal chartReveal reveal ratio in
    let target := if reveal then 1 else 0 in
    (0 <= p <= 1 /\ (p = 0 \/ 5 / 1000 <= p) /\ (p = 1 \/ p <= 995 / 1000) /\
     ((pauseProgress = 0 \/ 5 / 1000 <= pauseProgress) ->
      (pauseProgress = 1 \/ pauseProgress <= 995 / 1000) ->
      if paused then pauseProgress <= p else p <= pauseProgress)) /\
    (0 <= a <= 1 /\ (a = 0 \/ 1 / 100 <= a) /\ (a = 1 \/ a <= 99 / 100) /\
     ((scrubAmount = 0 \/ 1 / 100 <= scrubAmount) ->
      (scrubAmount = 1 \/ scrubAmount <= 99 / 100) ->
      if hoverActive then scrubAmount <= a else a <= scrubAmount)) /\
    (0 <= r <= 1 /\ (r = target \/ 5 / 1000 <= Rabs (r - target)) /\
     (if reveal then chartReveal <= r else r <= chartReveal)).
Proof.
  intros pp sa cr paused hover reveal ratio Hr Hp Ha Hc p a r target.
  split; [| split].
  - apply (snapped_progress pp paused PAUSE_PROGRESS_SPEED ratio (5 / 1000) (995 / 1000));
      unfold PAUSE_PROGRESS_SPEED; lra.
  - apply (snapped_progress sa hover SCRUB_LERP_SPEED ratio (1 / 100) (99 / 100));
      unfold SCRUB_LERP_SPEED; lra.
  - unfold r, advanceChartReveal. fold target.
    destruct (lerpStep_unit cr reveal CHART_REVEAL_SPEED ratio
                ltac:(unfold CHART_REVEAL_SPEED; lra) Hr Hc) as [Hu Hm].
    fold target in Hu, Hm.
    destruct (Rlt_dec (Rabs (lerpStep cr target CHART_REVEAL_SPEED ratio - target))
                      (5 / 1000)) as [S | S].
    + split; [unfold target; destruct reveal; lra |].
      split; [left; reflexivity |].
      unfold target. destruct reveal; lra.
    + split; [exact Hu |]. split; [right; lra | exact Hm].
Qed.

Lemma progress_values_unit_witness :
  let p := advancePauseProgress 0 true 1 in
  let a := advanceScrubAmount 1 false 1 in
  let r := advanceChartReveal (1 / 2) true 1 in
  let target := if true then 1 else 0 in
  (0 <= p <= 1 /\ (p = 0 \/ 5 / 1000 <= p) /\ (p = 1 \/ p <= 995 / 1000) /\
   ((0 = 0 \/ 5 / 1000 <= 0) -> (0 = 1 \/ 0 <= 995 / 1000) ->
    if true then 0 <= p else p <= 0)) /\
  (0 <= a <= 1 /\ (a = 0 \/ 1 / 100 <= a) /\ (a = 1 \/ a <= 99 / 100) /\
   ((1 = 0 \/ 1 / 100 <= 1) -> (1 = 1 \/ 1 <= 99 / 100) ->
    if false then 1 <= a else a <= 1)) /\
  (0 <= r <= 1 /\ (r = target \/ 5 / 1000 <= Rabs (r - target)) /\
   (if true then 1 / 2 <= r else r <= 1 / 2)).
Proof.
  apply (progress_values_unit 0 1 (1 / 2) true false true 1); lra.
Defined.

(** X27. Time debt of a pause: it is never negative; while the chart is
    paused it grows by the frame time weighted by the pause progress, the
    whole frame time once the pause is complete; after the pause it grows
    by no more than that, is strictly reduced by a frame of positive
    length as soon as it exceeds 0.001 ms, and is either zero, at most
    0.001 ms or at least 10 ms. *)
Theorem advanceTimeDebt_catches_up :
  forall timeDebtMs dt pauseProgress paused ratio,
    0 <= timeDebtMs -> 0 <= dt -> 0 <= pauseProgress <= 1 -> 0 <= ratio ->
    let debt := advanceTimeDebt timeDebtMs dt pauseProgress paused ratio in
    0 <= debt /\
    debt <= timeDebtMs + dt * pauseProgress /\
    (paused = true -> debt = timeDebtMs + dt * pauseProgress) /\
    (paused = true -> pauseProgress = 1 -> debt = timeDebtMs + dt) /\
    (paused = false ->
       (debt = 0 \/ debt <= 1 / 1000 \/ 10 <= debt) /\
       (0 < ratio -> 1 / 1000 < timeDebtMs + dt * pauseProgress ->
        debt < timeDebtMs + dt * pauseProgress)).
Proof.
  intros d0 dt pp paused ratio Hd Hdt Hpp Hr debt.
  assert (Hadd : 0 <= d0 + dt * pp) by nra.
  unfold debt, advanceTimeDebt.
  destruct paused.
  - split; [exact Hadd |]. split; [lra |]. split; [reflexivity |].
    split; [intros _ ->; ring | discriminate].
  - destruct (Rlt_dec (1 / 1000) (d0 + dt * pp)) as [Hbig | Hsmall].
    + set (speed := if Rlt_dec 10000 (d0 + dt * pp)
                    then PAUSE_CATCHUP_SPEED_FAST else PAUSE_CATCHUP_SPEED).
      assert (Hs : 0 < speed <= 1).
      { unfold speed, PAUSE_CATCHUP_SPEED_FAST, PAUSE_CATCHUP_SPEED.
        destruct (Rlt_dec 10000 (d0 + dt * pp)); lra. }
      destruct (lerpStep_blend (d0 + dt * pp) 0 speed ratio ltac:(lra) Hr)
        as (q & Q & Hq & E).
      rewrite E.
      replace (0 - (0 - (d0 + dt * pp)) * q) with ((d0 + dt * pp) * q) by ring.
      assert (Hle : 0 <= (d0 + dt * pp) * q <= d0 + dt * pp) by nra.
      destruct (Rlt_dec ((d0 + dt * pp) * q) 10) as [S | S].
      * split; [lra |]. split; [lra |].
        split; [discriminate |]. split; [discriminate |].
        intros _. split; [left; reflexivity | intros; lra].
      * split; [lra |]. split; [lra |].
        split; [discriminate |]. split; [discriminate |].
        intros _. split; [right; right; lra |].
        intros Hpos _.
        pose proof (Math_pow_lt_1 speed ratio q Hs Hpos Q). nra.
    + split; [exact Hadd |]. split; [lra |].
      split; [discriminate |]. split; [discriminate |].
      intros _. split; [right; left; lra | intros; lra].
Qed.

Lemma advanceTimeDebt_catches_up_witness :
  let debt := advanceTimeDebt 2000 (50 / 3) 0 false 1 in
  0 <= debt /\
  debt <= 2000 + 50 / 3 * 0 /\
  (false = true -> debt = 2000 + 50 / 3 * 0) /\
  (false = true -> 0 = 1 -> debt = 2000 + 50 / 3) /\
  (false = false ->
     (debt = 0 \/ debt <= 1 / 1000 \/ 10 <= debt) /\
     (0 < 1 -> 1 / 1000 < 2000 + 50 / 3 * 0 -> debt < 2000 + 50 / 3 * 0)).
Proof. apply (advanceTimeDebt_catches_up 2000 (50 / 3) 0 false 1); lra. Defined.

Lemma exp_le_mono x y : x <= y -> exp x <= exp y.
Proof.
  intros [H | ->]; [left; apply exp_increasing; exact H | right; reflexivity].
Qed.

(** X28. The displayed time window: the target and the next window are at
    least one second long; the next window lies between the current
    window and the target; it is either the target or at least 0.01 s away
    from it, and then its logarithm is the target's logarithm minus a
    fraction [q] in [0,1] of the logarithmic gap (the interpolation runs
    in log space); a window on its target stays there; and while the chart
    is fully paused a window at least 0.01 s away from its target does not
    move. *)
Theorem advanceDisplayWindow_between :
  forall displayWindowSecs gestureWindow windowSecs ratio pauseProgress,
    0 <= ratio -> 0 <= pauseProgress <= 1 ->
    let target := targetWindowOf gestureWindow windowSecs in
    let cur := Rmax 1 displayWindowSecs in
    let next := advanceDisplayWindow displayWindowSecs gestureWindow windowSecs
                                     ratio pauseProgress in
    1 <= target /\ 1 <= next /\
    windowSecsNowOf displayWindowSecs gestureWindow windowSecs ratio pauseProgress
    = next /\
    Rmin cur target <= next <= Rmax cur target /\
    (next = target \/
     1 / 100 <= Rabs (next - target) /\
     exists q, 0 <= q <= 1 /\ ln next = ln target - (ln target - ln cur) * q) /\
    (cur = target -> next = target) /\
    (pauseProgress = 1 -> 1 / 100 <= Rabs (cur - target) -> next = cur).
Proof.
  intros dw gw ws ratio pp Hr Hpp target cur next.
  assert (Ht : 1 <= target) by (unfold target, targetWindowOf; apply Rmax_l).
  assert (Hc : 1 <= cur) by (unfold cur; apply Rmax_l).
  assert (Hratio : 0 <= ratio * (1 - pp)) by nra.
  destruct (lerpStep_blend (ln cur) (ln target) (12 / 100) (ratio * (1 - pp))
              ltac:(lra) Hratio) as (q & Q & Hq & E).
  set (L := lerpStep (ln cur) (ln target) (12 / 100) (ratio * (1 - pp))) in *.
  assert (Hbetween : Rmin cur target <= exp L <= Rmax cur target).
  { assert (HL : Rmin (ln cur) (ln target) <= L <= Rmax (ln cur) (ln target)).
    { rewrite E. unfold Rmin, Rmax. destruct (Rle_dec (ln cur) (ln target)); split; nra. }
    assert (Ec : exp (ln cur) = cur) by (apply exp_ln; lra).
    assert (Et : exp (ln target) = target) by (apply exp_ln; lra).
    unfold Rmin, Rmax in *.
    destruct (Rle_dec (ln cur) (ln target)) as [Hl | Hl];
      destruct (Rle_dec cur target) as [Hct | Hct].
    - split.
      + apply Rle_trans with (exp (ln cur)); [rewrite Ec; lra | apply exp_le_mono; lra].
      + apply Rle_trans with (exp (ln target)); [apply exp_le_mono; lra | rewrite Et; lra].
    - assert (ln target < ln cur) by (apply ln_increasing; lra). lra.
    - assert (ln target <= ln cur) by lra.
      assert (cur = target \/ cur < target) as [Heq | Hlt] by lra.
      + rewrite <- Heq in *. assert (L = ln cur) by lra.
        rewrite H0, Ec. lra.
      + assert (ln cur < ln target) by (apply ln_increasing; lra). lra.
    - split.
      + apply Rle_trans with (exp (ln target)); [rewrite Et; lra | apply exp_le_mono; lra].
      + apply Rle_trans with (exp (ln cur)); [apply exp_le_mono; lra | rewrite Ec; lra]. }
  assert (Hnext : next = if Rlt_dec (Rabs (exp L - target)) (1 / 100)
                         then target else exp L) by reflexivity.
  assert (Hminmax : Rmin cur target <= target <= Rmax cur target)
    by (split; [apply Rmin_r | apply Rmax_r]).
  assert (H1min : 1 <= Rmin cur target) by (apply Rmin_glb; lra).
  assert (Hn1 : 1 <= next /\ Rmin cur target <= next <= Rmax cur target).
  { rewrite Hnext. destruct (Rlt_dec _ _); lra. }
  split; [exact Ht |]. split; [tauto |].
  split; [unfold windowSecsNowOf; fold next; apply Rmax_right; tauto |].
  split; [tauto |].
  split; [| split].
  - rewrite Hnext. destruct (Rlt_dec _ _) as [S | S]; [left; reflexivity |].
    right. split; [lra |]. exists q. split; [exact Hq |].
    rewrite ln_exp. exact E.
  - intros Heq. rewrite Hnext.
    destruct (Rlt_dec _ _) as [S | S]; [reflexivity |].
    rewrite <- Heq in Hbetween. unfold Rmin, Rmax in Hbetween.
    destruct (Rle_dec cur cur); lra.
  - intros -> Hfar.
    assert (Hz : ratio * (1 - 1) = 0) by ring.
    rewrite Hz in Q. rewrite Math_pow_zero_exp in Q. injection Q as <-.
    assert (HL : L = ln cur) by (rewrite E; ring).
    rewrite Hnext, HL, exp_ln by lra.
    destruct (Rlt_dec (Rabs (cur - target)) (1 / 100)); [lra | reflexivity].
Qed.

Lemma advanceDisplayWindow_between_witness :
  let target := targetWindowOf 0 300 in
  let cur := Rmax 1 30 in
  let next := advanceDisplayWindow 30 0 300 1 0 in
  1 <= target /\ 1 <= next /\
  windowSecsNowOf 30 0 300 1 0 = next /\
  Rmin cur target <= next <= Rmax cur target /\
  (next = target \/
   1 / 100 <= Rabs (next - target) /\
   exists q, 0 <= q <= 1 /\ ln next = ln target - (ln target - ln cur) * q) /\
  (cur = target -> next = target) /\
  (0 = 1 -> 1 / 100 <= Rabs (cur - target) -> next = cur).
Proof. apply (advanceDisplayWindow_between 30 0 300 1 0); lra. Defined.

Lemma momentumDecay_unit dt : 0 <= dt -> 0 < momentumDecay dt <= 1.
Proof.
  intros Hdt. unfold momentumDecay.
  destruct (Req_dec_T dt 0); [lra |].
  unfold Rpower, MOMENTUM_DECAY_PER_MS. split; [apply exp_pos |].
  assert (Hln : ln (994 / 1000) < 0).
  { replace 0 with (ln 1) by apply ln_1. apply ln_increasing; lra. }
  assert (E : exp (dt * ln (994 / 1000)) <= exp 0) by (apply exp_le_mono; nra).
  rewrite exp_0 in E. exact E.
Qed.

Lemma momentumDecay_pow dt :
  Math_pow MOMENTUM_DECAY_PER_MS dt = Fin (momentumDecay dt).
Proof.
  unfold Math_pow, momentumDecay, MOMENTUM_DECAY_PER_MS.
  destruct (Req_dec_T dt 0); [reflexivity |].
  destruct (Rlt_dec 0 (994 / 1000)); [reflexivity | lra].
Qed.

(** X29. Pan momentum and snap back to live: over a frame the pan velocity
    does not grow in magnitude and is zero, unchanged, or still at least
    the stop threshold; a domain offset that is not positive stays so, and
    one moved by momentum is never positive; after the step the chart is
    not live when the offset is beyond the snap-back distance of 0.5 s,
    is live with offset zero when the velocity is below the stop threshold
    and the offset within that distance, and it only becomes live with the
    offset at zero. *)
Theorem panStep_snap_back :
  forall panVelocity domainOffset isLive dt,
    0 <= dt ->
    let r := panStep panVelocity domainOffset isLive dt in
    let v := fst (fst r) in
    let off := snd (fst r) in
    let live := snd r in
    Rabs v <= Rabs panVelocity /\
    (v = 0 \/ v = panVelocity \/ MOMENTUM_STOP_THRESHOLD <= Rabs v) /\
    (domainOffset <= 0 -> off <= 0) /\
    (MOMENTUM_STOP_THRESHOLD < Rabs panVelocity -> off <= 0) /\
    (off < - SNAP_BACK_THRESHOLD_SECS -> live = false) /\
    (Rabs v < MOMENTUM_STOP_THRESHOLD ->
       (off = 0 /\ live = true) \/ off <= - SNAP_BACK_THRESHOLD_SECS) /\
    (live = true -> isLive = true \/ off = 0).
Proof.
  intros v0 off0 live0 dt Hdt r v off live.
  pose proof (momentumDecay_unit dt Hdt) as Hm.
  unfold r, panStep in v, off, live. cbn [fst snd] in v, off, live.
  assert (Hdecay : Rabs (v0 * momentumDecay dt) <= Rabs v0).
  { rewrite Rabs_mult, (Rabs_right (momentumDecay dt)) by lra.
    pose proof (Rabs_pos v0). nra. }
  assert (Hv : Rabs (fst (decayMomentum v0 off0 dt)) <= Rabs v0 /\
               (fst (decayMomentum v0 off0 dt) = 0 \/
                fst (decayMomentum v0 off0 dt) = v0 \/
                MOMENTUM_STOP_THRESHOLD <= Rabs (fst (decayMomentum v0 off0 dt))) /\
               (off0 <= 0 -> snd (decayMomentum v0 off0 dt) <= 0) /\
               (MOMENTUM_STOP_THRESHOLD < Rabs v0 ->
                snd (decayMomentum v0 off0 dt) <= 0)).
  { unfold decayMomentum.
    destruct (Rlt_dec MOMENTUM_STOP_THRESHOLD (Rabs v0)) as [Hfast | Hslow].
    - cbn [fst snd].
      split.
      { destruct (Rlt_dec (Rabs (v0 * momentumDecay dt)) MOMENTUM_STOP_THRESHOLD);
          [rewrite Rabs_R0; apply Rabs_pos | exact Hdecay]. }
      split.
      { destruct (Rlt_dec (Rabs (v0 * momentumDecay dt)) MOMENTUM_STOP_THRESHOLD);
          [left; reflexivity | right; right; lra]. }
      split; intros _;
        destruct (Rlt_dec 0 (off0 + v0 * momentumDecay dt * dt)); lra.
    - cbn [fst snd]. split; [lra |]. split; [right; left; reflexivity |].
      split; [tauto | intros; lra]. }
  destruct Hv as (V1 & V2 & V3 & V4).
  set (m := decayMomentum v0 off0 dt) in *.
  assert (Hs : (snd (snapBackToLive (fst m) (snd m) live0) = true ->
                live0 = true \/ fst (snapBackToLive (fst m) (snd m) live0) = 0) /\
               (fst (snapBackToLive (fst m) (snd m) live0) < - SNAP_BACK_THRESHOLD_SECS ->
                snd (snapBackToLive (fst m) (snd m) live0) = false) /\
               (Rabs (fst m) < MOMENTUM_STOP_THRESHOLD ->
                (fst (snapBackToLive (fst m) (snd m) live0) = 0 /\
                 snd (snapBackToLive (fst m) (snd m) live0) = true) \/
                fst (snapBackToLive (fst m) (snd m) live0) <= - SNAP_BACK_THRESHOLD_SECS) /\
               (snd m <= 0 -> fst (snapBackToLive (fst m) (snd m) live0) <= 0)).
  { unfold snapBackToLive, SNAP_BACK_THRESHOLD_SECS.
    destruct (Rlt_dec (- (5 / 10)) (snd m)) as [Hnear | Hfar].
    - destruct (Rlt_dec (Rabs (fst m)) MOMENTUM_STOP_THRESHOLD) as [Hstill | Hmov];
        cbn [fst snd].
      + split; [intros _; right; reflexivity |].
        split; [intros; lra |].
        split; [intros _; left; split; reflexivity | intros; lra].
      + split; [intros ->; left; reflexivity |].
        split; [intros; lra |].
        split; [intros; lra | tauto].
    - destruct (Rlt_dec (snd m) (- (5 / 10))) as [Hbeyond | Hat]; cbn [fst snd].
      + split; [discriminate |].
        split; [reflexivity |].
        split; [intros _; right; lra | tauto].
      + split; [intros ->; left; reflexivity |].
        split; [intros; lra |].
        split; [intros _; right; lra | tauto]. }
  destruct Hs as (S1 & S2 & S3 & S4).
  unfold v, off, live.
  split; [exact V1 |]. split; [exact V2 |].
  split; [intros H; apply S4, V3, H |].
  split; [intros H; apply S4, V4, H |].
  split; [exact S2 |]. split; [exact S3 | exact S1].
Qed.

Lemma panStep_snap_back_witness :
  let r := panStep (1 / 10) (-3) false (50 / 3) in
  let v := fst (fst r) in
  let off := snd (fst r) in
  let live := snd r in
  Rabs v <= Rabs (1 / 10) /\
  (v = 0 \/ v = 1 / 10 \/ MOMENTUM_STOP_THRESHOLD <= Rabs v) /\
  (-3 <= 0 -> off <= 0) /\
  (MOMENTUM_STOP_THRESHOLD < Rabs (1 / 10) -> off <= 0) /\
  (off < - SNAP_BACK_THRESHOLD_SECS -> live = false) /\
  (Rabs v < MOMENTUM_STOP_THRESHOLD ->
     (off = 0 /\ live = true) \/ off <= - SNAP_BACK_THRESHOLD_SECS) /\
  (live = true -> false = true \/ off = 0).
Proof. apply (panStep_snap_back (1 / 10) (-3) false (50 / 3)). lra. Defined.

(** X30. The time window of a frame: its length is the displayed window;
    the right end of the filter lies between the domain target and the
    right edge, on the right edge when nothing is paused and on the domain
    target when the pause is complete; without arrow room, or on a plot at
    least 37 px wide, the domain target lies inside the window; and in
    live position (offset zero) on a time-sorted buffer the newest sample
    is never cut off: the last visible index is the last sample. *)
Theorem frameWindow_holds_newest :
  forall nowSec pts ptsCount domainOffset windowSecsNow innerWidth
         needsArrowRoom pauseProgress,
    (2 * ptsCount <= length pts)%nat ->
    0 < windowSecsNow -> 0 <= pauseProgress <= 1 ->
    let w := frameWindow nowSec pts ptsCount domainOffset windowSecsNow
                         innerWidth needsArrowRoom pauseProgress in
    fw_rightEdge w - fw_start w = windowSecsNow /\
    fw_domainTarget w < fw_rightEdge w /\
    fw_domainTarget w <= fw_filterRight w <= fw_rightEdge w /\
    (pauseProgress = 0 -> fw_filterRight w = fw_rightEdge w) /\
    (pauseProgress = 1 -> fw_filterRight w = fw_domainTarget w) /\
    (needsArrowRoom = false \/ 37 <= innerWidth -> fw_start w <= fw_domainTarget w) /\
    (domainOffset = 0 -> nowSec <= fw_domainTarget w) /\
    (domainOffset = 0 -> (0 < ptsCount)%nat -> sortedTimes pts ptsCount ->
       findLastPointIndexAtOrBefore pts ptsCount (fw_filterRight w)
       = (Z.of_nat ptsCount - 1)%Z /\
       clampIndex (findLastPointIndexAtOrBefore pts ptsCount (fw_filterRight w))
                  (-1) (Z.of_nat ptsCount - 1)
       = (Z.of_nat ptsCount - 1)%Z).
Proof.
  intros nowSec pts n off win iw needs pp _ Hwin Hpp w.
  unfold w, frameWindow. cbn [fw_domainTarget fw_rightEdge fw_start fw_filterRight].
  set (b := resolveWindowBuffer iw needs).
  assert (Hb : 5 / 100 <= b).
  { unfold b, resolveWindowBuffer, WINDOW_BUFFER.
    destruct needs; [apply Rmax_l | lra]. }
  set (live := Rmax nowSec (if (0 <? n)%nat then ptT pts (n - 1) else nowSec)).
  assert (Hwb : 0 < win * b) by (apply Rmult_lt_0_compat; lra).
  split; [ring |].
  split; [lra |].
  split; [split; nra |].
  split; [intros ->; ring |].
  split; [intros ->; ring |].
  split.
  { intros Hroom.
    assert (b <= 1).
    { unfold b, resolveWindowBuffer, WINDOW_BUFFER, ARROW_BUFFER_PX.
      destruct Hroom as [-> | Hwide]; [lra |].
      destruct needs; [| lra].
      apply Rmax_lub; [lra |].
      rewrite (Rmax_left iw 1) by lra.
      apply Rmult_le_reg_r with iw; [lra |].
      unfold Rdiv. rewrite Rmult_assoc, Rinv_l by lra. lra. }
    nra. }
  split; [intros ->; rewrite Rplus_0_r; apply Rmax_l |].
  intros -> Hn Hs. rewrite Rplus_0_r.
  set (fr := live + win * b - (live + win * b - live) * pp).
  assert (Hlast : ptT pts (n - 1) <= fr).
  { assert (ptT pts (n - 1) <= live).
    { unfold live. destruct (Nat.ltb_spec 0 n); [apply Rmax_r | lia]. }
    unfold fr. nra. }
  assert (E : findLastPointIndexAtOrBefore pts n fr = (Z.of_nat n - 1)%Z).
  { unfold findLastPointIndexAtOrBefore.
    destruct (Nat.eqb_spec n 0) as [E0 | _]; [lia |].
    destruct (lastAtOrBeforeLoop_spec pts n fr 0 (Z.of_nat n - 1) (-1) Hs)
      as (B1 & B2 & B3); try lia.
    set (r := lastAtOrBeforeLoop pts fr 0 (Z.of_nat n - 1) (-1)) in *.
    destruct (Z_lt_le_dec r (Z.of_nat n - 1)) as [Hlt | Hge]; [| lia].
    specialize (B3 (n - 1)%nat ltac:(lia) ltac:(lia)). lra. }
  split; [exact E |].
  rewrite E. unfold clampIndex. lia.
Qed.

Lemma frameWindow_holds_newest_witness :
  let w := frameWindow 2 sampleBuffer 3 0 30 280 true 0 in
  fw_rightEdge w - fw_start w = 30 /\
  fw_domainTarget w < fw_rightEdge w /\
  fw_domainTarget w <= fw_filterRight w <= fw_rightEdge w /\
  (0 = 0 -> fw_filterRight w = fw_rightEdge w) /\
  (0 = 1 -> fw_filterRight w = fw_domainTarget w) /\
  (true = false \/ 37 <= 280 -> fw_start w <= fw_domainTarget w) /\
  (0 = 0 -> 2 <= fw_domainTarget w) /\
  (0 = 0 -> (0 < 3)%nat -> sortedTimes sampleBuffer 3 ->
     findLastPointIndexAtOrBefore sampleBuffer 3 (fw_filterRight w)
     = (Z.of_nat 3 - 1)%Z /\
     clampIndex (findLastPointIndexAtOrBefore sampleBuffer 3 (fw_filterRight w))
                (-1) (Z.of_nat 3 - 1)
     = (Z.of_nat 3 - 1)%Z).
Proof.
  apply (frameWindow_holds_newest 2 sampleBuffer 3 0 30 280 true 0);
    [simpl; lia | lra | lra].
Defined.
